(** * OLX search pipeline: a shallow embedding of [lib/index.js]

    The development follows the library file of the repository: string
    normalisation and strict matching, price parsing and listing
    normalisation ([parseAd]), the single-region paginator, the multi-region
    round-robin merge, result shaping (sort and cap) and detail enrichment,
    the two transports of [fetchPage], [extractNextData] and the cleaning
    of the description of a detail page.  Of the command line front end
    ([bin/olx-search.js]) it embeds the numeric validation, the note
    written after the results, the projection on the fields asked for, the
    CSV output and the escaping of the page generator; of [lib/logger.js],
    the state of the logger.

    Conventions of the embedding.
    - A JavaScript string is the list of its UTF-16 code units ([list N]).
    - A JavaScript number that the pipeline uses as a count or an option
      ([limit], [pageSize], [totalOfAds], ids) is an integer ([Z]); [null],
      [undefined] and [NaN] are [None].  Prices are exact rationals ([Q]):
      the rounding of IEEE doubles is not part of the model.
    - The network is a deterministic function of the requested URL (a
      [world]); every request made is recorded in a trace.
    - [toLowerCase] and the NFD form of [String.prototype.normalize] are
      built-ins whose Unicode tables are not embedded: they are section
      variables, and ASCII instances are provided for evaluation.  So are
      [JSON.parse], the clock and [path.join] where the code calls them.
    - An object printed by the front end is the list of its own properties
      in insertion order, over the properties it inherits. *)

From Stdlib Require Import ZArith NArith QArith Qround List String Ascii Lia.
From Stdlib Require Import Permutation Sorted Lqa.
From stdpp Require Import base decidable option list gmap.

Local Open Scope N_scope.

(** ** JavaScript strings *)

Definition jsstring := list N.

Definition js (s : string) : jsstring :=
  map N_of_ascii (list_ascii_of_string s).

Definition between (lo hi c : N) : bool := (lo <=? c) && (c <=? hi).

(** [\s] of a JavaScript regular expression, which is also what [trim]
    strips: WhiteSpace and LineTerminator code units. *)
Definition is_space (c : N) : bool :=
  between 9 13 c || (c =? 32) || (c =? 160) || (c =? 5760) ||
  between 8192 8202 c || (c =? 8232) || (c =? 8233) || (c =? 8239) ||
  (c =? 8287) || (c =? 12288) || (c =? 65279).

Definition is_digit (c : N) : bool := between 48 57 c.

(** [\w] without the unicode flag: [A-Za-z0-9_]. *)
Definition is_word (c : N) : bool :=
  is_digit c || between 65 90 c || (c =? 95) || between 97 122 c.

(** The range U+0300..U+036F: combining diacritical marks. *)
Definition is_combining (c : N) : bool := between 768 879 c.

Definition SPACE : N := 32.
Definition COMMA : N := 44.
Definition DOT : N := 46.

Fixpoint drop_space (s : jsstring) : jsstring :=
  match s with
  | [] => []
  | c :: r => if is_space c then drop_space r else s
  end.

(** [str.trim()] *)
Definition trim (s : jsstring) : jsstring :=
  rev (drop_space (rev (drop_space s))).

(** Every run of white space becomes one space ([/\s+/g]): [in_run] tells
    that the previous code unit was white space, so the current run has
    already produced its space. *)
Fixpoint collapse_from (in_run : bool) (s : jsstring) : jsstring :=
  match s with
  | [] => []
  | c :: r =>
      if is_space c
      then (if in_run then collapse_from true r
            else SPACE :: collapse_from true r)
      else c :: collapse_from false r
  end.

Definition collapse_space (s : jsstring) : jsstring := collapse_from false s.

(** Every code unit that is neither [\w] nor [\s] becomes a space. *)
Definition blank_non_word (s : jsstring) : jsstring :=
  map (fun c => if is_word c || is_space c then c else SPACE) s.

(** Removal of every code unit in U+0300..U+036F. *)
Definition strip_marks (s : jsstring) : jsstring :=
  List.filter (fun c => negb (is_combining c)) s.

(** [str.split(sep)] for a separator of one code unit; the result is never
    empty (the empty string splits into one empty piece). *)
Fixpoint split_on (sep : N) (s : jsstring) : list jsstring :=
  match s with
  | [] => [[]]
  | c :: r =>
      if c =? sep then [] :: split_on sep r
      else match split_on sep r with
           | [] => [[c]]
           | p :: ps => (c :: p) :: ps
           end
  end.

(** [parts.join(sep)] *)
Fixpoint join_with (sep : N) (parts : list jsstring) : jsstring :=
  match parts with
  | [] => []
  | [p] => p
  | p :: ps => p ++ sep :: join_with sep ps
  end.

Fixpoint starts_with (t s : jsstring) : bool :=
  match t, s with
  | [], _ => true
  | _ :: _, [] => false
  | a :: t', b :: s' => (a =? b) && starts_with t' s'
  end.

(** [s.includes(t)] *)
Fixpoint includes (s t : jsstring) : bool :=
  starts_with t s ||
  match s with
  | [] => false
  | _ :: r => includes r t
  end.

(** A non-empty string is truthy; [null], [undefined] and the empty string
    are not. *)
Definition truthy (s : option jsstring) : bool :=
  match s with
  | Some (_ :: _) => true
  | _ => false
  end.

(** [a || b] on optional strings. *)
Definition or_else (a b : option jsstring) : option jsstring :=
  if truthy a then a else b.

(** [a] or else the empty string. *)
Definition or_empty (a : option jsstring) : jsstring :=
  match a with
  | Some (c :: r) => c :: r
  | _ => []
  end.

(** [a || null]: an empty string becomes [null]. *)
Definition or_null (a : option jsstring) : option jsstring :=
  if truthy a then a else None.

(** [arr.slice(start, end)]: a negative bound counts from the end. *)
Definition js_slice {A : Type} (start end_ : Z) (l : list A) : list A :=
  let len := Z.of_nat (length l) in
  let k := if (start <? 0)%Z then Z.max (len + start) 0 else Z.min start len in
  let final := if (end_ <? 0)%Z then Z.max (len + end_) 0 else Z.min end_ len in
  firstn (Z.to_nat (final - k)) (skipn (Z.to_nat k) l).

(** ASCII instances of the two built-ins, exact on strings whose code units
    are all below 128. *)
Definition ascii_toLowerCase (s : jsstring) : jsstring :=
  map (fun c => if between 65 90 c then c + 32 else c) s.

Definition ascii_nfd (s : jsstring) : jsstring := s.

(** ** Data model *)

(** One entry of [ad.properties] of the upstream payload. *)
Record rawProp := mkRawProp {
  rp_name : option jsstring;
  rp_label : option jsstring;
  rp_value : option jsstring
}.

(** A raw listing record ([pageProps.ads[i]]), with the fields the pipeline
    reads for identity, title, prices, properties and the detail link.
    Price fields are strings when present. *)
Record rawAd := mkRawAd {
  ad_listId : option Z;
  ad_subject : option jsstring;
  ad_title : option jsstring;
  ad_priceValue : option jsstring;
  ad_price : option jsstring;
  ad_oldPrice : option jsstring;
  ad_properties : option (list rawProp);
  ad_url : option jsstring;
  ad_friendlyUrl : option jsstring
}.

Record prop := mkProp {
  p_name : option jsstring;
  p_value : option jsstring
}.

(** The canonical item built by [parseAd]; the last three fields are filled
    by detail enrichment only.  The remaining fields of the source record
    (location, dates, images, flags) are copied from the raw ad and read by
    no later stage of the pipeline. *)
Record item := mkItem {
  it_id : option Z;
  it_title : jsstring;
  it_price : option Q;
  it_oldPrice : option Q;
  it_discountPercent : option Z;
  it_permalink : jsstring;
  it_properties : option (list prop);
  it_description : option jsstring;
  it_attributes : option (list prop);
  it_sellerName : option jsstring
}.

(** What one task of an enrichment batch resolves to. *)
Record detail := mkDetail {
  d_description : option jsstring;
  d_attributes : option (list prop);
  d_sellerName : option jsstring
}.

(** [props.pageProps] of a listing page. [pp_ads = None] when [ads] is not
    an array; an entry of the array may be [null]. *)
Record pageProps := mkPageProps {
  pp_ads : option (list (option rawAd));
  pp_totalOfAds : option Z;
  pp_pageSize : option Z;
  pp_selectedCategoryCode : option jsstring
}.

(** A search URL, kept structured: the domain, the path and the query
    parameters that [buildUrl] sets ([q], [o], [sp], [sf]). *)
Record url := mkUrl {
  u_domain : jsstring;
  u_path : jsstring;
  u_q : jsstring;
  u_o : option nat;
  u_sp : option jsstring;
  u_sf : option jsstring
}.

Inductive request :=
| GetListing (u : url)
| GetDetail (permalink : jsstring).

(** The body of a fetched page, or the failure of both transports. *)
Inductive fetched (A : Type) :=
| Failed
| Body (a : A).
Arguments Failed {A}.
Arguments Body {A} a.

(** The network. [listing u timeout] is [fetchPage] followed by
    [extractNextData] ([Body None] when no page data can be extracted);
    [detailOf permalink timeout] is the value of one enrichment task, [None]
    when the fetch fails. *)
Record world := mkWorld {
  listing : url -> Z -> fetched (option pageProps);
  detailOf : jsstring -> Z -> option detail
}.

Record options := mkOptions {
  o_limit : option Z;
  o_timeout : option Z;
  o_sort : option jsstring;
  o_concurrency : option Z;
  o_state : option jsstring;
  o_category : option jsstring;
  o_strict : option bool
}.

Record queryInfo := mkQueryInfo {
  q_text : jsstring;
  q_sort : option jsstring;
  q_state : option jsstring;
  q_states : list jsstring;
  q_category : option jsstring;
  q_strict : bool;
  q_url : option url
}.

Record pagination := mkPagination {
  pg_total : Z;
  pg_page : Z;
  pg_pageSize : Z;
  pg_limit : Z;
  pg_maxPages : Z;
  pg_resultsLimit : Z;
  pg_capped : bool
}.

Record searchResult := mkSearchResult {
  r_items : list item;
  r_query : queryInfo;
  r_pagination : pagination
}.

Inductive error :=
| UnknownCategory (given : jsstring) (valid : list jsstring)
| UnknownState (given : jsstring)
| NoSearchResults
| NoPageData
| FetchError (r : request).

(** How a call ends: it returns, it throws, or it never returns. *)
Inductive outcome (A : Type) :=
| Ok (a : A)
| Throw (e : error)
| Hang.
Arguments Ok {A} a.
Arguments Throw {A} e.
Arguments Hang {A}.

(** A run of an asynchronous function: the requests it made, in order, and
    how it ended. *)
Record run (A : Type) := Run {
  trace : list request;
  result : outcome A
}.
Arguments Run {A} trace result.
Arguments trace {A} r.
Arguments result {A} r.

(** The value a run returns, if it returns. *)
Definition returned {A : Type} (r : run A) : option A :=
  match result r with
  | Ok a => Some a
  | _ => None
  end.

Definition ret {A : Type} (a : A) : run A := Run [] (Ok a).
Definition throw {A : Type} (e : error) : run A := Run [] (Throw e).

Definition bind {A B : Type} (m : run A) (k : A -> run B) : run B :=
  match result m with
  | Ok a => let r := k a in Run (trace m ++ trace r) (result r)
  | Throw e => Run (trace m) (Throw e)
  | Hang => Run (trace m) Hang
  end.

Notation "'await' x <- m ; k" := (bind m (fun x => k))
  (at level 10, x name, m at level 100, k at level 200,
   format "'[v' 'await'  x  <-  m ; '/' k ']'").

(** ** Constants *)

Definition MARKETPLACE_DOMAIN : jsstring := js "www.olx.com.br".
Definition DEFAULT_LIMIT : Z := 20.
Definition DEFAULT_TIMEOUT : Z := 15000.
Definition DEFAULT_CONCURRENCY : Z := 5.
Definition MAX_PAGES : nat := 20.

(** [set.has(x)] for a set or a map whose keys are listed. *)
Definition has (keys : list jsstring) (x : jsstring) : bool :=
  bool_decide (x ∈ keys).

Definition VALID_STATES : list jsstring :=
  map js ["ac"; "al"; "ap"; "am"; "ba"; "ce"; "df"; "es"; "go"; "ma"; "mt";
          "ms"; "mg"; "pa"; "pb"; "pr"; "pe"; "pi"; "rj"; "rn"; "rs"; "ro";
          "rr"; "sc"; "sp"; "se"; "to"]%string.

(** The keys of the [CATEGORIES] map, in source order (the display names
    are only printed). *)
Definition CATEGORIES : list jsstring :=
  map js [
"imoveis"; "imoveis/venda";
"imoveis/aluguel"; "imoveis/temporada";
"imoveis/terrenos"; "imoveis/comercio-e-industria";
"imoveis/lancamentos"; "autos-e-pecas";
"autos-e-pecas/carros-vans-e-utilitarios"; "autos-e-pecas/motos";
"autos-e-pecas/onibus"; "autos-e-pecas/caminhoes";
"autos-e-pecas/barcos-e-aeronaves"; "autos-e-pecas/pecas-e-acessorios";
"autos-e-pecas/pecas-e-acessorios/carros-vans-e-utilitarios"; "autos-e-pecas/pecas-e-acessorios/motos";
"autos-e-pecas/pecas-e-acessorios/onibus"; "autos-e-pecas/pecas-e-acessorios/caminhoes";
"autos-e-pecas/pecas-e-acessorios/barcos-e-aeronaves"; "para-a-sua-casa";
"para-a-sua-casa/cama-mesa-e-banho"; "para-a-sua-casa/decoracoes-para-casa";
"para-a-sua-casa/casa-inteligente"; "para-a-sua-casa/utensilios-para-cozinha";
"para-a-sua-casa/utensilios-para-banheiro-e-limpeza"; "para-a-sua-casa/iluminacao";
"para-a-sua-casa/seguranca-residencial"; "para-a-sua-casa/jardinagem-e-plantas";
"para-a-sua-casa/area-externa"; "moveis";
"moveis/camas-e-colchoes"; "moveis/sofas-e-poltronas";
"moveis/cadeiras-de-escritorio-e-gamer"; "moveis/bancos-e-cadeiras";
"moveis/mesas"; "moveis/escrivaninhas-e-penteadeiras";
"moveis/racks-e-paineis"; "moveis/armarios-e-guarda-roupas";
"moveis/moveis-para-organizacao"; "eletro";
"eletro/ar-condicionados"; "eletro/ventiladores-e-climatizadores";
"eletro/geladeiras-e-freezers"; "eletro/fogoes-e-fornos";
"eletro/maquinas-de-lavar-e-secadoras"; "eletro/eletroportateis-para-cozinha-e-limpeza";
"eletro/eletroportateis-para-cuidados-pessoais"; "materiais-de-construcao";
"materiais-de-construcao/fundacao-e-estrutura"; "materiais-de-construcao/alvenaria";
"materiais-de-construcao/pisos-e-revestimentos"; "materiais-de-construcao/portas-e-janelas";
"materiais-de-construcao/cubas-e-pias"; "materiais-de-construcao/torneiras-duchas-e-vasos";
"materiais-de-construcao/instalacoes-eletricas-e-hidraulicas"; "materiais-de-construcao/ferramentas-de-construcao";
"materiais-de-construcao/ferramentas-de-pintura"; "eletronicos-e-celulares";
"celulares"; "eletronicos-e-celulares/acessorios-de-celular";
"eletronicos-e-celulares/pecas-de-celular"; "eletronicos-e-celulares/smartwatches";
"eletronicos-e-celulares/acessorios-para-smartwatch"; "eletronicos-e-celulares/telefonia-fixa-e-sem-fio";
"informatica"; "informatica/computadores-e-desktops";
"informatica/notebooks"; "informatica/monitores";
"informatica/perifericos-e-acessorios-de-computador"; "informatica/pecas-de-hardware";
"informatica/armazenamento"; "informatica/memoria-ram";
"informatica/processadores"; "informatica/placas-de-video";
"informatica/conectividade-e-dispositivos-de-rede"; "informatica/tablets-e-readers";
"games"; "games/consoles-de-video-game";
"games/jogos-de-video-game"; "games/acessorios-de-video-game";
"tvs-e-video"; "tvs-e-video/tvs";
"tvs-e-video/acessorios-para-tv"; "tvs-e-video/projetores-e-telas-de-projecao";
"tvs-e-video/dvd-blu-ray-video-cassete"; "tvs-e-video/dispositivos-de-streaming";
"audio"; "audio/fones-de-ouvido";
"audio/aparelhos-de-som"; "audio/microfones-e-gravadores";
"audio/equipamentos-e-acessorios-de-som"; "cameras-e-drones";
"cameras-e-filmadoras"; "acessorios-para-cameras-e-filmadoras";
"drones"; "moda-e-beleza";
"beleza-e-saude"; "roupas";
"bolsas-malas-e-mochilas"; "bijouteria-relogios-e-acessorios";
"calcados"; "comercio-e-escritorio";
"comercio-e-escritorio/equipamentos"; "comercio-e-escritorio/gastronomia";
"comercio-e-escritorio/equipamento-medico"; "comercio-e-escritorio/uniformes-epis";
"comercio-e-escritorio/trailers-e-carrinhos-comerciais"; "escritorio";
"escritorio/itens-para-escritorio"; "escritorio/cadeiras-de-escritorio";
"escritorio/moveis-de-escritorio"; "escritorio/papelaria";
"musica-e-hobbies"; "instrumentos-musicais";
"cds-dvds"; "livros-e-revistas";
"antiguidades"; "hobbies-e-colecoes";
"esportes-e-lazer"; "ciclismo";
"esportes-e-lazer/academia-e-exercicios"; "esportes-e-lazer/acampamento";
"esportes-e-lazer/esportes-sobre-rodas"; "esportes-e-lazer/quadra-e-ao-ar-livre";
"esportes-e-lazer/esportes-aquaticos"; "esportes-e-lazer/roupas-esportivas";
"esportes-e-lazer/calcados-esportivos"; "esportes-e-lazer/acessorios-de-ciclismo";
"artigos-infantis"; "artigos-infantis/roupas-infantis";
"artigos-infantis/calcados-infantis"; "artigos-infantis/roupas-para-bebes";
"artigos-infantis/calcados-para-bebes"; "artigos-infantis/brinquedos";
"artigos-infantis/maternidade-e-bebes"; "artigos-infantis/moveis-infantis";
"animais-de-estimacao"; "animais-de-estimacao/cachorros";
"animais-de-estimacao/gatos"; "animais-de-estimacao/acessorios";
"animais-de-estimacao/roedores"; "animais-de-estimacao/outros-animais";
"agro-e-industria"; "agro-e-industria/tratores-e-maquinas-agricolas";
"agro-e-industria/maquinas-pesadas-para-construcao"; "agro-e-industria/maquinas-para-producao-industrial";
"agro-e-industria/pecas-para-tratores-e-maquinas"; "agro-e-industria/animais-para-agropecuaria";
"agro-e-industria/producao-rural"; "agro-e-industria/outros-itens-para-agro-e-industria";
"servicos"; "vagas-de-emprego"
  ]%string.

(** ** Price parsing and listing normalisation *)

Definition is_price_char (c : N) : bool :=
  is_digit c || (c =? DOT) || (c =? COMMA).

(** [str.replace(",", ".")]: the first comma only. *)
Fixpoint replace_first_comma (s : jsstring) : jsstring :=
  match s with
  | [] => []
  | c :: r => if c =? COMMA then DOT :: r else c :: replace_first_comma r
  end.

Definition clean_price (s : jsstring) : jsstring :=
  replace_first_comma
    (List.filter (fun c => negb (c =? DOT)) (List.filter is_price_char s)).

(** The longest prefix of digits, and what follows it. *)
Fixpoint take_digits (s : jsstring) : jsstring * jsstring :=
  match s with
  | [] => ([], [])
  | c :: r =>
      if is_digit c
      then let (ds, rest) := take_digits r in (c :: ds, rest)
      else ([], s)
  end.

Definition digits_value (ds : jsstring) : Z :=
  fold_left (fun acc c => (acc * 10 + Z.of_N (c - 48))%Z) ds 0%Z.

(** [parseFloat] on a string over the alphabet that [clean_price] leaves
    (digits, dots and commas): the longest prefix [digits[.digits]] is read,
    and a prefix without any digit is [NaN], here [None]. *)
Definition parseFloat (s : jsstring) : option Q :=
  let (ip, rest) := take_digits s in
  let fp := match rest with
            | c :: r => if c =? DOT then fst (take_digits r) else []
            | [] => []
            end in
  match ip, fp with
  | [], [] => None
  | _, _ =>
      let scale := (10 ^ Z.of_nat (length fp))%Z in
      Some (Qred (Qmake (digits_value ip * scale + digits_value fp)
                        (Z.to_pos scale)))
  end.

Definition parsePrice (priceStr : option jsstring) : option Q :=
  if truthy priceStr then parseFloat (clean_price (or_empty priceStr))
  else None.

(** [Math.round]: the nearest integer, a half going up. *)
Definition Math_round (x : Q) : Z := Qfloor (x + (1 # 2)).

Definition Qltb (a b : Q) : bool :=
  match (a ?= b)%Q with
  | Lt => true
  | _ => false
  end.

(** A number is truthy when it is neither [null] nor zero. *)
Definition truthy_num (q : option Q) : bool :=
  match q with
  | Some x => negb (Qeq_bool x 0)
  | None => false
  end.

Definition discount (price oldPrice : option Q) : option Z :=
  match oldPrice, price with
  | Some o, Some p =>
      if truthy_num oldPrice && truthy_num price && Qltb p o
      then Some (Math_round (((o - p) / o) * 100))
      else None
  | _, _ => None
  end.

Definition CATEGORY_NAME : jsstring := js "category".

Definition is_category_prop (p : rawProp) : bool :=
  match rp_name p with
  | Some n => bool_decide (n = CATEGORY_NAME)
  | None => false
  end.

Definition parse_properties (ps : option (list rawProp)) : list prop :=
  match ps with
  | Some l =>
      map (fun p => mkProp (or_else (rp_label p) (rp_name p)) (rp_value p))
          (List.filter (fun p => negb (is_category_prop p)) l)
  | None => []
  end.

(** [ad.listId || null] *)
Definition parse_id (listId : option Z) : option Z :=
  match listId with
  | Some z => if (z =? 0)%Z then None else Some z
  | None => None
  end.

Definition parseAd (ad : option rawAd) : option item :=
  match ad with
  | None => None
  | Some ad =>
      let title := or_empty (or_else (ad_subject ad) (ad_title ad)) in
      match title with
      | [] => None
      | _ =>
          let price := parsePrice (or_else (ad_priceValue ad) (ad_price ad)) in
          let oldPrice := parsePrice (ad_oldPrice ad) in
          let discountPercent := discount price oldPrice in
          let properties := parse_properties (ad_properties ad) in
          let permalink := or_empty (or_else (ad_url ad) (ad_friendlyUrl ad)) in
          Some {| it_id := parse_id (ad_listId ad);
                  it_title := title;
                  it_price := price;
                  it_oldPrice := oldPrice;
                  it_discountPercent := discountPercent;
                  it_permalink := permalink;
                  it_properties := match properties with
                                   | [] => None
                                   | _ => Some properties
                                   end;
                  it_description := None;
                  it_attributes := None;
                  it_sellerName := None |}
      end
  end.

(** [ads.map((ad) => parseAd(ad)).filter(Boolean)] *)
Definition parseAds (ads : list (option rawAd)) : list item :=
  omap parseAd ads.

(** ** Deduplication by identity *)

(** The body of both dedup loops: an item whose id is already seen is
    skipped; otherwise its id, when it has one, is recorded and the item is
    pushed.  An id is tested for truthiness, so [0] counts as no id. *)
Definition truthy_id (it : item) : option Z :=
  match it_id it with
  | Some z => if (z =? 0)%Z then None else Some z
  | None => None
  end.

Definition push_unseen (acc : gset Z * list item) (it : item)
  : gset Z * list item :=
  match truthy_id it with
  | Some i =>
      if bool_decide (i ∈ acc.1) then acc
      else ({[ i ]} ∪ acc.1, acc.2 ++ [it])
  | None => (acc.1, acc.2 ++ [it])
  end.

(** [for (const item of items) if (item.id) seenIds.add(item.id)] *)
Definition record_ids (seen : gset Z) (its : list item) : gset Z :=
  fold_left (fun s it => match truthy_id it with
                         | Some i => {[ i ]} ∪ s
                         | None => s
                         end) its seen.

(** ** Round-robin merge of the regions *)

(** [Math.max(0, ...stateResults.map((arr) => arr.length))] *)
Definition maxLen (stateResults : list (list item)) : nat :=
  fold_right Nat.max 0%nat (map length stateResults).

Definition merge_rank (i : nat) (acc : gset Z * list item)
    (stateResults : list (list item)) : gset Z * list item :=
  fold_left (fun acc arr => match arr !! i with
                            | Some it => push_unseen acc it
                            | None => acc
                            end) stateResults acc.

Definition merge_regions (stateResults : list (list item)) : list item :=
  (fold_left (fun acc i => merge_rank i acc stateResults)
             (seq 0 (maxLen stateResults)) (∅, [])).2.

(** ** Result shaping *)

(** The sign of [(a.price ?? Infinity) - (b.price ?? Infinity)]; the
    difference of two infinities is [NaN], which [sort] reads as zero. *)
Definition by_price_asc (a b : item) : comparison :=
  match it_price a, it_price b with
  | Some x, Some y => (x ?= y)%Q
  | Some _, None => Lt
  | None, Some _ => Gt
  | None, None => Eq
  end.

(** The sign of [(b.price ?? 0) - (a.price ?? 0)]. *)
Definition by_price_desc (a b : item) : comparison :=
  (default 0%Q (it_price b) ?= default 0%Q (it_price a))%Q.

(** [Array.prototype.sort] is stable: with a comparator that is a total
    preorder its result is the one of a stable insertion sort. *)
Fixpoint insert_by (cmp : item -> item -> comparison) (x : item)
    (l : list item) : list item :=
  match l with
  | [] => [x]
  | y :: r =>
      match cmp x y with
      | Gt => y :: insert_by cmp x r
      | _ => x :: l
      end
  end.

Definition js_sort (cmp : item -> item -> comparison) (l : list item)
  : list item :=
  fold_right (insert_by cmp) [] l.

Definition PRICE_ASC : jsstring := js "price_asc".
Definition PRICE_DESC : jsstring := js "price_desc".
Definition DATE : jsstring := js "date".

Definition is_sort (sort : option jsstring) (name : jsstring) : bool :=
  bool_decide (sort = Some name).

Definition sort_items (sort : option jsstring) (its : list item)
  : list item :=
  if is_sort sort PRICE_ASC then js_sort by_price_asc its
  else if is_sort sort PRICE_DESC then js_sort by_price_desc its
  else its.

(** Sort, then cap. *)
Definition shape (sort : option jsstring) (limit : Z) (its : list item)
  : list item :=
  js_slice 0 limit (sort_items sort its).

(** ** Detail enrichment *)

(** [Object.assign(item, value)] *)
Definition assign (it : item) (d : detail) : item :=
  {| it_id := it_id it;
     it_title := it_title it;
     it_price := it_price it;
     it_oldPrice := it_oldPrice it;
     it_discountPercent := it_discountPercent it;
     it_permalink := it_permalink it;
     it_properties := it_properties it;
     it_description := d_description d;
     it_attributes := d_attributes d;
     it_sellerName := d_sellerName d |}.

(** ** Sample inputs *)

Definition sample_ad (listId : Z) (subject price : string) : option rawAd :=
  Some {| ad_listId := Some listId;
          ad_subject := Some (js subject);
          ad_title := None;
          ad_priceValue := None;
          ad_price := Some (js price);
          ad_oldPrice := None;
          ad_properties := None;
          ad_url := None;
          ad_friendlyUrl := None |}.

(** A fetched listing page with the given records, reported total and page
    size. *)
Definition sample_page (ads : list (option rawAd)) (total pageSize : Z)
  : fetched (option pageProps) :=
  Body (Some {| pp_ads := Some ads;
                pp_totalOfAds := Some total;
                pp_pageSize := Some pageSize;
                pp_selectedCategoryCode := None |}).

Definition no_details : jsstring -> Z -> option detail := fun _ _ => None.

Definition no_options : options :=
  {| o_limit := None; o_timeout := None; o_sort := None;
     o_concurrency := None; o_state := None; o_category := None;
     o_strict := None |}.

Definition with_limit (limit : Z) : options :=
  {| o_limit := Some limit; o_timeout := None; o_sort := None;
     o_concurrency := None; o_state := None; o_category := None;
     o_strict := None |}.

Definition in_states (states : string) (limit : Z) : options :=
  {| o_limit := Some limit; o_timeout := None; o_sort := None;
     o_concurrency := None; o_state := Some (js states); o_category := None;
     o_strict := None |}.

Definition strictly (limit : Z) : options :=
  {| o_limit := Some limit; o_timeout := None; o_sort := None;
     o_concurrency := None; o_state := None; o_category := None;
     o_strict := Some true |}.

Definition with_batch (concurrency : Z) : options :=
  {| o_limit := None; o_timeout := None; o_sort := None;
     o_concurrency := Some concurrency; o_state := None; o_category := None;
     o_strict := None |}.

(** One page of three ads, the last without a price; nothing after it. *)
Definition world_three : world :=
  {| listing := fun u _ =>
       match u_o u with
       | None => sample_page [sample_ad 1 "sofa" "R$ 10";
                              sample_ad 2 "mesa" "R$ 5";
                              sample_ad 3 "cama" "sob consulta"] 3 50
       | Some _ => Failed
       end;
     detailOf := no_details |}.

(** A first page that lists the same ad twice. *)
Definition world_twins : world :=
  {| listing := fun u _ =>
       match u_o u with
       | None => sample_page [sample_ad 7 "sofa" "R$ 10";
                              sample_ad 7 "sofa" "R$ 10"] 2 50
       | Some _ => Failed
       end;
     detailOf := no_details |}.

(** Every page of every region carries one fresh ad, of a thousand
    reported, the page size being one. *)
Definition world_budget : world :=
  {| listing := fun u _ =>
       let page := default 1%nat (u_o u) in
       let region := if bool_decide (u_path u = js "/estado-sp")
                     then 0%Z else 100%Z in
       sample_page [sample_ad (region + Z.of_nat page) "sofa" "R$ 10"]
                   1000 1;
     detailOf := no_details |}.

(** Sixty ads in all, fifty a page. *)
Definition world_sixty : world :=
  {| listing := fun u _ =>
       match u_o u with
       | None =>
           sample_page (map (fun i => sample_ad (Z.of_nat i) "sofa" "R$ 10")
                            (seq 1 50)) 60 50
       | Some 2%nat =>
           sample_page (map (fun i => sample_ad (Z.of_nat i) "sofa" "R$ 10")
                            (seq 51 10)) 60 50
       | Some _ => sample_page [] 60 50
       end;
     detailOf := no_details |}.

(** A first page without any record, although sixty are reported. *)
Definition world_empty_first : world :=
  {| listing := fun u _ =>
       match u_o u with
       | None => sample_page [] 60 50
       | Some _ => sample_page [sample_ad 1 "sofa" "R$ 10"] 60 50
       end;
     detailOf := no_details |}.

(** A second page that only repeats the ad of the first. *)
Definition world_repeats : world :=
  {| listing := fun u _ =>
       match u_o u with
       | None => sample_page [sample_ad 1 "sofa" "R$ 10"] 3 1
       | Some 2%nat => sample_page [sample_ad 1 "sofa" "R$ 10"] 3 1
       | Some _ => sample_page [sample_ad 2 "mesa" "R$ 5"] 3 1
       end;
     detailOf := no_details |}.

(** Region sp lists three ads and region rj two, without a shared id. *)
Definition world_regions : world :=
  {| listing := fun u _ =>
       if bool_decide (u_path u = js "/estado-sp")
       then sample_page [sample_ad 1 "a1" "R$ 1"; sample_ad 2 "a2" "R$ 2";
                         sample_ad 3 "a3" "R$ 3"] 3 50
       else sample_page [sample_ad 11 "b1" "R$ 1";
                         sample_ad 12 "b2" "R$ 2"] 2 50;
     detailOf := no_details |}.

(** Two phones; the detail page of the first one mentions the other. *)
Definition phone_ad (listId : Z) (subject link : string) : option rawAd :=
  Some {| ad_listId := Some listId;
          ad_subject := Some (js subject);
          ad_title := None;
          ad_priceValue := None;
          ad_price := Some (js "R$ 900");
          ad_oldPrice := None;
          ad_properties := None;
          ad_url := Some (js link);
          ad_friendlyUrl := None |}.

Definition world_phones : world :=
  {| listing := fun u _ =>
       match u_o u with
       | None => sample_page
                   [phone_ad 1 "iPhone 13" "https://olx/1";
                    phone_ad 2 "Celular Samsung Galaxy S20" "https://olx/2"]
                   2 50
       | Some _ => Failed
       end;
     detailOf := fun _ _ =>
       Some {| d_description := Some (js "troco por samsung s20");
               d_attributes := None;
               d_sellerName := None |} |}.

(** An ad on sale, and a free ad with an old price. *)
Definition sale_ad : rawAd :=
  {| ad_listId := Some 1%Z;
     ad_subject := Some (js "notebook");
     ad_title := None;
     ad_priceValue := None;
     ad_price := Some (js "R$ 3.899");
     ad_oldPrice := Some (js "R$ 4.999");
     ad_properties := None;
     ad_url := None;
     ad_friendlyUrl := None |}.

Definition free_ad : rawAd :=
  {| ad_listId := Some 2%Z;
     ad_subject := Some (js "sofa");
     ad_title := None;
     ad_priceValue := None;
     ad_price := Some (js "R$ 0");
     ad_oldPrice := Some (js "R$ 100");
     ad_properties := None;
     ad_url := None;
     ad_friendlyUrl := None |}.

(** An item with the given title and price only. *)
Definition priced_item (title : string) (price : option Q) : item :=
  {| it_id := None; it_title := js title; it_price := price;
     it_oldPrice := None; it_discountPercent := None; it_permalink := [];
     it_properties := None; it_description := None; it_attributes := None;
     it_sellerName := None |}.

Section Pipeline.

Variable toLowerCase : jsstring -> jsstring.
Variable nfd : jsstring -> jsstring.

(** ** Strict matching *)

Definition normalize (str : jsstring) : jsstring :=
  trim (collapse_space (blank_non_word (strip_marks (nfd (toLowerCase str))))).

Definition STOP_WORDS : list jsstring :=
  map js
    ["de"; "da"; "do"; "das"; "dos"; "e"; "ou"; "em"; "com"; "para"; "por";
     "um"; "uma"; "o"; "a"; "os"; "as"; "no"; "na"; "nos"; "nas"; "the";
     "and"; "or"; "for"; "in"; "of"; "to"; "with"]%string.

Definition keep_token (t : jsstring) : bool :=
  (1 <? length t)%nat && negb (has STOP_WORDS t).

Definition getQueryTokens (query : jsstring) : list jsstring :=
  List.filter keep_token (split_on SPACE (normalize query)).

(** The text an item is matched against, as [matchesTokens] builds it. *)
Definition corpus (it : item) : jsstring :=
  let c0 := normalize (it_title it) in
  let c1 := if truthy (it_description it)
            then c0 ++ SPACE :: normalize (or_empty (it_description it))
            else c0 in
  match it_properties it with
  | Some props =>
      fold_left (fun c p => c ++ SPACE :: normalize (or_empty (p_value p)))
                props c1
  | None => c1
  end.

Definition matchesTokens (it : item) (tokens : list jsstring) : bool :=
  match tokens with
  | [] => true
  | _ => forallb (fun token => includes (corpus it) token) tokens
  end.

Definition matchesQuery (it : item) (query : jsstring) : bool :=
  matchesTokens it (getQueryTokens query).


(** ** URLs and fetching *)

Definition buildUrl (query : jsstring) (sort : option jsstring)
    (domain : jsstring) (page : nat) (state category : option jsstring)
  : url :=
  let path :=
    if truthy category && truthy state
    then js "/" ++ or_empty category ++ js "/estado-"
         ++ toLowerCase (or_empty state)
    else if truthy category then js "/" ++ or_empty category
    else if truthy state then js "/estado-" ++ toLowerCase (or_empty state)
    else js "/brasil" in
  {| u_domain := domain;
     u_path := path;
     u_q := query;
     u_o := if (1 <? page)%nat then Some page else None;
     u_sp := if is_sort sort PRICE_ASC then Some (js "1")
             else if is_sort sort PRICE_DESC then Some (js "2")
             else None;
     u_sf := if is_sort sort PRICE_ASC then None
             else if is_sort sort PRICE_DESC then None
             else if is_sort sort DATE then Some (js "1")
             else None |}.

(** [extractNextData(await fetchPage(u, timeout))] *)
Definition fetchListing (w : world) (u : url) (timeout : Z)
  : run (option pageProps) :=
  match listing w u timeout with
  | Failed => Run [GetListing u] (Throw (FetchError (GetListing u)))
  | Body b => Run [GetListing u] (Ok b)
  end.

(** ** The paginator of one region *)

Record pstate := mkPstate {
  ps_items : list item;
  ps_seenIds : gset Z;
  ps_currentPage : nat
}.

(** [currentPage * pageSize < totalAvailable], where an absent total is
    [Infinity]. *)
Definition more_available (currentPage : nat) (pageSize : Z)
    (totalAvailable : option Z) : bool :=
  match totalAvailable with
  | Some t => (Z.of_nat currentPage * pageSize <? t)%Z
  | None => true
  end.

(** The records of a later page, unless the page ends the walk: no page
    data, [ads] not an array, or an empty array. *)
Definition usable_ads (pageState : option pageProps)
  : option (list (option rawAd)) :=
  match pageState with
  | Some pp =>
      match pp_ads pp with
      | Some (a :: ads) => Some (a :: ads)
      | _ => None
      end
  | None => None
  end.

Section Paginator.

Variable w : world.
Variable query : jsstring.
Variable sort : option jsstring.
Variable singleState : option jsstring.
Variable category : option jsstring.
Variable timeout : Z.
Variable limit : Z.
Variable pageSize : Z.
Variable totalAvailable : option Z.

(** The condition of the [while] loop. *)
Definition keep_going (st : pstate) : bool :=
  (Z.of_nat (length (ps_items st)) <? limit)%Z
  && more_available (ps_currentPage st) pageSize totalAvailable
  && (ps_currentPage st <? MAX_PAGES)%nat.

Definition push_page (st : pstate) (currentPage : nat)
    (ads : list (option rawAd)) : pstate :=
  let acc := fold_left push_unseen (parseAds ads)
                       (ps_seenIds st, ps_items st) in
  {| ps_items := acc.2; ps_seenIds := acc.1; ps_currentPage := currentPage |}.

Fixpoint page_loop (fuel : nat) (st : pstate) : run pstate :=
  if keep_going st then
    match fuel with
    | O => Run [] Hang
    | S fuel' =>
        let currentPage := S (ps_currentPage st) in
        let pageUrl := buildUrl query sort MARKETPLACE_DOMAIN currentPage
                                singleState category in
        await pageState <- fetchListing w pageUrl timeout;
        match usable_ads pageState with
        | None =>
            ret {| ps_items := ps_items st;
                   ps_seenIds := ps_seenIds st;
                   ps_currentPage := currentPage |}
        | Some ads => page_loop fuel' (push_page st currentPage ads)
        end
    end
  else ret st.

End Paginator.

(** ** Detail enrichment *)

Section Enricher.

Variable w : world.
Variable timeout : Z.
Variable concurrency : Z.

(** [items.filter((item) => item.permalink)]: the queue holds the items
    themselves, so it is kept as the positions of [items] it aliases. *)
Definition queue_of (items : list item) : list nat :=
  List.filter (fun i => match items !! i with
                        | Some it => match it_permalink it with
                                     | [] => false
                                     | _ => true
                                     end
                        | None => false
                        end)
              (seq 0 (length items)).

(** The settled tasks of one batch, each with the position it enriches. *)
Definition fetch_batch (items : list item) (batch : list nat)
  : list (nat * option detail) :=
  map (fun idx => (idx, match items !! idx with
                        | Some it => detailOf w (it_permalink it) timeout
                        | None => None
                        end)) batch.

Definition batch_requests (items : list item) (batch : list nat)
  : list request :=
  omap (fun idx => match items !! idx with
                   | Some it => Some (GetDetail (it_permalink it))
                   | None => None
                   end) batch.

Definition assign_results (items : list item)
    (results : list (nat * option detail)) : list item :=
  fold_left (fun its r => match r.2 with
                          | Some d => alter (fun it => assign it d) r.1 its
                          | None => its
                          end) results items.

Fixpoint enrich_loop (fuel : nat) (queue : list nat) (i : Z)
    (items : list item) : run (list item) :=
  if (i <? Z.of_nat (length queue))%Z then
    match fuel with
    | O => Run [] Hang
    | S fuel' =>
        let batch := js_slice i (i + concurrency) queue in
        let results := fetch_batch items batch in
        await _ <- Run (batch_requests items batch) (Ok tt);
        enrich_loop fuel' queue (i + concurrency)
                    (assign_results items results)
    end
  else ret items.

Definition enrich (items : list item) : run (list item) :=
  match items with
  | [] => ret items
  | _ => let queue := queue_of items in
         enrich_loop (length queue) queue 0 items
  end.

End Enricher.

(** ** search *)

Definition stateList_of (state : option jsstring) : list jsstring :=
  if truthy state
  then List.filter (fun s => match s with [] => false | _ => true end)
         (map (fun s => toLowerCase (trim s))
              (split_on COMMA (or_empty state)))
  else [].

(** [x || 50] *)
Definition or_50 (x : option Z) : Z :=
  match x with
  | Some z => if (z =? 0)%Z then 50%Z else z
  | None => 50%Z
  end.

Definition strict_filter (strict : bool) (query : jsstring)
    (items : list item) : list item :=
  if strict then
    match getQueryTokens query with
    | [] => items
    | tokens => List.filter (fun it => matchesTokens it tokens) items
    end
  else items.

(** The accumulator after the first page: its items, none dropped, and
    their ids. *)
Definition first_state (ads : list (option rawAd)) : pstate :=
  let items := parseAds ads in
  {| ps_items := items;
     ps_seenIds := record_ids ∅ items;
     ps_currentPage := 1 |}.

(** The path of [search] for at most one region. *)
Definition search_single (w : world) (query : jsstring) (opts : options)
    (stateList : list jsstring) : run searchResult :=
  let limit := default DEFAULT_LIMIT (o_limit opts) in
  let timeout := default DEFAULT_TIMEOUT (o_timeout opts) in
  let sort := o_sort opts in
  let concurrency := default DEFAULT_CONCURRENCY (o_concurrency opts) in
  let category := o_category opts in
  let strict := default false (o_strict opts) in
  let singleState := head stateList in
  let firstUrl := buildUrl query sort MARKETPLACE_DOMAIN 1 singleState
                           category in
  await firstState <- fetchListing w firstUrl timeout;
  match firstState with
  | None => throw NoSearchResults
  | Some fs =>
      match pp_ads fs with
      | None => throw NoSearchResults
      | Some ads =>
          let totalAvailable := pp_totalOfAds fs in
          let pageSize := or_50 (pp_pageSize fs) in
          await st <- page_loop w query sort singleState category timeout
                                limit pageSize totalAvailable MAX_PAGES
                                (first_state ads);
          let capped :=
            (limit <=? Z.of_nat (length (ps_items st)))%Z
            || ((MAX_PAGES <=? ps_currentPage st)%nat
                && more_available (ps_currentPage st) pageSize
                                  totalAvailable) in
          let items1 := strict_filter strict query (ps_items st) in
          let items2 := shape sort limit items1 in
          await items3 <- enrich w timeout concurrency items2;
          ret {| r_items := items3;
                 r_query :=
                   {| q_text := query;
                      q_sort := or_null sort;
                      q_state := singleState;
                      q_states := stateList;
                      q_category :=
                        or_else (pp_selectedCategoryCode fs)
                                (or_null category);
                      q_strict := strict;
                      q_url := Some firstUrl |};
                 r_pagination :=
                   {| pg_total :=
                        match pp_totalOfAds fs with
                        | Some t => if (t =? 0)%Z
                                    then Z.of_nat (length items3) else t
                        | None => Z.of_nat (length items3)
                        end;
                      pg_page := 1;
                      pg_pageSize := pageSize;
                      pg_limit := limit;
                      pg_maxPages := Z.of_nat MAX_PAGES;
                      pg_resultsLimit := (Z.of_nat MAX_PAGES * pageSize)%Z;
                      pg_capped := capped |} |}
      end
  end.

(** [Promise.allSettled]: the fulfilled values, in request order. *)
Definition fulfilled {A : Type} (settled : list (run A)) : list A :=
  omap (fun r => match result r with
                 | Ok v => Some v
                 | _ => None
                 end) settled.

Definition never_settles {A : Type} (settled : list (run A)) : bool :=
  existsb (fun r => match result r with
                    | Hang => true
                    | _ => false
                    end) settled.

(** What the first fulfilled region contributes to the echo: its URL, its
    category and its page size. *)
Definition first_result (rs : list searchResult)
  : option url * option jsstring * Z :=
  fold_left (fun acc r =>
               match acc.1.1 with
               | Some _ => acc
               | None => (q_url (r_query r), q_category (r_query r),
                          if (pg_pageSize (r_pagination r) =? 0)%Z
                          then 50%Z else pg_pageSize (r_pagination r))
               end) rs (None, None, 50%Z).

(** [{ ...options, state: s, limit: strict ? limit * 3 : limit }] *)
Definition region_options (opts : options) (s : jsstring) : options :=
  let limit := default DEFAULT_LIMIT (o_limit opts) in
  let strict := default false (o_strict opts) in
  {| o_limit := Some (if strict then limit * 3 else limit)%Z;
     o_timeout := o_timeout opts;
     o_sort := o_sort opts;
     o_concurrency := o_concurrency opts;
     o_state := Some s;
     o_category := o_category opts;
     o_strict := o_strict opts |}.

(** [stateList.map((s) => search(query, ...))], each promise run to its
    end. *)
Definition regional_searches
    (self : jsstring -> options -> run searchResult)
    (query : jsstring) (opts : options) (stateList : list jsstring)
  : list (run searchResult) :=
  map (fun s => self query (region_options opts s)) stateList.

(** The path of [search] for two regions or more; [self] is the recursive
    call.  The regional searches run concurrently: their requests are
    recorded region by region. *)
Definition search_multi (self : jsstring -> options -> run searchResult)
    (query : jsstring) (opts : options) (stateList : list jsstring)
  : run searchResult :=
  let limit := default DEFAULT_LIMIT (o_limit opts) in
  let sort := o_sort opts in
  let strict := default false (o_strict opts) in
  let settled := regional_searches self query opts stateList in
  let requests := concat (map trace settled) in
  if never_settles settled then Run requests Hang
  else
    let rs := fulfilled settled in
    let first := first_result rs in
    let totalSum := fold_left (fun t r => (t + pg_total (r_pagination r))%Z)
                              rs 0%Z in
    let stateResults := map r_items rs in
    let merged0 := merge_regions stateResults in
    let merged1 := if strict
                   then List.filter (fun it => matchesQuery it query) merged0
                   else merged0 in
    let merged := shape sort limit merged1 in
    Run requests
      (Ok {| r_items := merged;
             r_query :=
               {| q_text := query;
                  q_sort := or_null sort;
                  q_state := Some (join_with COMMA stateList);
                  q_states := stateList;
                  q_category := first.1.2;
                  q_strict := strict;
                  q_url := first.1.1 |};
             r_pagination :=
               {| pg_total := totalSum;
                  pg_page := 1;
                  pg_pageSize := first.2;
                  pg_limit := limit;
                  pg_maxPages := 20;
                  pg_resultsLimit := (20 * first.2)%Z;
                  pg_capped := (limit <=? Z.of_nat (length merged))%Z |} |}).

(** The body of [search], open in its recursive call. *)
Definition search_body (self : jsstring -> options -> run searchResult)
    (w : world) (query : jsstring) (opts : options) : run searchResult :=
  if truthy (o_category opts)
     && negb (has CATEGORIES (or_empty (o_category opts)))
  then throw (UnknownCategory (or_empty (o_category opts)) CATEGORIES)
  else
    let stateList := stateList_of (o_state opts) in
    match List.find (fun s => negb (has VALID_STATES s)) stateList with
    | Some s => throw (UnknownState s)
    | None =>
        if (1 <? length stateList)%nat
        then search_multi self query opts stateList
        else search_single w query opts stateList
    end.

(** [search]: a regional search is asked for one valid region, so it takes
    the single path and two levels close the recursion
    ([search_unfold] below). *)
Definition search (w : world) (query : jsstring) (opts : options)
  : run searchResult :=
  search_body (search_body (fun _ _ => Run [] Hang) w) w query opts.

Definition searchRaw (w : world) (query : jsstring) (opts : options)
  : run pageProps :=
  let timeout := default DEFAULT_TIMEOUT (o_timeout opts) in
  if truthy (o_category opts)
     && negb (has CATEGORIES (or_empty (o_category opts)))
  then throw (UnknownCategory (or_empty (o_category opts)) CATEGORIES)
  else
    let u := buildUrl query (o_sort opts) MARKETPLACE_DOMAIN 1
                      (o_state opts) (o_category opts) in
    await state_ <- fetchListing w u timeout;
    match state_ with
    | None => throw NoPageData
    | Some pp => ret pp
    end.

(** ** The command line front end *)

(** [parseInt(s, 10)]: leading white space, a sign, then digits; [None] is
    [NaN]. *)
Definition parseInt (s : jsstring) : option Z :=
  let s := drop_space s in
  let (neg, body) := match s with
                     | 45 :: r => (true, r)
                     | 43 :: r => (false, r)
                     | _ => (false, s)
                     end in
  match fst (take_digits body) with
  | [] => None
  | ds => Some (if neg then - digits_value ds else digits_value ds)%Z
  end.

Record cliArgs := mkCliArgs {
  a_query : jsstring;
  a_limit : option jsstring;
  a_timeout : option jsstring;
  a_concurrency : option jsstring;
  a_format : option jsstring;
  a_raw : bool;
  a_sort : option jsstring;
  a_state : option jsstring;
  a_category : option jsstring;
  a_strict : bool
}.

Inductive cliOutput :=
| CliError (msg : jsstring)
| CliFatal (e : error)
| CliRaw (pp : pageProps)
| CliResult (r : searchResult).

(** [opts.x ? parseInt(opts.x, 10) : dflt] *)
Definition cli_number (x : option jsstring) (dflt : Z) : option Z :=
  if truthy x then parseInt (or_empty x) else Some dflt.

(** [!Number.isInteger(x) || x < 1] *)
Definition not_positive (x : option Z) : bool :=
  match x with
  | Some z => (z <? 1)%Z
  | None => true
  end.

Definition FORMATS : list jsstring :=
  map js ["json"; "table"; "jsonl"; "csv"]%string.

(** The command line program from the point where the query is read: the
    checks, then [searchRaw] or [search]. *)
Definition cli_main (w : world) (a : cliArgs) : run cliOutput :=
  let query := trim (a_query a) in
  match query with
  | [] => ret (CliError (js "No search query provided."))
  | _ =>
      let limit := cli_number (a_limit a) 20 in
      let timeout := cli_number (a_timeout a) 15000 in
      let concurrency := cli_number (a_concurrency a) 5 in
      let format := toLowerCase (match or_empty (a_format a) with
                                 | [] => js "json"
                                 | f => f
                                 end) in
      if negb (has FORMATS format)
      then ret (CliError (js "Unknown format"))
      else if not_positive concurrency
      then ret (CliError (js "Invalid --concurrency"))
      else if not_positive limit
      then ret (CliError (js "Invalid --limit"))
      else if not_positive timeout
      then ret (CliError (js "Invalid --timeout"))
      else if a_raw a then
        let r := searchRaw w query
                   {| o_limit := None; o_timeout := timeout;
                      o_sort := a_sort a; o_concurrency := None;
                      o_state := a_state a; o_category := a_category a;
                      o_strict := None |} in
        Run (trace r) (match result r with
                       | Ok pp => Ok (CliRaw pp)
                       | Throw e => Ok (CliFatal e)
                       | Hang => Hang
                       end)
      else
        let r := search w query
                   {| o_limit := limit; o_timeout := timeout;
                      o_sort := a_sort a; o_concurrency := concurrency;
                      o_state := a_state a; o_category := a_category a;
                      o_strict := Some (a_strict a) |} in
        Run (trace r) (match result r with
                       | Ok v => Ok (CliResult v)
                       | Throw e => Ok (CliFatal e)
                       | Hang => Hang
                       end)
  end.

(** The note written to the error stream once the results are printed: the
    search returned fewer items than asked although more exist, or the
    limit asked is beyond what the platform lets one browse. *)
Inductive noteDetail :=
| PlatformMax (platformMax : Z)
| TotalAvailable (total : Z)
| NoDetail.

Inductive note :=
| NoteReturned (got limit : Z) (detail : noteDetail)
| NotePlatformLimit (platformMax limit : Z).

Definition cli_note (limit : Z) (r : searchResult) : option note :=
  let got := Z.of_nat (length (r_items r)) in
  let platformMax := pg_resultsLimit (r_pagination r) in
  (* platformMax && limit > platformMax *)
  let beyond := negb (platformMax =? 0)%Z && (platformMax <? limit)%Z in
  if (got <? limit)%Z then
    if pg_capped (r_pagination r) then
      Some (NoteReturned got limit
              (if beyond then PlatformMax platformMax
               else
                 let total := pg_total (r_pagination r) in
                 if (got <? total)%Z then TotalAvailable total
                 else NoDetail))
    else None
  else if beyond then Some (NotePlatformLimit platformMax limit)
  else None.


(** ** Output of the front end *)

Definition QUOTE : N := 34.
Definition LF : N := 10.
Definition CR : N := 13.

(** [str.replace(/c/g, repl)] for one code unit [c]. *)
Definition replace_char (c : N) (repl : jsstring) (s : jsstring)
  : jsstring :=
  flat_map (fun x => if x =? c then repl else [x]) s.

(** [CSV_ESCAPE_RE.test(s)]: the text holds a comma, a quote or a line
    break. *)
Definition needs_quotes (s : jsstring) : bool :=
  existsb (fun c => (c =? COMMA) || (c =? QUOTE) || (c =? LF) || (c =? CR)) s.

(** One cell of a CSV row.  The value is [None] when it is [null] or
    [undefined], and otherwise the text written for it: [String(v)], or
    [JSON.stringify(v)] for an object. *)
Definition csv_cell (v : option jsstring) : jsstring :=
  match v with
  | None => []
  | Some s =>
      if needs_quotes s
      then QUOTE :: replace_char QUOTE [QUOTE; QUOTE] s ++ [QUOTE]
      else s
  end.

Section Objects.

(** An object is the list of its own enumerable properties, in insertion
    order, each name once; no name is an array index (no field of an item
    is).  [proto] is [Object.prototype], which every such object inherits
    from. *)
Context {V : Type}.
Variable proto : jsstring -> option V.

Definition object := list (jsstring * V).

Definition keys (o : object) : list jsstring := map fst o.

Fixpoint own (k : jsstring) (o : object) : option V :=
  match o with
  | [] => None
  | (k', v) :: r => if bool_decide (k' = k) then Some v else own k r
  end.

(** [o[k]], [None] when [k in o] is false. *)
Definition read (k : jsstring) (o : object) : option V :=
  match own k o with
  | Some v => Some v
  | None => proto k
  end.

(** [o[k] = v] on an object that inherits an accessor for no other name
    than [__proto__]: a property that is there keeps its place. *)
Fixpoint put (k : jsstring) (v : V) (o : object) : object :=
  match o with
  | [] => [(k, v)]
  | (k', v') :: r =>
      if bool_decide (k' = k) then (k', v) :: r else (k', v') :: put k v r
  end.

Definition PROTO : jsstring := js "__proto__".

(** The projection on the fields asked for:
    [for (const f of fields) if (f in item) filtered[f] = item[f]].
    Assigning to [__proto__] goes to the inherited accessor and creates no
    property. *)
Definition select_fields (fields : list jsstring) (item : object)
  : object :=
  fold_left (fun filtered f =>
               match read f item with
               | Some v => if bool_decide (f = PROTO) then filtered
                           else put f v filtered
               | None => filtered
               end) fields [].

End Objects.

(** [opts.fields.split(",").map((f) => f.trim()).filter(Boolean)], or
    [null] without the option. *)
Definition parse_fields (fields : option jsstring)
  : option (list jsstring) :=
  if truthy fields
  then Some (List.filter (fun f => match f with [] => false | _ => true end)
               (map trim (split_on COMMA (or_empty fields))))
  else None.

Definition project_items {V : Type} (proto : jsstring -> option V)
    (fields : option (list jsstring)) (items : list (@object V))
  : list (@object V) :=
  match fields with
  | Some fs => map (select_fields proto fs) items
  | None => items
  end.

Section Csv.

(** The values of the objects printed are [None] for [null] or
    [undefined], and otherwise their text. *)
Variable proto : jsstring -> option (option jsstring).

Definition csv_row (ks : list jsstring) (item : @object (option jsstring))
  : jsstring :=
  join_with COMMA (map (fun k => csv_cell (mjoin (read proto k item))) ks).

(** The lines [outputCsv] prints. *)
Definition outputCsv (items : list (@object (option jsstring)))
  : list jsstring :=
  match items with
  | [] => []
  | first :: _ =>
      let ks := keys first in
      join_with COMMA ks :: map (csv_row ks) items
  end.

End Csv.

(** [esc] of the page generator: the four replacements, in source
    order. *)
Definition esc (s : option jsstring) : jsstring :=
  replace_char 34 (js "&quot;")
    (replace_char 62 (js "&gt;")
       (replace_char 60 (js "&lt;")
          (replace_char 38 (js "&amp;") (default [] s)))).

(** ** Fetching a page *)

(** [Math.max(1, Math.ceil(timeout / 1000))], for a whole number of
    milliseconds. *)
Definition curl_timeout (timeout : Z) : Z :=
  Z.max 1 (- (- timeout / 1000)).

(** [s.lastIndexOf(c)] for one code unit, [-1] when it does not occur. *)
Definition lastIndexOf (c : N) (s : jsstring) : Z :=
  (fold_left (fun acc x => ((acc.1 + 1)%Z,
                            if x =? c then acc.1 else acc.2))
             s (0%Z, (-1)%Z)).2.

Inductive fetchError :=
| HttpStatus (status : Z)
| TransportFailed.

(** What [fetchWithCurl] makes of the output of curl, which ends with a
    line break and the status code. *)
Definition curl_result (stdout : jsstring) : fetchError + jsstring :=
  let lastNewline := lastIndexOf LF stdout in
  let statusCode :=
    parseInt (trim (js_slice (lastNewline + 1) (Z.of_nat (length stdout))
                             stdout)) in
  let body := js_slice 0 lastNewline stdout in
  match statusCode with
  | Some code => if (400 <=? code)%Z then inl (HttpStatus code)
                 else inr body
  | None => inr body
  end.

(** The two transports.  [http_fetch url timeout] is the answer to
    [fetch], its status and its text, [None] when the request fails or
    runs out of time; [curl url seconds] is the output of the curl
    process, [None] when the process fails. *)
Record transports := mkTransports {
  http_fetch : jsstring -> Z -> option (Z * jsstring);
  curl : jsstring -> Z -> option jsstring
}.

Definition fetchWithFetch (t : transports) (url : jsstring) (timeout : Z)
  : fetchError + jsstring :=
  match http_fetch t url timeout with
  | Some (status, text) =>
      (* res.ok *)
      if (200 <=? status)%Z && (status <=? 299)%Z then inr text
      else inl (HttpStatus status)
  | None => inl TransportFailed
  end.

Definition fetchWithCurl (t : transports) (url : jsstring) (timeout : Z)
  : fetchError + jsstring :=
  match curl t url (curl_timeout timeout) with
  | Some stdout => curl_result stdout
  | None => inl TransportFailed
  end.

Definition fetchPage (t : transports) (url : jsstring) (timeout : Z)
  : fetchError + jsstring :=
  match fetchWithFetch t url timeout with
  | inr text => inr text
  | inl _ => fetchWithCurl t url timeout
  end.

(** ** Extracting the page data *)

(** [s.indexOf(t, from)]: [index_from t s j] looks in [s], the part of the
    string from position [j] on. *)
Fixpoint index_from (t s : jsstring) (j : Z) : Z :=
  if starts_with t s then j
  else match s with
       | [] => (-1)%Z
       | _ :: r => index_from t r (j + 1)
       end.

Definition indexOf (s t : jsstring) (from : Z) : Z :=
  let k := Z.min (Z.max from 0) (Z.of_nat (length s)) in
  index_from t (skipn (Z.to_nat k) s) k.

(** A value that [JSON.parse] gives; an object lists its properties, each
    name once. *)
#[warnings="-register-all"]
Inductive json :=
| JNull
| JBool (b : bool)
| JNum (q : Q)
| JStr (s : jsstring)
| JArr (l : list json)
| JObj (fields : list (jsstring * json)).

(** [v?.k] for a name that no array, string, number or boolean has, such
    as [props] and [pageProps]; [None] is [undefined]. *)
Definition member (k : jsstring) (v : option json) : option json :=
  match v with
  | Some (JObj fields) => own k fields
  | _ => None
  end.

Definition falsy (v : json) : bool :=
  match v with
  | JNull => true
  | JBool b => negb b
  | JNum q => Qeq_bool q 0
  | JStr [] => true
  | _ => false
  end.

(** [data?.props?.pageProps || null] *)
Definition pageProps_of (data : json) : option json :=
  match member (js "pageProps") (member (js "props") (Some data)) with
  | Some v => if falsy v then None else Some v
  | None => None
  end.

Definition NEXT_DATA_MARKER : jsstring :=
  js "<script id=" ++ [QUOTE] ++ js "__NEXT_DATA__" ++ [QUOTE]
  ++ js " type=" ++ [QUOTE] ++ js "application/json" ++ [QUOTE] ++ js ">".

Definition SCRIPT_END : jsstring := js "</script>".

Section NextData.

(** [JSON.parse], [None] when it throws. *)
Variable JSON_parse : jsstring -> option json.

Definition extractNextData (html : jsstring) : option json :=
  let idx := indexOf html NEXT_DATA_MARKER 0 in
  if (idx <? 0)%Z then None
  else
    let jsonStart := (idx + Z.of_nat (length NEXT_DATA_MARKER))%Z in
    let jsonEnd := indexOf html SCRIPT_END jsonStart in
    if (jsonEnd <? 0)%Z then None
    else
      match JSON_parse (js_slice jsonStart jsonEnd html) with
      | Some data => pageProps_of data
      | None => None
      end.

End NextData.

(** ** The description of a detail page *)

(** [str.replace(re, repl)] for a global regular expression: [matches s]
    is the length of the match of [re] at the start of [s], when there is
    one; matches are taken from left to right and do not overlap.  [skip]
    counts the code units of the current match still to be dropped. *)
Fixpoint replace_matches (matches : jsstring -> option nat)
    (repl : jsstring) (skip : nat) (s : jsstring) : jsstring :=
  match s with
  | [] => []
  | c :: r =>
      match skip with
      | S k => replace_matches matches repl k r
      | O =>
          match matches s with
          | Some (S n) => repl ++ replace_matches matches repl n r
          | _ => c :: replace_matches matches repl 0 r
          end
      end
  end.

Definition LT : N := 60.
Definition GT : N := 62.
Definition SLASH : N := 47.

(** The regular expression [<br\s*\/?>] with the flag [i]. *)
Definition match_br (s : jsstring) : option nat :=
  match s with
  | lt :: b :: r :: rest =>
      if (lt =? LT) && ((b =? 98) || (b =? 66)) && ((r =? 114) || (r =? 82))
      then
        let rest' := drop_space rest in
        let spaces := (length rest - length rest')%nat in
        match rest' with
        | c1 :: rest'' =>
            if c1 =? GT then Some (3 + spaces + 1)%nat
            else if c1 =? SLASH then
              match rest'' with
              | c2 :: _ => if c2 =? GT then Some (3 + spaces + 2)%nat
                           else None
              | [] => None
              end
            else None
        | [] => None
        end
      else None
  | _ => None
  end.

(** The number of code units before the first [>]. *)
Fixpoint until_gt (s : jsstring) : option nat :=
  match s with
  | [] => None
  | c :: r => if c =? GT then Some 0%nat else S <$> until_gt r
  end.

(** The regular expression [<[^>]+>]. *)
Definition match_tag (s : jsstring) : option nat :=
  match s with
  | lt :: c :: r =>
      if (lt =? LT) && negb (c =? GT)
      then (fun n => 3 + n)%nat <$> until_gt r
      else None
  | _ => None
  end.

(** The description of a detail page, from the [description] of its
    linked data: line breaks for [br] tags, every other tag removed, the
    ends trimmed; [null] without a description. *)
Definition clean_description (description : option jsstring)
  : option jsstring :=
  if truthy description
  then Some (trim (replace_matches match_tag [] 0
                     (replace_matches match_br [LF] 0
                        (or_empty description))))
  else None.

(** ** The logger *)

Record logger := mkLogger {
  logStream : option jsstring;
  enabled : bool;
  logFilePath : option jsstring;
  (* every text written so far, with the path of the stream it went to *)
  written : list (jsstring * jsstring);
  (* the number of times the clock was read *)
  ticks : nat
}.

Definition logger_start : logger :=
  {| logStream := None; enabled := false; logFilePath := None;
     written := []; ticks := 0 |}.

Fixpoint replace_first (c d : N) (s : jsstring) : jsstring :=
  match s with
  | [] => []
  | x :: r => if x =? c then d :: r else x :: replace_first c d r
  end.

(** The stamp of the file name: the ISO text of the time with every colon
    and dot turned into a dash, the first T into an underscore, cut to 19
    code units. *)
Definition log_stamp (iso : jsstring) : jsstring :=
  firstn 19
    (replace_first 84 95
       (map (fun c => if (c =? 58) || (c =? 46) then 45 else c) iso)).

Section Logger.

(** [new Date().toISOString()] at the n-th reading of the clock,
    [path.join], the directory above the one of the module, and what the
    process reports of itself. *)
Variable clock : nat -> jsstring.
Variable path_join : jsstring -> jsstring -> jsstring.
Variable project_root : jsstring.
Variable version platform arch cwd : jsstring.
Variable argv : list jsstring.

(** [log(tag, message, data)]; [data] is its serialised text, [None] when
    it is [undefined]. *)
Definition log (tag message : jsstring) (data : option jsstring)
    (st : logger) : logger :=
  match enabled st, logStream st with
  | true, Some path =>
      let ts := clock (ticks st) in
      let line := js "[" ++ ts ++ js "] [" ++ tag ++ js "] " ++ message
                  ++ match data with
                     | Some d => LF :: d
                     | None => []
                     end in
      {| logStream := logStream st; enabled := enabled st;
         logFilePath := logFilePath st;
         written := written st ++ [(path, line ++ [LF])];
         ticks := S (ticks st) |}
  | _, _ => st
  end.

Definition initLogger (outputDir : option jsstring) (st : logger)
  : logger :=
  let ts := log_stamp (clock (ticks st)) in
  let path := path_join (if truthy outputDir then or_empty outputDir
                         else project_root)
                        (js "olx-search_" ++ ts ++ js ".log") in
  let st0 := {| logStream := Some path; enabled := true;
                logFilePath := Some path; written := written st;
                ticks := S (ticks st) |} in
  let st1 := log (js "LOGGER") (js "Log file created: " ++ path) None st0 in
  let st2 := log (js "LOGGER")
                 (js "Node " ++ version ++ js " | Platform: " ++ platform
                  ++ js " " ++ arch) None st1 in
  let st3 := log (js "LOGGER") (js "CWD: " ++ cwd) None st2 in
  log (js "LOGGER") (js "Args: " ++ join_with SPACE argv) None st3.

Definition closeLogger (st : logger) : logger :=
  match logStream st with
  | Some _ =>
      let st1 := log (js "LOGGER") (js "Closing log file.") None st in
      {| logStream := None; enabled := false;
         logFilePath := logFilePath st1; written := written st1;
         ticks := ticks st1 |}
  | None => st
  end.

Definition getLogFilePath (st : logger) : option jsstring :=
  logFilePath st.

Definition isLogging (st : logger) : bool := enabled st.

Inductive loggerCall :=
| InitLogger (outputDir : option jsstring)
| Log (tag message : jsstring) (data : option jsstring)
| CloseLogger.

Definition logger_call (st : logger) (c : loggerCall) : logger :=
  match c with
  | InitLogger outputDir => initLogger outputDir st
  | Log tag message data => log tag message data st
  | CloseLogger => closeLogger st
  end.

End Logger.


(** ** Sample inputs of the front end *)

(** Two items as the front end prints them. *)
Definition csv_items : list (@object (option jsstring)) :=
  [[(js "title", Some (js "Sofa, 3 lugares")); (js "price", Some (js "10"))];
   [(js "title", Some (js "Mesa")); (js "price", None)]].

(** A prototype with one method. *)
Definition toy_proto : jsstring -> option (option jsstring) :=
  fun k => if bool_decide (k = js "toString")
           then Some (Some (js "function toString() { [native code] }"))
           else None.

Definition no_proto : jsstring -> option (option jsstring) := fun _ => None.

(** A network where [fetch] fails and curl answers. *)
Definition curl_only (stdout : jsstring) : transports :=
  {| http_fetch := fun _ _ => None; curl := fun _ _ => Some stdout |}.

(** A parser that knows one text. *)
Definition toy_page : json :=
  JObj [(js "props",
         JObj [(js "pageProps", JObj [(js "totalOfAds", JNum 3)])])].

Definition toy_parse : jsstring -> option json :=
  fun s => if bool_decide (s = js "{}") then Some toy_page else None.

Definition sample_html : jsstring :=
  js "<html><script>var a;</script>" ++ NEXT_DATA_MARKER ++ js "{}"
  ++ SCRIPT_END ++ js "</html>".


(** * Definitions for the properties *)

(** ** Strings and matching *)

(** [t] occurs in [s] as a contiguous block. *)
Definition substring (t s : jsstring) : Prop :=
  exists pre post, s = pre ++ t ++ post.

Definition word_or_space (c : N) : Prop := is_word c = true \/ c = SPACE.

(** The pieces [matchesTokens] joins with spaces: the normalised title, the
    normalised description when the item has one, and the normalised value of
    every property. *)
Definition corpus_parts (it : item) : list jsstring :=
  normalize (it_title it)
  :: (if truthy (it_description it)
      then [normalize (or_empty (it_description it))] else [])
  ++ match it_properties it with
     | Some props => map (fun p => normalize (or_empty (p_value p))) props
     | None => []
     end.

(** The pieces of the corpus that come from the listing page: the
    normalised title and the normalised property values. *)
Definition listing_parts (it : item) : list jsstring :=
  normalize (it_title it)
  :: match it_properties it with
     | Some props => map (fun p => normalize (or_empty (p_value p))) props
     | None => []
     end.

(** ** Orders on prices *)

(** [a] is not above [b] for a comparator. *)
Definition cmp_le (cmp : item -> item -> comparison) (a b : item) : Prop :=
  cmp a b <> Gt.

(** The order of [price_asc]: a missing price is above every price. *)
Definition asc_le (a b : item) : Prop :=
  match it_price a, it_price b with
  | Some x, Some y => (x <= y)%Q
  | None, Some _ => False
  | _, None => True
  end.

(** The order of [price_desc]: a missing price counts as zero. *)
Definition desc_le (a b : item) : Prop :=
  (default 0%Q (it_price b) <= default 0%Q (it_price a))%Q.

Definition priced (it : item) : bool :=
  match it_price it with
  | Some _ => true
  | None => false
  end.

Definition positive_price (it : item) : bool :=
  match it_price it with
  | Some p => Qltb 0 p
  | None => false
  end.

Definition nonneg_price (it : item) : Prop :=
  match it_price it with
  | Some p => (0 <= p)%Q
  | None => True
  end.

(** ** Identity and the round robin *)

(** The truthy ids of a list of items, in order. *)
Definition ids (l : list item) : list Z := omap truthy_id l.

(** One pass of the dedup loop over a list, from nothing seen. *)
Definition dedup_ids (l : list item) : list item :=
  (fold_left push_unseen l (∅, [])).2.

Definition no_id (it : item) : bool :=
  match truthy_id it with
  | Some _ => false
  | None => true
  end.

(** Round robin by rank, after the words of the specification: index 0 of
    every region in request order, then index 1 of every region, and so on,
    a region with nothing left at a rank being skipped.  Each round takes
    the heads and goes on with the tails. *)
Fixpoint round_robin_rounds (n : nat) (regions : list (list item))
  : list item :=
  match n with
  | O => []
  | S n' => omap head regions ++ round_robin_rounds n' (map tail regions)
  end.

Definition round_robin (regions : list (list item)) : list item :=
  round_robin_rounds (maxLen regions) regions.

(** The items at rank [i], region by region. *)
Definition rank (i : nat) (regions : list (list item)) : list item :=
  omap (fun arr : list item => arr !! i) regions.

(** ** Listing fields and requests *)

(** The listing part of an item: what [parseAd] built, the enrichment
    fields cleared. *)
Definition listing_of (it : item) : item :=
  assign it {| d_description := None; d_attributes := None;
               d_sellerName := None |}.

Definition is_listing_request (r : request) : bool :=
  match r with
  | GetListing _ => true
  | GetDetail _ => false
  end.

(** The listing pages requested in a trace. *)
Definition listing_requests (tr : list request) : list request :=
  List.filter is_listing_request tr.

(** ** The walk of the paginator, page by page *)

Section PaginatorSpec.

Variable w : world.
Variable query : jsstring.
Variable sort : option jsstring.
Variable singleState : option jsstring.
Variable category : option jsstring.
Variable timeout : Z.
Variable limit : Z.
Variable pageSize : Z.
Variable totalAvailable : option Z.

(** The URL of page [n] of the walk. *)
Definition page_url (n : nat) : url :=
  buildUrl query sort MARKETPLACE_DOMAIN n singleState category.

(** The records page [n] contributes when it is fetched after the first
    page: none when the fetch fails, when no page data is found, when [ads]
    is no array or when the array is empty. *)
Definition page_ads (n : nat) : option (list (option rawAd)) :=
  match listing w (page_url n) timeout with
  | Body ps => usable_ads ps
  | Failed => None
  end.

(** The accumulator after the pages up to [n], [st1] being the one after
    the first page; it does not look at any stop condition. *)
Fixpoint state_after (st1 : pstate) (n : nat) : pstate :=
  match n with
  | O => st1
  | S m =>
      match m with
      | O => st1
      | S _ =>
          let prev := state_after st1 m in
          match page_ads n with
          | Some ads => push_page prev n ads
          | None => {| ps_items := ps_items prev;
                       ps_seenIds := ps_seenIds prev;
                       ps_currentPage := n |}
          end
      end
  end.

(** The stop conditions once [n] pages are fetched: the limit is reached,
    or [n * pageSize] is not below the reported total, or [n] is the maximum
    page count, or page [n], fetched after the first, gave no records. *)
Definition limit_reached (st1 : pstate) (n : nat) : bool :=
  (limit <=? Z.of_nat (length (ps_items (state_after st1 n))))%Z.

Definition total_exhausted (n : nat) : bool :=
  negb (more_available n pageSize totalAvailable).

Definition max_pages_reached (n : nat) : bool := (MAX_PAGES <=? n)%nat.

Definition later_page_empty (n : nat) : bool :=
  (1 <? n)%nat && match page_ads n with
                  | Some _ => false
                  | None => true
                  end.

Definition stops_at (st1 : pstate) (n : nat) : bool :=
  limit_reached st1 n || total_exhausted n || max_pages_reached n
  || later_page_empty n.

(** How the walk ends when it stops after [n] pages. *)
Definition walk_result (st1 : pstate) (n : nat) : outcome pstate :=
  match n with
  | S (S _) =>
      match listing w (page_url n) timeout with
      | Failed => Throw (FetchError (GetListing (page_url n)))
      | Body _ => Ok (state_after st1 n)
      end
  | _ => Ok (state_after st1 n)
  end.

End PaginatorSpec.

(** ** The stages of a single-region search *)

Section SingleSpec.

Variable w : world.
Variable query : jsstring.
Variable opts : options.
Variable stateList : list jsstring.

(** The walk of the paginator inside [search_single], given the first
    page. *)
Definition walk_of (fs : pageProps) (ads : list (option rawAd))
  : run pstate :=
  page_loop w query (o_sort opts) (head stateList) (o_category opts)
            (default DEFAULT_TIMEOUT (o_timeout opts))
            (default DEFAULT_LIMIT (o_limit opts))
            (or_50 (pp_pageSize fs)) (pp_totalOfAds fs) MAX_PAGES
            (first_state ads).

(** What the paginator hands to enrichment: filtered, sorted, capped. *)
Definition shaped (st : pstate) : list item :=
  shape (o_sort opts) (default DEFAULT_LIMIT (o_limit opts))
        (strict_filter (default false (o_strict opts)) query (ps_items st)).

(** The capped flag of a single-region result. *)
Definition capped_of (fs : pageProps) (st : pstate) : bool :=
  (default DEFAULT_LIMIT (o_limit opts)
   <=? Z.of_nat (length (ps_items st)))%Z
  || ((MAX_PAGES <=? ps_currentPage st)%nat
      && more_available (ps_currentPage st) (or_50 (pp_pageSize fs))
                        (pp_totalOfAds fs)).

End SingleSpec.

(** ** Requests and provenance *)

(** The detail pages requested in a trace. *)
Definition detail_requests (tr : list request) : list request :=
  List.filter (fun r => negb (is_listing_request r)) tr.

(** [item.permalink] is truthy. *)
Definition has_permalink (it : item) : bool :=
  match it_permalink it with
  | [] => false
  | _ => true
  end.

(** The item is the normalisation of a record of a listing page that the
    trace requested and the network answered. *)
Definition from_page (w : world) (timeout : Z) (tr : list request)
    (it : item) : Prop :=
  exists u fs ads ad,
    GetListing u ∈ tr
    /\ listing w u timeout = Body (Some fs)
    /\ pp_ads fs = Some ads
    /\ ad ∈ ads
    /\ parseAd ad = Some (listing_of it).

(** The item with what its detail page gives: the description, attributes
    and seller of the page behind its own link, when it has a link and the
    page could be read. *)
Definition with_detail (w : world) (timeout : Z) (it : item) : item :=
  match detailOf w (it_permalink it) timeout with
  | Some d => assign it d
  | None => it
  end.

Definition enriched (w : world) (timeout : Z) (it : item) : item :=
  if has_permalink it then with_detail w timeout it else it.

(** The options with another batch size. *)
Definition batched (concurrency : Z) (opts : options) : options :=
  {| o_limit := o_limit opts;
     o_timeout := o_timeout opts;
     o_sort := o_sort opts;
     o_concurrency := Some concurrency;
     o_state := o_state opts;
     o_category := o_category opts;
     o_strict := o_strict opts |}.

(** What [parseAd] guarantees about the listing fields of an item. *)
Definition normalised (it : item) : Prop :=
  it_title it <> []
  /\ it_id it <> Some 0%Z
  /\ it_properties it <> Some []
  /\ (forall p, it_price it = Some p -> (0 <= p)%Q)
  /\ (forall o, it_oldPrice it = Some o -> (0 <= o)%Q).

(** A discount is a percentage, and it is there only for a positive price
    below the old price. *)
Definition discount_sound (it : item) : Prop :=
  forall d, it_discountPercent it = Some d ->
    (0 <= d <= 100)%Z
    /\ exists p o, it_price it = Some p /\ it_oldPrice it = Some o
                   /\ (0 < p)%Q /\ (p < o)%Q.

(** ** Reading the output back *)

(** Reading one CSV record, after RFC 4180: fields are separated by
    commas; a field that starts with a quote runs to its closing quote, a
    doubled quote inside it standing for one quote.  [read_quoted] reads
    what follows the opening quote. *)
Fixpoint read_quoted (s : jsstring) : jsstring * jsstring :=
  match s with
  | [] => ([], [])
  | c :: r =>
      if c =? QUOTE then
        match r with
        | c' :: r' =>
            if c' =? QUOTE
            then let (f, rest) := read_quoted r' in (QUOTE :: f, rest)
            else ([], r)
        | [] => ([], [])
        end
      else let (f, rest) := read_quoted r in (c :: f, rest)
  end.

Fixpoint read_bare (s : jsstring) : jsstring * jsstring :=
  match s with
  | [] => ([], [])
  | c :: r =>
      if c =? COMMA then ([], s)
      else let (f, rest) := read_bare r in (c :: f, rest)
  end.

Definition read_field (s : jsstring) : jsstring * jsstring :=
  match s with
  | c :: r => if c =? QUOTE then read_quoted r else read_bare s
  | [] => ([], [])
  end.

(** The fields of a record; after a field comes a comma or the end. *)
Fixpoint read_fields (fuel : nat) (s : jsstring) : list jsstring :=
  let (f, rest) := read_field s in
  match rest, fuel with
  | _ :: r, S n => f :: read_fields n r
  | _, _ => [f]
  end.

Definition read_record (s : jsstring) : list jsstring :=
  read_fields (length s) s.

(** The names of a list in the order of their first occurrence, those
    already [seen] left out. *)
Fixpoint first_occurrences (seen l : list jsstring) : list jsstring :=
  match l with
  | [] => []
  | x :: r =>
      if bool_decide (x ∈ seen) then first_occurrences seen r
      else x :: first_occurrences (seen ++ [x]) r
  end.

(** The field is projected: the item has it, as its own or inherited, and
    it is not [__proto__]. *)
Definition selected {V : Type} (proto : jsstring -> option V)
    (item : @object V) (f : jsstring) : bool :=
  match read proto f item with
  | Some _ => negb (bool_decide (f = PROTO))
  | None => false
  end.

(** What [esc] writes for one code unit. *)
Definition esc_char (c : N) : jsstring :=
  if c =? 38 then js "&amp;"
  else if c =? 60 then js "&lt;"
  else if c =? 62 then js "&gt;"
  else if c =? 34 then js "&quot;"
  else [c].

(** No tag starts anywhere in the text. *)
Definition tagless (s : jsstring) : Prop :=
  forall pre post, s = pre ++ post -> match_tag post = None.

(** * Properties *)

(** ** Strings *)

Lemma starts_with_spec (t s : jsstring) :
  starts_with t s = true <-> exists post, s = t ++ post.
Proof.
  revert s. induction t as [|a t IH]; intros s; simpl.
  - split; [intros _; by exists s | done].
  - destruct s as [|b s].
    + split; [done | intros [post H]; discriminate].
    + rewrite andb_true_iff, N.eqb_eq, IH. split.
      * intros [-> [post ->]]. by exists post.
      * intros [post H]. injection H as -> ->. split; [done | by exists post].
Qed.

Lemma includes_spec (s t : jsstring) :
  includes s t = true <-> substring t s.
Proof.
  unfold substring. induction s as [|b s IH]; simpl.
  - rewrite orb_false_r, starts_with_spec. split.
    + intros [post H]. by exists [], post.
    + intros [pre [post H]]. symmetry in H.
      apply app_eq_nil in H as [-> H]. apply app_eq_nil in H as [-> ->].
      by exists [].
  - rewrite orb_true_iff, starts_with_spec, IH. split.
    + intros [[post H] | [pre [post H]]].
      * by exists [], post.
      * exists (b :: pre), post. by rewrite H.
    + intros [[|c pre] [post H]].
      * left. by exists post.
      * right. injection H as -> H. by exists pre, post.
Qed.

Lemma starts_with_app_sep (sep : N) (t a b : jsstring) :
  sep ∉ t -> starts_with t (a ++ sep :: b) = starts_with t a.
Proof.
  revert a. induction t as [|c t IH]; intros a Hsep; [done|].
  apply not_elem_of_cons in Hsep as [Hne Hsep].
  destruct a as [|x a]; simpl.
  - destruct (N.eqb_spec c sep) as [->|_]; [done | done].
  - by rewrite IH.
Qed.

(** A block without the separator lies on one side of it. *)
Lemma includes_app_sep (sep : N) (t a b : jsstring) :
  sep ∉ t -> includes (a ++ sep :: b) t = includes a t || includes b t.
Proof.
  intros Hsep. induction a as [|x a IH].
  - simpl. destruct t as [|c t]; [done|].
    apply not_elem_of_cons in Hsep as [Hne _].
    simpl. by destruct (N.eqb_spec c sep) as [->|_].
  - change (includes ((x :: a) ++ sep :: b) t)
      with (starts_with t ((x :: a) ++ sep :: b) || includes (a ++ sep :: b) t).
    rewrite starts_with_app_sep, IH by done. simpl.
    by rewrite orb_assoc.
Qed.

Lemma includes_joined (sep : N) (t c0 : jsstring) (xs : list jsstring) :
  sep ∉ t ->
  includes (fold_left (fun c x => c ++ sep :: x) xs c0) t
  = includes c0 t || existsb (fun x => includes x t) xs.
Proof.
  intros Hsep. revert c0. induction xs as [|x xs IH]; intros c0; simpl.
  - by rewrite orb_false_r.
  - by rewrite IH, includes_app_sep, orb_assoc.
Qed.

Lemma drop_space_Forall (P : N -> Prop) (s : jsstring) :
  Forall P s -> Forall P (drop_space s).
Proof.
  induction 1 as [|c s Hc Hs IH]; simpl; [done|].
  destruct (is_space c); [done | by constructor].
Qed.

Lemma trim_Forall (P : N -> Prop) (s : jsstring) :
  Forall P s -> Forall P (trim s).
Proof.
  intros H. unfold trim.
  apply Forall_rev, drop_space_Forall, Forall_rev, drop_space_Forall, H.
Qed.

Lemma collapse_from_Forall (b : bool) (s : jsstring) :
  Forall (fun c => is_word c = true \/ is_space c = true) s ->
  Forall word_or_space (collapse_from b s).
Proof.
  intros H. revert b. induction H as [|c s Hc Hs IH]; intros b; simpl; [done|].
  destruct (is_space c) eqn:Hsp.
  - destruct b; [done|]. constructor; [by right | done].
  - constructor; [|done]. left. destruct Hc as [Hc|Hc]; [done | congruence].
Qed.

Lemma blank_non_word_Forall (s : jsstring) :
  Forall (fun c => is_word c = true \/ is_space c = true) (blank_non_word s).
Proof.
  unfold blank_non_word. apply Forall_map, Forall_true. intros c. simpl.
  destruct (is_word c) eqn:Hw; [by left|].
  destruct (is_space c) eqn:Hs; [by right|]. by right.
Qed.

Lemma split_on_pieces (sep : N) (P : N -> Prop) (s : jsstring) :
  Forall P s ->
  Forall (fun piece => Forall (fun c => P c /\ c <> sep) piece)
         (split_on sep s).
Proof.
  induction 1 as [|c s Hc Hs IH]; simpl.
  - by repeat constructor.
  - destruct (N.eqb_spec c sep) as [->|Hne].
    + by constructor.
    + destruct (split_on sep s) as [|p ps].
      * by repeat constructor.
      * inversion IH; subst. constructor; [|done]. by constructor.
Qed.


(** ** Strict matching *)

Lemma normalize_alphabet (str : jsstring) :
  Forall word_or_space (normalize str).
Proof.
  unfold normalize, collapse_space.
  apply trim_Forall, collapse_from_Forall, blank_non_word_Forall.
Qed.

Lemma has_true (keys : list jsstring) (x : jsstring) :
  has keys x = true <-> x ∈ keys.
Proof. unfold has. apply bool_decide_eq_true. Qed.

Lemma has_false (keys : list jsstring) (x : jsstring) :
  has keys x = false <-> x ∉ keys.
Proof. unfold has. apply bool_decide_eq_false. Qed.

Lemma keep_token_spec (t : jsstring) :
  keep_token t = true <-> (1 < length t)%nat /\ t ∉ STOP_WORDS.
Proof.
  unfold keep_token.
  rewrite andb_true_iff, negb_true_iff, Nat.ltb_lt, has_false. done.
Qed.

Lemma getQueryTokens_spec (query t : jsstring) :
  t ∈ getQueryTokens query <->
  t ∈ split_on SPACE (normalize query)
  /\ (1 < length t)%nat /\ t ∉ STOP_WORDS.
Proof.
  unfold getQueryTokens.
  rewrite <- keep_token_spec, !list_elem_of_In. apply filter_In.
Qed.

Lemma token_is_word (query t : jsstring) :
  t ∈ getQueryTokens query -> Forall (fun c => is_word c = true) t.
Proof.
  intros Ht. apply getQueryTokens_spec in Ht as [Ht _].
  pose proof (split_on_pieces SPACE _ _ (normalize_alphabet query)) as H.
  rewrite Forall_forall in H. specialize (H t Ht).
  eapply Forall_impl; [exact H|]. intros c [[Hc|Hc] Hne]; done.
Qed.

Lemma token_no_space (query t : jsstring) :
  t ∈ getQueryTokens query -> SPACE ∉ t.
Proof.
  intros Ht Hin. apply token_is_word in Ht.
  rewrite Forall_forall in Ht. by specialize (Ht SPACE Hin).
Qed.

Lemma includes_fold_parts {A : Type} (f : A -> jsstring) (t c0 : jsstring)
    (xs : list A) :
  SPACE ∉ t ->
  includes (fold_left (fun c x => c ++ SPACE :: f x) xs c0) t
  = includes c0 t || existsb (fun x => includes x t) (map f xs).
Proof.
  intros Hsep. revert c0. induction xs as [|x xs IH]; intros c0; simpl.
  - by rewrite orb_false_r.
  - by rewrite IH, includes_app_sep, orb_assoc.
Qed.

Lemma corpus_includes (it : item) (t : jsstring) :
  SPACE ∉ t ->
  includes (corpus it) t = existsb (fun x => includes x t) (corpus_parts it).
Proof.
  intros Hsep. unfold corpus, corpus_parts. simpl.
  destruct (truthy (it_description it)), (it_properties it) as [props|];
    simpl; rewrite ?includes_fold_parts, ?includes_app_sep by done;
    simpl; by rewrite ?orb_false_r, ?orb_assoc.
Qed.

Lemma matchesTokens_spec (it : item) (tokens : list jsstring) :
  matchesTokens it tokens = true <->
  forall t, t ∈ tokens -> substring t (corpus it).
Proof.
  unfold matchesTokens. destruct tokens as [|t0 tokens].
  - split; [intros _ t Ht; by apply elem_of_nil in Ht | done].
  - rewrite forallb_forall. split.
    + intros H t Ht. apply includes_spec, H. by apply list_elem_of_In.
    + intros H t Ht. apply includes_spec, H. by apply list_elem_of_In.
Qed.

(** A match puts every token inside one piece of the corpus. *)
Lemma matchesTokens_parts (it : item) (query : jsstring) :
  matchesTokens it (getQueryTokens query) = true <->
  forall t, t ∈ getQueryTokens query ->
            exists part, part ∈ corpus_parts it /\ substring t part.
Proof.
  rewrite matchesTokens_spec.
  split; intros H t Ht; specialize (H t Ht).
  - apply includes_spec in H.
    rewrite corpus_includes in H by (by eapply token_no_space).
    apply existsb_exists in H as [part [Hin Hp]].
    exists part. split; [by apply list_elem_of_In | by apply includes_spec].
  - destruct H as [part [Hin Hp]]. apply includes_spec.
    rewrite corpus_includes by (by eapply token_no_space).
    apply existsb_exists. exists part.
    split; [by apply list_elem_of_In | by apply includes_spec].
Qed.


(** ** Prices and discounts *)

Lemma Qltb_spec (a b : Q) : Qltb a b = true <-> (a < b)%Q.
Proof.
  unfold Qltb. rewrite Qlt_alt. destruct (a ?= b)%Q; split; congruence.
Qed.

Lemma truthy_num_spec (q : option Q) :
  truthy_num q = true <-> exists x, q = Some x /\ ~ (x == 0)%Q.
Proof.
  destruct q as [x|]; simpl.
  - rewrite negb_true_iff, <- not_true_iff_false, Qeq_bool_iff. split.
    + intros H. by exists x.
    + intros [y [[= ->] H]]. done.
  - split; [done | intros [x [H _]]; done].
Qed.

(** [Math_round x] is the integer nearest to [x], a half going up. *)
Lemma Math_round_nearest (x : Q) :
  (inject_Z (Math_round x) <= x + (1 # 2)
   /\ x + (1 # 2) < inject_Z (Math_round x) + 1)%Q.
Proof.
  unfold Math_round. split; [apply Qfloor_le|].
  pose proof (Qlt_floor (x + (1 # 2))) as H.
  by rewrite inject_Z_plus in H.
Qed.

Lemma digits_value_from_nonneg (ds : jsstring) (acc : Z) :
  (0 <= acc)%Z ->
  (0 <= fold_left (fun acc c => acc * 10 + Z.of_N (c - 48)) ds acc)%Z.
Proof.
  revert acc. induction ds as [|c ds IH]; intros acc Hacc; simpl; [done|].
  apply IH. lia.
Qed.

Lemma digits_value_nonneg (ds : jsstring) : (0 <= digits_value ds)%Z.
Proof. by apply digits_value_from_nonneg. Qed.

Lemma parseFloat_nonneg (s : jsstring) (q : Q) :
  parseFloat s = Some q -> (0 <= q)%Q.
Proof.
  unfold parseFloat. destruct (take_digits s) as [ip rest].
  set (fp := match rest with
             | c :: r => if c =? DOT then (take_digits r).1 else []
             | [] => []
             end).
  intros H.
  assert (Hq : q = Qred (Qmake (digits_value ip * 10 ^ Z.of_nat (length fp)
                                + digits_value fp)
                               (Z.to_pos (10 ^ Z.of_nat (length fp))))).
  { destruct ip, fp; simplify_eq; done. }
  rewrite Hq, Qred_correct. unfold Qle. simpl.
  pose proof (digits_value_nonneg ip). pose proof (digits_value_nonneg fp).
  assert (0 < 10 ^ Z.of_nat (length fp))%Z by (apply Z.pow_pos_nonneg; lia).
  nia.
Qed.

Lemma parsePrice_nonneg (v : option jsstring) (q : Q) :
  parsePrice v = Some q -> (0 <= q)%Q.
Proof.
  unfold parsePrice. destruct (truthy v); [apply parseFloat_nonneg | done].
Qed.

Lemma truthy_num_Some (x : Q) :
  truthy_num (Some x) = true <-> ~ (x == 0)%Q.
Proof.
  rewrite truthy_num_spec. split.
  - by intros [y [[= ->] H]].
  - intros H. by exists x.
Qed.

Lemma discount_some (p o : Q) :
  ~ (p == 0)%Q -> ~ (o == 0)%Q -> (p < o)%Q ->
  discount (Some p) (Some o) = Some (Math_round (((o - p) / o) * 100)).
Proof.
  intros Hp Ho Hlt. unfold discount.
  apply truthy_num_Some in Hp. apply truthy_num_Some in Ho.
  apply Qltb_spec in Hlt. by rewrite Hp, Ho, Hlt.
Qed.

Lemma discount_none_absent (price oldPrice : option Q) :
  price = None \/ oldPrice = None -> discount price oldPrice = None.
Proof.
  intros [-> | ->]; unfold discount; [by destruct oldPrice | done].
Qed.

Lemma discount_none_ge (p o : Q) :
  (o <= p)%Q -> discount (Some p) (Some o) = None.
Proof.
  intros Hle. unfold discount.
  destruct (Qltb p o) eqn:Hlt; [|by rewrite andb_false_r].
  apply Qltb_spec in Hlt. by apply Qle_not_lt in Hle.
Qed.

Lemma discount_none_zero (p o : Q) :
  (p == 0)%Q -> discount (Some p) (Some o) = None.
Proof.
  intros Hp. unfold discount.
  destruct (truthy_num (Some p)) eqn:H; [|by rewrite andb_false_r].
  by apply truthy_num_Some in H.
Qed.

Lemma parseAd_fields (ad : rawAd) (it : item) :
  parseAd (Some ad) = Some it ->
  it_id it = parse_id (ad_listId ad)
  /\ it_title it = or_empty (or_else (ad_subject ad) (ad_title ad))
  /\ it_price it = parsePrice (or_else (ad_priceValue ad) (ad_price ad))
  /\ it_oldPrice it = parsePrice (ad_oldPrice ad)
  /\ it_discountPercent it = discount (it_price it) (it_oldPrice it)
  /\ it_description it = None.
Proof.
  unfold parseAd.
  destruct (or_empty (or_else (ad_subject ad) (ad_title ad))); [done|].
  by intros [= <-].
Qed.



(** ** Sorting *)

Section Sorting.

Variable cmp : item -> item -> comparison.

Lemma insert_by_perm (x : item) (l : list item) :
  Permutation (insert_by cmp x l) (x :: l).
Proof.
  induction l as [|y l IH]; simpl; [done|].
  destruct (cmp x y); try done.
  rewrite IH. apply perm_swap.
Qed.

Lemma js_sort_perm (l : list item) : Permutation (js_sort cmp l) l.
Proof.
  induction l as [|x l IH]; simpl; [done|].
  rewrite insert_by_perm. by constructor.
Qed.

Lemma js_sort_In (x : item) (l : list item) :
  In x (js_sort cmp l) <-> In x l.
Proof.
  split; apply Permutation_in; [|symmetry]; apply js_sort_perm.
Qed.

(** Inserting before a block that [x] does not exceed. *)
Lemma insert_by_app_l (x : item) (h l : list item) :
  (forall y, In y l -> cmp x y <> Gt) ->
  insert_by cmp x (h ++ l) = insert_by cmp x h ++ l.
Proof.
  intros Hl. induction h as [|y h IH]; simpl.
  - destruct l as [|y l]; [done|]. simpl.
    specialize (Hl y (or_introl eq_refl)). by destruct (cmp x y).
  - destruct (cmp x y); try done. by rewrite IH.
Qed.

(** Inserting past a block that [x] exceeds. *)
Lemma insert_by_app_r (x : item) (h l : list item) :
  (forall y, In y h -> cmp x y = Gt) ->
  insert_by cmp x (h ++ l) = h ++ insert_by cmp x l.
Proof.
  intros Hh. induction h as [|y h IH]; simpl; [done|].
  rewrite (Hh y (or_introl eq_refl)). rewrite IH; [done|].
  intros z Hz. apply Hh. by right.
Qed.

(** Items that all tie keep their order: the sort is stable. *)
Lemma js_sort_ties (l : list item) :
  (forall x y, In x l -> In y l -> cmp x y <> Gt) -> js_sort cmp l = l.
Proof.
  induction l as [|x l IH]; intros H; simpl; [done|].
  rewrite IH by (intros a b Ha Hb; apply H; by right).
  destruct l as [|y l]; [done|]. simpl.
  assert (Hxy : cmp x y <> Gt) by (apply H; [by left | right; by left]).
  by destruct (cmp x y).
Qed.

(** When every item of the class [hi] is below every other item, the sort
    puts the class first. *)
Lemma js_sort_partition (hi : item -> bool) (l : list item) :
  (forall x y, hi x = true -> hi y = false ->
               cmp x y = Lt /\ cmp y x = Gt) ->
  js_sort cmp l
  = js_sort cmp (List.filter hi l)
    ++ js_sort cmp (List.filter (fun x => negb (hi x)) l).
Proof.
  intros Hsep. induction l as [|x l IH]; simpl; [done|].
  rewrite IH. destruct (hi x) eqn:Hx; simpl.
  - apply insert_by_app_l. intros y Hy.
    apply js_sort_In, filter_In in Hy as [_ Hy].
    apply negb_true_iff in Hy. destruct (Hsep x y Hx Hy) as [-> _]. done.
  - apply insert_by_app_r. intros y Hy.
    apply js_sort_In, filter_In in Hy as [_ Hy].
    by destruct (Hsep y x Hy Hx) as [_ ->].
Qed.

Hypothesis cmp_total : forall a b, cmp a b = Gt -> cmp_le cmp b a.
Hypothesis cmp_trans : forall a b c, cmp_le cmp a b -> cmp_le cmp b c -> cmp_le cmp a c.

Lemma insert_by_sorted (x : item) (l : list item) :
  StronglySorted (cmp_le cmp) l -> StronglySorted (cmp_le cmp) (insert_by cmp x l).
Proof.
  induction 1 as [|y l Hl IH Hy]; simpl.
  - by repeat constructor.
  - destruct (cmp x y) eqn:Hxy.
    + constructor; [by constructor|]. constructor.
      * unfold cmp_le. by rewrite Hxy.
      * eapply Forall_impl; [exact Hy|]. intros z Hz.
        eapply cmp_trans; [|exact Hz]. unfold cmp_le. by rewrite Hxy.
    + constructor; [by constructor|]. constructor.
      * unfold cmp_le. by rewrite Hxy.
      * eapply Forall_impl; [exact Hy|]. intros z Hz.
        eapply cmp_trans; [|exact Hz]. unfold cmp_le. by rewrite Hxy.
    + constructor; [done|].
      rewrite Forall_forall. intros z Hz.
      apply list_elem_of_In, (Permutation_in _ (insert_by_perm x l)) in Hz.
      destruct Hz as [<- | Hz]; [by apply cmp_total|].
      rewrite Forall_forall in Hy. by apply Hy, list_elem_of_In.
Qed.

Lemma js_sort_sorted (l : list item) : StronglySorted (cmp_le cmp) (js_sort cmp l).
Proof.
  induction l as [|x l IH]; simpl; [constructor | by apply insert_by_sorted].
Qed.

End Sorting.

Lemma StronglySorted_weaken (R1 R2 : item -> item -> Prop) (l : list item) :
  (forall a b, R1 a b -> R2 a b) ->
  StronglySorted R1 l -> StronglySorted R2 l.
Proof.
  intros HR. induction 1 as [|x l Hl IH Hx]; constructor; [done|].
  eapply Forall_impl; [exact Hx|]. intros y. apply HR.
Qed.

Lemma by_price_asc_le (a b : item) :
  cmp_le by_price_asc a b <-> asc_le a b.
Proof.
  unfold cmp_le, by_price_asc, asc_le.
  destruct (it_price a), (it_price b); split; done.
Qed.

Lemma by_price_desc_le (a b : item) :
  cmp_le by_price_desc a b <-> desc_le a b.
Proof. unfold cmp_le, by_price_desc, desc_le. symmetry. apply Qle_alt. Qed.

Lemma by_price_asc_total (a b : item) :
  by_price_asc a b = Gt -> cmp_le by_price_asc b a.
Proof.
  intros H. apply by_price_asc_le. unfold by_price_asc in H.
  unfold asc_le. destruct (it_price a), (it_price b); try done.
  apply Qgt_alt in H. by apply Qlt_le_weak.
Qed.

Lemma by_price_asc_trans (a b c : item) :
  cmp_le by_price_asc a b -> cmp_le by_price_asc b c ->
  cmp_le by_price_asc a c.
Proof.
  rewrite !by_price_asc_le. unfold asc_le.
  destruct (it_price a), (it_price b), (it_price c); try done.
  apply Qle_trans.
Qed.

Lemma by_price_desc_total (a b : item) :
  by_price_desc a b = Gt -> cmp_le by_price_desc b a.
Proof.
  intros H. apply by_price_desc_le. unfold by_price_desc in H.
  apply Qgt_alt in H. by apply Qlt_le_weak.
Qed.

Lemma by_price_desc_trans (a b c : item) :
  cmp_le by_price_desc a b -> cmp_le by_price_desc b c ->
  cmp_le by_price_desc a c.
Proof.
  rewrite !by_price_desc_le. unfold desc_le.
  intros H1 H2. eapply Qle_trans; eassumption.
Qed.

Lemma js_sort_asc_sorted (l : list item) :
  StronglySorted asc_le (js_sort by_price_asc l).
Proof.
  eapply StronglySorted_weaken; [intros a b; apply by_price_asc_le|].
  exact (js_sort_sorted by_price_asc by_price_asc_total by_price_asc_trans l).
Qed.

Lemma js_sort_desc_sorted (l : list item) :
  StronglySorted desc_le (js_sort by_price_desc l).
Proof.
  eapply StronglySorted_weaken; [intros a b; apply by_price_desc_le|].
  exact (js_sort_sorted by_price_desc by_price_desc_total
                        by_price_desc_trans l).
Qed.

(** Ascending: the priced items, sorted, then the priceless ones in their
    upstream order. *)
Lemma js_sort_asc_priceless_last (l : list item) :
  js_sort by_price_asc l
  = js_sort by_price_asc (List.filter priced l)
    ++ List.filter (fun x => negb (priced x)) l.
Proof.
  rewrite (js_sort_partition by_price_asc priced l).
  - f_equal. apply js_sort_ties. intros x y Hx Hy.
    apply filter_In in Hx as [_ Hx]. apply filter_In in Hy as [_ Hy].
    unfold priced, by_price_asc in *.
    by destruct (it_price x), (it_price y).
  - intros x y Hx Hy. unfold priced, by_price_asc in *.
    by destruct (it_price x), (it_price y).
Qed.

Lemma positive_price_false (y : item) :
  positive_price y = false -> (default 0%Q (it_price y) <= 0)%Q.
Proof.
  unfold positive_price. destruct (it_price y) as [p|]; simpl; [|done].
  intros H. apply Qnot_lt_le. intros Hlt.
  apply Qltb_spec in Hlt. congruence.
Qed.

Lemma positive_price_true (x : item) :
  positive_price x = true -> (0 < default 0%Q (it_price x))%Q.
Proof.
  unfold positive_price. destruct (it_price x) as [p|]; simpl; [|done].
  apply Qltb_spec.
Qed.

(** Descending: the items with a positive price, sorted, then all the
    others (priceless, or priced at zero or below), sorted among
    themselves. *)
Lemma js_sort_desc_positive_first (l : list item) :
  js_sort by_price_desc l
  = js_sort by_price_desc (List.filter positive_price l)
    ++ js_sort by_price_desc
         (List.filter (fun x => negb (positive_price x)) l).
Proof.
  apply js_sort_partition. intros x y Hx Hy.
  apply positive_price_true in Hx. apply positive_price_false in Hy.
  unfold by_price_desc. split; [apply Qlt_alt | apply Qgt_alt];
    eapply Qle_lt_trans; eassumption.
Qed.

(** Descending, no negative price: the priceless items and the items
    priced at zero tie, and follow the others in their upstream order. *)
Lemma js_sort_desc_zero_ties (l : list item) :
  Forall nonneg_price l ->
  js_sort by_price_desc l
  = js_sort by_price_desc (List.filter positive_price l)
    ++ List.filter (fun x => negb (positive_price x)) l.
Proof.
  intros Hnn. rewrite js_sort_desc_positive_first. f_equal.
  apply js_sort_ties. intros x y Hx Hy.
  apply filter_In in Hx as [Hx Hx']. apply filter_In in Hy as [Hy Hy'].
  apply negb_true_iff, positive_price_false in Hx'.
  apply negb_true_iff, positive_price_false in Hy'.
  rewrite Forall_forall in Hnn.
  pose proof (Hnn x (proj2 (list_elem_of_In _ _) Hx)) as Hx0.
  pose proof (Hnn y (proj2 (list_elem_of_In _ _) Hy)) as Hy0.
  unfold by_price_desc. apply Qle_alt.
  unfold nonneg_price in *.
  destruct (it_price x), (it_price y); simpl in *;
    try done; eapply Qle_trans; eassumption.
Qed.


(** ** Capping *)

Lemma js_slice_0_nonneg {A : Type} (limit : Z) (l : list A) :
  (0 <= limit)%Z -> js_slice 0 limit l = firstn (Z.to_nat limit) l.
Proof.
  intros H. unfold js_slice.
  change (0 <? 0)%Z with false. cbv iota.
  destruct (Z.ltb_spec limit 0); [lia|].
  rewrite (Z.min_l 0) by lia. rewrite Z.sub_0_r.
  change (Z.to_nat 0) with 0%nat. rewrite skipn_O.
  destruct (Z.min_spec limit (Z.of_nat (length l))) as [[_ ->] | [Hle ->]].
  - done.
  - rewrite Nat2Z.id, firstn_all. symmetry. apply firstn_all2. lia.
Qed.

Lemma js_slice_0_neg {A : Type} (limit : Z) (l : list A) :
  (limit < 0)%Z ->
  js_slice 0 limit l = firstn (length l - Z.to_nat (- limit)) l.
Proof.
  intros H. unfold js_slice.
  change (0 <? 0)%Z with false. cbv iota.
  destruct (Z.ltb_spec limit 0); [|lia].
  rewrite (Z.min_l 0) by lia. rewrite Z.sub_0_r.
  change (Z.to_nat 0) with 0%nat. rewrite skipn_O. f_equal. lia.
Qed.

Lemma js_slice_0_prefix {A : Type} (limit : Z) (l : list A) :
  exists k, js_slice 0 limit l = firstn k l.
Proof.
  destruct (Z_lt_le_dec limit 0).
  - eexists. by apply js_slice_0_neg.
  - eexists. by apply js_slice_0_nonneg.
Qed.

Lemma js_slice_0_length {A : Type} (limit : Z) (l : list A) :
  (0 <= limit)%Z -> (Z.of_nat (length (js_slice 0 limit l)) <= limit)%Z.
Proof.
  intros H. rewrite js_slice_0_nonneg by done.
  rewrite length_firstn. lia.
Qed.

Lemma sort_items_perm (sort : option jsstring) (its : list item) :
  Permutation (sort_items sort its) its.
Proof.
  unfold sort_items.
  destruct (is_sort sort PRICE_ASC); [apply js_sort_perm|].
  destruct (is_sort sort PRICE_DESC); [apply js_sort_perm | done].
Qed.

Lemma sort_items_asc (its : list item) :
  sort_items (Some PRICE_ASC) its = js_sort by_price_asc its.
Proof. done. Qed.

Lemma sort_items_desc (its : list item) :
  sort_items (Some PRICE_DESC) its = js_sort by_price_desc its.
Proof. done. Qed.

Lemma sort_items_other (sort : option jsstring) (its : list item) :
  sort <> Some PRICE_ASC -> sort <> Some PRICE_DESC ->
  sort_items sort its = its.
Proof.
  intros Ha Hd. unfold sort_items, is_sort.
  by rewrite !bool_decide_eq_false_2.
Qed.



(** ** Deduplication *)

Lemma ids_app (l1 l2 : list item) : ids (l1 ++ l2) = ids l1 ++ ids l2.
Proof. apply omap_app. Qed.

Lemma push_unseen_inv (acc : gset Z * list item) (it : item) :
  (forall i, i ∈ acc.1 <-> i ∈ ids acc.2) ->
  NoDup (ids acc.2) ->
  (forall i, i ∈ (push_unseen acc it).1 <-> i ∈ ids (push_unseen acc it).2)
  /\ NoDup (ids (push_unseen acc it).2).
Proof.
  destruct acc as [seen l]. simpl. intros Hseen Hnd.
  unfold push_unseen. simpl.
  destruct (truthy_id it) as [i|] eqn:Hid.
  - case_bool_decide as Hin; simpl; [done|].
    rewrite ids_app. unfold ids at 2 4. simpl. rewrite Hid. simpl. split.
    + intros j. rewrite elem_of_union, elem_of_singleton, elem_of_app,
        list_elem_of_singleton, Hseen. tauto.
    + apply NoDup_app. split; [done|]. split; [|apply NoDup_singleton].
      intros j Hj Hj'. apply list_elem_of_singleton in Hj' as ->.
      by apply Hin, Hseen.
  - simpl. rewrite ids_app. unfold ids at 2 4. simpl. rewrite Hid. simpl.
    by rewrite app_nil_r.
Qed.

Lemma fold_push_unseen_inv (l : list item) (acc : gset Z * list item) :
  (forall i, i ∈ acc.1 <-> i ∈ ids acc.2) ->
  NoDup (ids acc.2) ->
  (forall i, i ∈ (fold_left push_unseen l acc).1
             <-> i ∈ ids (fold_left push_unseen l acc).2)
  /\ NoDup (ids (fold_left push_unseen l acc).2).
Proof.
  revert acc. induction l as [|it l IH]; intros acc Hseen Hnd; simpl.
  - done.
  - destruct (push_unseen_inv acc it Hseen Hnd) as [H1 H2]. by apply IH.
Qed.

(** With no id repeated and none seen before, the loop pushes everything. *)
Lemma fold_push_unseen_fresh (l : list item) (acc : gset Z * list item) :
  NoDup (ids l) ->
  (forall i, i ∈ ids l -> i ∉ acc.1) ->
  (fold_left push_unseen l acc).2 = acc.2 ++ l.
Proof.
  revert acc. induction l as [|it l IH]; intros [seen acc] Hnd Hfresh; simpl.
  - by rewrite app_nil_r.
  - unfold ids in Hnd, Hfresh. simpl in Hnd, Hfresh.
    unfold push_unseen at 2. simpl.
    destruct (truthy_id it) as [i|] eqn:Hid; simpl in *.
    + apply NoDup_cons in Hnd as [Hi Hnd].
      rewrite bool_decide_eq_false_2
        by (apply Hfresh; by left).
      rewrite IH; simpl; [by rewrite <- app_assoc | done |].
      intros j Hj. rewrite elem_of_union, elem_of_singleton.
      intros [-> | Hs]; [done|]. revert Hs. apply Hfresh. by right.
    + rewrite IH; simpl; [by rewrite <- app_assoc | done | done].
Qed.

Lemma dedup_ids_nodup (l : list item) : NoDup (ids (dedup_ids l)).
Proof.
  unfold dedup_ids. apply fold_push_unseen_inv; simpl.
  - intros i. unfold ids. simpl. set_solver.
  - constructor.
Qed.

Lemma dedup_ids_fresh (l : list item) :
  NoDup (ids l) -> dedup_ids l = l.
Proof.
  intros H. unfold dedup_ids. rewrite fold_push_unseen_fresh; [done | done |].
  intros i _. set_solver.
Qed.


(** ** Round-robin merge *)

Lemma merge_rank_fold (i : nat) (regions : list (list item))
    (acc : gset Z * list item) :
  merge_rank i acc regions = fold_left push_unseen (rank i regions) acc.
Proof.
  unfold merge_rank, rank. revert acc.
  induction regions as [|arr regions IH]; intros acc; simpl; [done|].
  rewrite IH. by destruct (arr !! i).
Qed.

Lemma merge_ranks_fold (regions : list (list item)) (ranks : list nat)
    (acc : gset Z * list item) :
  fold_left (fun acc i => merge_rank i acc regions) ranks acc
  = fold_left push_unseen (flat_map (fun i => rank i regions) ranks) acc.
Proof.
  revert acc. induction ranks as [|i ranks IH]; intros acc; simpl; [done|].
  by rewrite fold_left_app, IH, merge_rank_fold.
Qed.

Lemma rank_0 (regions : list (list item)) :
  rank 0 regions = omap head regions.
Proof.
  unfold rank. induction regions as [|arr regions IH]; [done|].
  destruct arr; simpl; [exact IH | f_equal; exact IH].
Qed.

Lemma rank_S (i : nat) (regions : list (list item)) :
  rank (S i) regions = rank i (map tail regions).
Proof.
  unfold rank. induction regions as [|arr regions IH]; [done|].
  destruct arr as [|x arr]; simpl; [exact IH|].
  destruct (arr !! i); simpl; [f_equal|]; exact IH.
Qed.

Lemma ranks_round_robin (n : nat) (regions : list (list item)) :
  flat_map (fun i => rank i regions) (seq 0 n)
  = round_robin_rounds n regions.
Proof.
  revert regions. induction n as [|n IH]; intros regions; [done|].
  cbn [seq flat_map round_robin_rounds]. rewrite rank_0. f_equal.
  rewrite <- IH, <- seq_shift, flat_map_concat_map, map_map,
    <- flat_map_concat_map.
  apply flat_map_ext. intros i. apply rank_S.
Qed.

(** The loops of the merge are one dedup pass over the round-robin
    order. *)
Lemma merge_regions_round_robin (regions : list (list item)) :
  merge_regions regions = dedup_ids (round_robin regions).
Proof.
  unfold merge_regions, dedup_ids, round_robin.
  by rewrite merge_ranks_fold, ranks_round_robin.
Qed.

Lemma search_multi_items
    (self : jsstring -> options -> run searchResult)
    (query : jsstring) (opts : options) (stateList : list jsstring)
    (r : searchResult) :
  result (search_multi self query opts stateList) = Ok r ->
  let regions :=
    map r_items (fulfilled (regional_searches self query opts stateList)) in
  let merged := merge_regions regions in
  r_items r
  = shape (o_sort opts) (default DEFAULT_LIMIT (o_limit opts))
          (if default false (o_strict opts)
           then List.filter (fun it => matchesQuery it query) merged
           else merged)
  /\ pg_limit (r_pagination r) = default DEFAULT_LIMIT (o_limit opts)
  /\ pg_capped (r_pagination r)
     = (default DEFAULT_LIMIT (o_limit opts)
        <=? Z.of_nat (length (r_items r)))%Z.
Proof.
  unfold search_multi.
  destruct (never_settles _); simpl; [done|].
  by intros [= <-].
Qed.

(** ** The paginator *)

Section PaginatorFacts.

Variable w : world.
Variable query : jsstring.
Variable sort : option jsstring.
Variable singleState : option jsstring.
Variable category : option jsstring.
Variable timeout : Z.
Variable limit : Z.
Variable pageSize : Z.
Variable totalAvailable : option Z.

Local Abbreviation loop :=
  (page_loop w query sort singleState category timeout limit pageSize
             totalAvailable).
Local Abbreviation going := (keep_going limit pageSize totalAvailable).
Local Abbreviation url_of := (page_url query sort singleState category).
Local Abbreviation ads_of :=
  (page_ads w query sort singleState category timeout).
Local Abbreviation after :=
  (state_after w query sort singleState category timeout).
Local Abbreviation at_limit :=
  (limit_reached w query sort singleState category timeout limit).
Local Abbreviation exhausted := (total_exhausted pageSize totalAvailable).
Local Abbreviation empty_at :=
  (later_page_empty w query sort singleState category timeout).
Local Abbreviation stops :=
  (stops_at w query sort singleState category timeout limit pageSize
            totalAvailable).
Local Abbreviation ends :=
  (walk_result w query sort singleState category timeout).

Lemma push_page_currentPage (st : pstate) (n : nat)
    (ads : list (option rawAd)) :
  ps_currentPage (push_page st n ads) = n.
Proof. done. Qed.

Lemma state_after_currentPage (st1 : pstate) (n : nat) :
  ps_currentPage st1 = 1%nat -> (1 <= n)%nat ->
  ps_currentPage (after st1 n) = n.
Proof.
  intros H1 Hn. destruct n as [|[|n]]; [lia | done |].
  simpl. by destruct (ads_of (S (S n))).
Qed.

Lemma keep_going_stops (st1 : pstate) (n : nat) :
  ps_currentPage st1 = 1%nat -> (1 <= n)%nat ->
  going (after st1 n)
  = negb (at_limit st1 n || exhausted n || max_pages_reached n).
Proof.
  intros H1 Hn. unfold keep_going, limit_reached, total_exhausted,
    max_pages_reached.
  rewrite state_after_currentPage by done.
  rewrite !negb_orb, negb_involutive. f_equal; [f_equal|].
  - rewrite Z.ltb_antisym. done.
  - rewrite Nat.ltb_antisym. done.
Qed.

(** The loop, started after [n] pages with enough fuel, stops at the least
    page count at or beyond [n] at which a stop condition holds. *)
Lemma page_loop_from (st1 : pstate) (fuel n : nat) :
  ps_currentPage st1 = 1%nat -> (1 <= n)%nat ->
  empty_at n = false ->
  (MAX_PAGES <= fuel + n)%nat ->
  exists k,
    (n <= k <= Nat.max n MAX_PAGES)%nat
    /\ trace (loop fuel (after st1 n))
       = map (fun m => GetListing (url_of m)) (seq (S n) (k - n))
    /\ stops st1 k = true
    /\ (forall m, (n <= m < k)%nat -> stops st1 m = false)
    /\ result (loop fuel (after st1 n)) = ends st1 k.
Proof.
  revert n. induction fuel as [|fuel IH]; intros n H1 Hn Hne Hfuel.
  - exists n. assert (Hstop : going (after st1 n) = false).
    { rewrite keep_going_stops by done.
      unfold max_pages_reached.
      replace (MAX_PAGES <=? n)%nat with true
        by (symmetry; apply Nat.leb_le; lia).
      by rewrite orb_true_r. }
    simpl. rewrite Hstop. rewrite Nat.sub_diag.
    split; [lia|]. split; [done|]. split.
    { unfold stops_at. rewrite keep_going_stops in Hstop by done.
      apply negb_false_iff in Hstop. by rewrite Hstop. }
    split; [intros m Hm; lia|].
    unfold walk_result. destruct n as [|[|n]]; [done | done |].
    unfold later_page_empty, page_ads in Hne.
    by destruct (listing w (url_of (S (S n))) timeout).
  - destruct (going (after st1 n)) eqn:Hgo.
    + (* the loop goes on to page n + 1 *)
      assert (Hn20 : (n < MAX_PAGES)%nat).
      { unfold keep_going in Hgo.
        rewrite state_after_currentPage in Hgo by done.
        apply andb_true_iff in Hgo as [_ Hgo]. by apply Nat.ltb_lt. }
      assert (Hstopn : stops st1 n = false).
      { unfold stops_at. rewrite keep_going_stops in Hgo by done.
        apply negb_true_iff in Hgo. by rewrite Hgo, Hne. }
      assert (Hafter : after st1 (S n)
                       = match ads_of (S n) with
                         | Some ads => push_page (after st1 n) (S n) ads
                         | None =>
                             {| ps_items := ps_items (after st1 n);
                                ps_seenIds := ps_seenIds (after st1 n);
                                ps_currentPage := S n |}
                         end).
      { destruct n as [|n]; [lia | done]. }
      cbn [page_loop]. rewrite Hgo.
      rewrite state_after_currentPage by done.
      fold (url_of (S n)).
      unfold fetchListing, bind.
      destruct (ads_of (S n)) as [ads|] eqn:Hads.
      * (* a page with records: one more round *)
        unfold ads_of in Hads.
        destruct (listing w (url_of (S n)) timeout) as [|ps] eqn:Hl;
          [done|]. simpl. simpl in Hads. rewrite Hads.
        rewrite <- Hafter.
        destruct (IH (S n)) as (k & Hk & Htr & Hst & Hmin & Hres);
          [done | lia | | lia |].
        { unfold later_page_empty, page_ads. rewrite Hl. simpl.
          rewrite Hads. by rewrite andb_false_r. }
        exists k. split; [lia|]. split.
        { rewrite Htr. replace (k - n)%nat with (S (k - S n)) by lia. done. }
        split; [done|]. split; [|done].
        intros m Hm. destruct (decide (m = n)) as [->|Hne']; [done|].
        apply Hmin. lia.
      * (* the page ends the walk *)
        exists (S n). split; [lia|].
        replace (S n - n)%nat with 1%nat by lia.
        assert (Hempty : empty_at (S n) = true).
        { unfold later_page_empty. rewrite Hads.
          rewrite andb_true_r. apply Nat.ltb_lt. lia. }
        assert (Hstop : stops st1 (S n) = true).
        { unfold stops_at. rewrite Hempty. by rewrite orb_true_r. }
        assert (Hmin : forall m, (n <= m < S n)%nat -> stops st1 m = false).
        { intros m Hm. by replace m with n by lia. }
        unfold ads_of in Hads. unfold walk_result.
        destruct n as [|n]; [lia|].
        destruct (listing w (url_of (S (S n))) timeout) as [|ps] eqn:Hl.
        -- done.
        -- rewrite Hafter. simpl in Hads. cbn [trace result].
           rewrite Hads. cbn [ret trace result app].
           split; [done|]. split; [done|]. by split.
    + (* a stop condition of the loop header holds *)
      exists n. cbn [page_loop]. rewrite Hgo. rewrite Nat.sub_diag.
      split; [lia|]. split; [done|]. split.
      { unfold stops_at. rewrite keep_going_stops in Hgo by done.
        apply negb_false_iff in Hgo. by rewrite Hgo. }
      split; [intros m Hm; lia|].
      unfold walk_result. destruct n as [|[|n]]; [done | done |].
      unfold later_page_empty, page_ads in Hne.
      by destruct (listing w (url_of (S (S n))) timeout).
Qed.

(** The loop as [search] runs it: from the state after the first page, with
    [MAX_PAGES] as fuel.  It never runs out of fuel. *)
Lemma page_loop_run (st1 : pstate) :
  ps_currentPage st1 = 1%nat ->
  exists k,
    (1 <= k <= MAX_PAGES)%nat
    /\ trace (loop MAX_PAGES st1)
       = map (fun m => GetListing (url_of m)) (seq 2 (k - 1))
    /\ stops st1 k = true
    /\ (forall m, (1 <= m < k)%nat -> stops st1 m = false)
    /\ result (loop MAX_PAGES st1) = ends st1 k.
Proof.
  intros H1.
  destruct (page_loop_from st1 MAX_PAGES 1 H1) as (k & Hk & H);
    [lia | done | lia |].
  exists k. split; [|exact H]. unfold MAX_PAGES in *. lia.
Qed.

End PaginatorFacts.


(** ** Detail enrichment *)

Lemma listing_of_assign (it : item) (d : detail) :
  listing_of (assign it d) = listing_of it.
Proof. done. Qed.

Lemma parseAd_listing (ad : option rawAd) (it : item) :
  parseAd ad = Some it -> listing_of it = it.
Proof.
  unfold parseAd. destruct ad as [ad|]; [|done].
  destruct (or_empty (or_else (ad_subject ad) (ad_title ad))); [done|].
  by intros [= <-].
Qed.

Lemma parseAds_listing (ads : list (option rawAd)) :
  Forall (fun it => listing_of it = it) (parseAds ads).
Proof.
  unfold parseAds. induction ads as [|ad ads IH]; simpl; [done|].
  destruct (parseAd ad) as [it|] eqn:Hit; [|done].
  constructor; [by eapply parseAd_listing | done].
Qed.

Lemma alter_listing (f : item -> item) (idx : nat) (l : list item) :
  (forall it, listing_of (f it) = listing_of it) ->
  map listing_of (alter f idx l) = map listing_of l.
Proof.
  intros Hf. revert idx. induction l as [|x l IH]; intros idx; [done|].
  destruct idx as [|idx]; simpl.
  - by rewrite Hf.
  - f_equal. apply IH.
Qed.

Section EnricherFacts.

Variable w : world.
Variable timeout : Z.
Variable concurrency : Z.

Lemma assign_results_listing (results : list (nat * option detail))
    (items : list item) :
  map listing_of (assign_results items results) = map listing_of items.
Proof.
  unfold assign_results. revert items.
  induction results as [|[idx [d|]] results IH]; intros items; simpl.
  - done.
  - rewrite IH. by apply alter_listing.
  - apply IH.
Qed.

Lemma batch_requests_detail (items : list item) (batch : list nat) :
  listing_requests (batch_requests items batch) = [].
Proof.
  unfold batch_requests. induction batch as [|idx batch IH]; [done|].
  simpl. by destruct (items !! idx).
Qed.

Lemma listing_requests_app (t1 t2 : list request) :
  listing_requests (t1 ++ t2) = listing_requests t1 ++ listing_requests t2.
Proof. apply List.filter_app. Qed.

(** Enrichment keeps the listing part of every item, their number and
    their order, and requests detail pages only. *)
Lemma enrich_loop_listing (fuel : nat) (queue : list nat) (i : Z)
    (items : list item) :
  listing_requests
    (trace (enrich_loop w timeout concurrency fuel queue i items)) = []
  /\ forall items',
       result (enrich_loop w timeout concurrency fuel queue i items)
       = Ok items' ->
       map listing_of items' = map listing_of items.
Proof.
  revert i items. induction fuel as [|fuel IH]; intros i items;
    cbn [enrich_loop]; destruct (i <? Z.of_nat (length queue))%Z.
  - split; [done | done].
  - split; [done | by intros items' [= <-]].
  - unfold bind. cbn [result trace].
    destruct (IH (i + concurrency)%Z
                 (assign_results items
                    (fetch_batch w timeout items
                       (js_slice i (i + concurrency) queue))))
      as [Htr Hres].
    split.
    + by rewrite listing_requests_app, batch_requests_detail, Htr.
    + intros items' H. rewrite (Hres items' H).
      apply assign_results_listing.
  - split; [done | by intros items' [= <-]].
Qed.

Lemma enrich_listing (items : list item) :
  listing_requests (trace (enrich w timeout concurrency items)) = []
  /\ forall items',
       result (enrich w timeout concurrency items) = Ok items' ->
       map listing_of items' = map listing_of items.
Proof.
  unfold enrich. destruct items as [|it items].
  - split; [done | by intros items' [= <-]].
  - apply enrich_loop_listing.
Qed.

(** With a batch size of one or more the loop advances: fuel equal to what
    is left of the queue is enough. *)
Lemma enrich_loop_returns (fuel : nat) (queue : list nat) (i : Z)
    (items : list item) :
  (1 <= concurrency)%Z -> (0 <= i)%Z ->
  (Z.of_nat (length queue) <= i + Z.of_nat fuel)%Z ->
  exists items',
    result (enrich_loop w timeout concurrency fuel queue i items) = Ok items'.
Proof.
  intros Hc. revert i items. induction fuel as [|fuel IH];
    intros i items Hi Hfuel; cbn [enrich_loop];
    destruct (Z.ltb_spec i (Z.of_nat (length queue))).
  - lia.
  - by eexists.
  - unfold bind. cbn [result trace]. apply IH; lia.
  - by eexists.
Qed.

Lemma enrich_returns (items : list item) :
  (1 <= concurrency)%Z ->
  exists items', result (enrich w timeout concurrency items) = Ok items'.
Proof.
  intros Hc. unfold enrich. destruct items as [|it items]; [by eexists|].
  apply enrich_loop_returns; lia.
Qed.

(** With a batch size of zero or less the loop index never reaches the end
    of a non-empty queue: the loop hangs whatever the fuel. *)
Lemma enrich_loop_hangs (fuel : nat) (queue : list nat) (i : Z)
    (items : list item) :
  (concurrency <= 0)%Z -> (i <= 0)%Z -> queue <> [] ->
  result (enrich_loop w timeout concurrency fuel queue i items) = Hang.
Proof.
  intros Hc. revert i items. induction fuel as [|fuel IH];
    intros i items Hi Hq; cbn [enrich_loop];
    destruct (Z.ltb_spec i (Z.of_nat (length queue))).
  - done.
  - destruct queue; [done | simpl in *; lia].
  - unfold bind. cbn [result trace]. apply IH; [lia | done].
  - destruct queue; [done | simpl in *; lia].
Qed.

End EnricherFacts.


(** ** The shape of a search *)

Lemma split_on_absent (sep : N) (s : jsstring) :
  sep ∉ s -> split_on sep s = [s].
Proof.
  induction s as [|c s IH]; intros H; [done|].
  apply not_elem_of_cons in H as [Hne H]. simpl.
  destruct (N.eqb_spec c sep) as [->|_]; [done|]. by rewrite IH.
Qed.

Lemma valid_state_no_comma (s : jsstring) :
  has VALID_STATES s = true -> COMMA ∉ s.
Proof.
  intros H. apply has_true in H.
  assert (Hall : Forall (fun s => forallb (fun c => negb (c =? COMMA)) s
                                  = true) VALID_STATES).
  { apply Forall_forall. intros x Hx. apply list_elem_of_In in Hx.
    revert x Hx. apply forallb_forall. vm_compute. reflexivity. }
  rewrite Forall_forall in Hall. specialize (Hall s H).
  intros Hin. rewrite forallb_forall in Hall.
  apply list_elem_of_In, Hall in Hin.
  by rewrite N.eqb_refl in Hin.
Qed.

Lemma stateList_of_valid (s : jsstring) :
  has VALID_STATES s = true ->
  (length (stateList_of (Some s)) <= 1)%nat.
Proof.
  intros H. unfold stateList_of. destruct (truthy (Some s)); [|simpl; lia].
  etransitivity; [apply List.filter_length_le|].
  rewrite length_map. simpl.
  destruct s as [|c s]; [done|].
  rewrite split_on_absent by (by apply valid_state_no_comma). done.
Qed.

(** A search for one valid region takes the single path: it does not call
    itself. *)
Lemma search_body_region (f g : jsstring -> options -> run searchResult)
    (w : world) (query : jsstring) (opts : options) (s : jsstring) :
  has VALID_STATES s = true ->
  search_body f w query (region_options opts s)
  = search_body g w query (region_options opts s).
Proof.
  intros H. unfold search_body.
  destruct (truthy _ && negb _); [done|].
  destruct (List.find _ _); [done|].
  pose proof (stateList_of_valid s H) as Hlen.
  change (o_state (region_options opts s)) with (Some s).
  destruct (Nat.ltb_spec 1 (length (stateList_of (Some s)))); [lia | done].
Qed.

Lemma regional_searches_ext (f g : jsstring -> options -> run searchResult)
    (w : world) (query : jsstring) (opts : options)
    (stateList : list jsstring) :
  List.find (fun s => negb (has VALID_STATES s)) stateList = None ->
  regional_searches (search_body f w) query opts stateList
  = regional_searches (search_body g w) query opts stateList.
Proof.
  intros Hvalid. unfold regional_searches. apply map_ext_in.
  intros s Hs. apply search_body_region.
  pose proof (find_none _ _ Hvalid s Hs) as H. by apply negb_false_iff in H.
Qed.

(** [search] satisfies the recursive equation of the source. *)
Lemma search_unfold (w : world) (query : jsstring) (opts : options) :
  search w query opts = search_body (search w) w query opts.
Proof.
  unfold search at 1. unfold search_body at 1 3.
  destruct (truthy _ && negb _); [done|].
  destruct (List.find _ _) eqn:Hvalid; [done|].
  destruct (1 <? _)%nat; [|done].
  unfold search_multi.
  by rewrite (regional_searches_ext _ (search_body (fun _ _ => Run [] Hang) w)
                w query opts _ Hvalid).
Qed.


Lemma bind_Ok {A B : Type} (m : run A) (k : A -> run B) (b : B) :
  result (bind m k) = Ok b <->
  exists a, result m = Ok a /\ result (k a) = Ok b.
Proof.
  unfold bind. destruct (result m) as [a| |]; simpl.
  - split; [intros H; by exists a | by intros [a' [[= <-] H]]].
  - split; [done | by intros [a [H _]]].
  - split; [done | by intros [a [H _]]].
Qed.

Lemma bind_trace {A B : Type} (m : run A) (k : A -> run B) :
  trace (bind m k)
  = trace m ++ match result m with
               | Ok a => trace (k a)
               | _ => []
               end.
Proof.
  unfold bind. destruct (result m); simpl; by rewrite ?app_nil_r.
Qed.

Lemma fetchListing_Ok (w : world) (u : url) (timeout : Z)
    (b : option pageProps) :
  result (fetchListing w u timeout) = Ok b <-> listing w u timeout = Body b.
Proof.
  unfold fetchListing. destruct (listing w u timeout); simpl.
  - split; done.
  - split; [by intros [= ->] | by intros [= ->]].
Qed.

Lemma fetchListing_trace (w : world) (u : url) (timeout : Z) :
  trace (fetchListing w u timeout) = [GetListing u].
Proof. unfold fetchListing. by destruct (listing w u timeout). Qed.

Section SingleFacts.

Variable w : world.
Variable query : jsstring.
Variable opts : options.
Variable stateList : list jsstring.

Local Abbreviation limit := (default DEFAULT_LIMIT (o_limit opts)).
Local Abbreviation timeout := (default DEFAULT_TIMEOUT (o_timeout opts)).
Local Abbreviation concurrency :=
  (default DEFAULT_CONCURRENCY (o_concurrency opts)).
Local Abbreviation strict := (default false (o_strict opts)).
Local Abbreviation firstUrl :=
  (buildUrl query (o_sort opts) MARKETPLACE_DOMAIN 1 (head stateList)
            (o_category opts)).
Local Abbreviation walk := (walk_of w query opts stateList).
Local Abbreviation shaped_items := (shaped query opts).
Local Abbreviation capped := (capped_of opts).

(** A single-region search that returns has read a first page with an
    [ads] array, walked the pages, shaped_items the items and enriched them. *)
Lemma search_single_inv (r : searchResult) :
  result (search_single w query opts stateList) = Ok r ->
  exists fs ads st,
    listing w firstUrl timeout = Body (Some fs)
    /\ pp_ads fs = Some ads
    /\ result (walk fs ads) = Ok st
    /\ result (enrich w timeout concurrency (shaped_items st)) = Ok (r_items r)
    /\ pg_capped (r_pagination r) = capped fs st
    /\ pg_limit (r_pagination r) = limit.
Proof.
  unfold search_single. intros H.
  apply bind_Ok in H as (firstState & Hl & H).
  apply fetchListing_Ok in Hl.
  destruct firstState as [fs|]; [|done].
  destruct (pp_ads fs) as [ads|] eqn:Hads; [|done].
  apply bind_Ok in H as (st & Hwalk & H).
  apply bind_Ok in H as (items3 & Hen & H).
  injection H as <-. by exists fs, ads, st.
Qed.

(** The listing pages a single-region search requests are the first page,
    then those of the walk. *)
Lemma search_single_listing_requests (fs : pageProps)
    (ads : list (option rawAd)) :
  listing w firstUrl timeout = Body (Some fs) ->
  pp_ads fs = Some ads ->
  listing_requests (trace (search_single w query opts stateList))
  = GetListing firstUrl :: listing_requests (trace (walk fs ads)).
Proof.
  intros Hl Hads. unfold search_single, walk_of.
  rewrite bind_trace, fetchListing_trace.
  apply fetchListing_Ok in Hl. rewrite Hl, Hads.
  rewrite bind_trace.
  rewrite !listing_requests_app. cbn [listing_requests List.filter
    is_listing_request app]. f_equal.
  destruct (result (page_loop _ _ _ _ _ _ _ _ _ _ _)) as [st| |];
    [|by rewrite app_nil_r..].
  rewrite bind_trace, listing_requests_app.
  destruct (enrich_listing w timeout concurrency
              (shape (o_sort opts) limit
                 (strict_filter strict query (ps_items st)))) as [-> _].
  destruct (result (enrich _ _ _ _));
    cbn [trace ret listing_requests List.filter app];
    apply app_nil_r.
Qed.

Lemma first_state_currentPage (ads : list (option rawAd)) :
  ps_currentPage (first_state ads) = 1%nat.
Proof. done. Qed.

End SingleFacts.

(** [search], case by case. *)
Lemma search_cases (w : world) (query : jsstring) (opts : options) :
  search w query opts
  = if truthy (o_category opts)
       && negb (has CATEGORIES (or_empty (o_category opts)))
    then throw (UnknownCategory (or_empty (o_category opts)) CATEGORIES)
    else
      match List.find (fun s => negb (has VALID_STATES s))
                      (stateList_of (o_state opts)) with
      | Some s => throw (UnknownState s)
      | None =>
          if (1 <? length (stateList_of (o_state opts)))%nat
          then search_multi (search w) query opts
                            (stateList_of (o_state opts))
          else search_single w query opts (stateList_of (o_state opts))
      end.
Proof. by rewrite search_unfold. Qed.

(** A search that returns took one of the two paths. *)
Lemma search_Ok (w : world) (query : jsstring) (opts : options)
    (r : searchResult) :
  result (search w query opts) = Ok r ->
  let stateList := stateList_of (o_state opts) in
  ((1 < length stateList)%nat
   /\ result (search_multi (search w) query opts stateList) = Ok r)
  \/ ((length stateList <= 1)%nat
      /\ result (search_single w query opts stateList) = Ok r).
Proof.
  rewrite search_cases.
  destruct (truthy _ && negb _); [done|].
  destruct (List.find _ _); [done|].
  destruct (Nat.ltb_spec 1 (length (stateList_of (o_state opts))));
    intros Hr; [left | right]; split; done || lia.
Qed.


(** ** The claims on pagination *)

Section SingleClaims.

Variable w : world.
Variable query : jsstring.
Variable opts : options.
Variable stateList : list jsstring.

Local Abbreviation limit := (default DEFAULT_LIMIT (o_limit opts)).
Local Abbreviation timeout := (default DEFAULT_TIMEOUT (o_timeout opts)).
Local Abbreviation concurrency :=
  (default DEFAULT_CONCURRENCY (o_concurrency opts)).
Local Abbreviation strict := (default false (o_strict opts)).
Local Abbreviation firstUrl :=
  (buildUrl query (o_sort opts) MARKETPLACE_DOMAIN 1 (head stateList)
            (o_category opts)).
Local Abbreviation url_of :=
  (page_url query (o_sort opts) (head stateList) (o_category opts)).
Local Abbreviation after :=
  (state_after w query (o_sort opts) (head stateList) (o_category opts)
               timeout).
Local Abbreviation stops fs :=
  (stops_at w query (o_sort opts) (head stateList) (o_category opts) timeout
            limit (or_50 (pp_pageSize fs)) (pp_totalOfAds fs)).

(** The walk inside [search_single]: it requests the pages 2 to [k], where
    [k] is the least page count at which a stop condition holds, and, when
    it returns, its accumulator is the one after these pages. *)
Lemma walk_of_run (fs : pageProps) (ads : list (option rawAd)) :
  exists k,
    (1 <= k <= MAX_PAGES)%nat
    /\ trace (walk_of w query opts stateList fs ads)
       = map (fun m => GetListing (url_of m)) (seq 2 (k - 1))
    /\ stops fs (first_state ads) k = true
    /\ (forall m, (1 <= m < k)%nat -> stops fs (first_state ads) m = false)
    /\ (forall st, result (walk_of w query opts stateList fs ads) = Ok st ->
                   st = after (first_state ads) k).
Proof.
  destruct (page_loop_run w query (o_sort opts) (head stateList)
              (o_category opts) timeout limit (or_50 (pp_pageSize fs))
              (pp_totalOfAds fs) (first_state ads)
              (first_state_currentPage ads))
    as (k & Hk & Htr & Hstop & Hmin & Hres).
  unfold walk_of.
  exists k. split; [done|]. split; [exact Htr|]. split; [done|].
  split; [done|]. intros st Hst.
  rewrite Hres in Hst. unfold walk_result in Hst.
  destruct k as [|[|k]]; [by injection Hst | by injection Hst |].
  destruct (listing w _ timeout); [done | by injection Hst].
Qed.

(** The listing pages a single-region search requests, and where its walk
    stops. *)
Lemma search_single_walk (fs : pageProps) (ads : list (option rawAd)) :
  listing w firstUrl timeout = Body (Some fs) ->
  pp_ads fs = Some ads ->
  exists k,
    (1 <= k <= MAX_PAGES)%nat
    /\ listing_requests (trace (search_single w query opts stateList))
       = map (fun m => GetListing (url_of m)) (seq 1 k)
    /\ stops fs (first_state ads) k = true
    /\ (forall m, (1 <= m < k)%nat -> stops fs (first_state ads) m = false)
    /\ (forall st, result (walk_of w query opts stateList fs ads) = Ok st ->
                   st = after (first_state ads) k).
Proof.
  intros Hl Hads.
  destruct (walk_of_run fs ads) as (k & Hk & Htr & Hstop & Hmin & Hst).
  exists k. split; [done|]. split; [|done].
  rewrite (search_single_listing_requests w query opts stateList fs ads)
    by done.
  rewrite Htr. replace k with (S (k - 1)) at 2 by lia.
  cbn [seq map]. f_equal.
  unfold listing_requests. apply forallb_filter_id.
  apply forallb_forall. intros x Hx.
  apply in_map_iff in Hx as [m [<- _]]. done.
Qed.

(** C4 (amended). After the first page of a single-region search, page
    [n + 1] is requested exactly while no stop condition holds after [n]
    pages: the pages requested are 1 to [k], [k] being the least page count
    at which the accumulated items reach the limit, or [k * pageSize] is not
    below the reported total, or [k] is the maximum of 20 pages, or page
    [k], fetched after the first, cannot be read or carries no record.
    With a limit of 100, a page size of 50 and a total of 60, at most two
    pages are requested. *)
Theorem pagination_stops (fs : pageProps) (ads : list (option rawAd)) :
  listing w firstUrl timeout = Body (Some fs) ->
  pp_ads fs = Some ads ->
  exists k,
    (1 <= k <= MAX_PAGES)%nat
    /\ MAX_PAGES = 20%nat
    /\ listing_requests (trace (search_single w query opts stateList))
       = map (fun m => GetListing (url_of m)) (seq 1 k)
    /\ stops fs (first_state ads) k = true
    /\ (forall m, (1 <= m < k)%nat -> stops fs (first_state ads) m = false)
    /\ (limit = 100%Z -> or_50 (pp_pageSize fs) = 50%Z ->
        pp_totalOfAds fs = Some 60%Z -> (k <= 2)%nat).
Proof.
  intros Hl Hads.
  destruct (search_single_walk fs ads Hl Hads)
    as (k & Hk & Htr & Hstop & Hmin & _).
  exists k. repeat (split; [done|]).
  intros Hlim Hps Htot.
  destruct (le_lt_dec k 2) as [|Hk3]; [done|]. exfalso.
  specialize (Hmin 2%nat ltac:(lia)).
  unfold stops_at, total_exhausted in Hmin. rewrite Hps, Htot in Hmin.
  simpl in Hmin. by rewrite !orb_true_r in Hmin.
Qed.

(** Enrichment returns the shaped items, listing part unchanged. *)
Lemma search_single_items (r : searchResult) :
  result (search_single w query opts stateList) = Ok r ->
  exists fs ads k,
    listing w firstUrl timeout = Body (Some fs)
    /\ pp_ads fs = Some ads
    /\ (1 <= k <= MAX_PAGES)%nat
    /\ listing_requests (trace (search_single w query opts stateList))
       = map (fun m => GetListing (url_of m)) (seq 1 k)
    /\ map listing_of (r_items r)
       = map listing_of
           (shaped query opts (after (first_state ads) k))
    /\ pg_capped (r_pagination r)
       = capped_of opts fs (after (first_state ads) k)
    /\ pg_limit (r_pagination r) = limit.
Proof.
  intros Hr.
  destruct (search_single_inv w query opts stateList r Hr)
    as (fs & ads & st & Hl & Hads & Hwalk & Hen & Hcap & Hlim).
  destruct (search_single_walk fs ads Hl Hads)
    as (k & Hk & Htr & _ & _ & Hst).
  specialize (Hst st Hwalk). subst st.
  exists fs, ads, k. repeat (split; [done|]). split; [|done].
  by apply (enrich_listing w timeout concurrency).
Qed.

End SingleClaims.

(** C1 (amended). A search that returns, along one region or several,
    returns at most [limit] items whenever the limit is not negative (the
    command line front end only passes limits of one or more). *)
Theorem items_within_limit (w : world) (query : jsstring) (opts : options)
    (r : searchResult) :
  result (search w query opts) = Ok r ->
  (0 <= default DEFAULT_LIMIT (o_limit opts))%Z ->
  (Z.of_nat (length (r_items r)) <= default DEFAULT_LIMIT (o_limit opts))%Z
  /\ pg_limit (r_pagination r) = default DEFAULT_LIMIT (o_limit opts).
Proof.
  intros Hr Hlim. apply search_Ok in Hr as [[_ Hr] | [_ Hr]].
  - destruct (search_multi_items _ _ _ _ _ Hr) as (-> & -> & _).
    split; [|done]. unfold shape. by apply js_slice_0_length.
  - destruct (search_single_items w query opts _ r Hr)
      as (fs & ads & k & _ & _ & _ & _ & Hitems & _ & ->).
    split; [|done].
    apply (f_equal (@length item)) in Hitems.
    rewrite !length_map in Hitems. rewrite Hitems.
    unfold shaped, shape. by apply js_slice_0_length.
Qed.


Lemma search_single_path (w : world) (query : jsstring) (opts : options)
    (r : searchResult) :
  result (search w query opts) = Ok r ->
  (length (stateList_of (o_state opts)) <= 1)%nat ->
  search w query opts
  = search_single w query opts (stateList_of (o_state opts)).
Proof.
  rewrite search_cases.
  destruct (truthy _ && negb _); [done|].
  destruct (List.find _ _); [done|].
  destruct (Nat.ltb_spec 1 (length (stateList_of (o_state opts))));
    [lia | done].
Qed.

Lemma search_multi_path (w : world) (query : jsstring) (opts : options)
    (r : searchResult) :
  result (search w query opts) = Ok r ->
  (1 < length (stateList_of (o_state opts)))%nat ->
  search w query opts
  = search_multi (search w) query opts (stateList_of (o_state opts)).
Proof.
  rewrite search_cases.
  destruct (truthy _ && negb _); [done|].
  destruct (List.find _ _); [done|].
  destruct (Nat.ltb_spec 1 (length (stateList_of (o_state opts))));
    [done | lia].
Qed.

Lemma more_available_spec (n : nat) (pageSize : Z) (total : option Z) :
  more_available n pageSize total = true <->
  match total with
  | Some t => (Z.of_nat n * pageSize < t)%Z
  | None => True
  end.
Proof.
  unfold more_available. destruct total as [t|]; [|done].
  apply Z.ltb_lt.
Qed.

(** C3 (amended). In a single-region result [capped] is true exactly when
    the paginator had accumulated [limit] items or more, or had requested
    the maximum of 20 pages while 20 times the page size was still below the
    reported total.  In a multi-region result [capped] is true exactly when
    the returned list holds [limit] items or more, whatever the regional
    searches left unread. *)
Theorem capped_flag (w : world) (query : jsstring) (opts : options)
    (r : searchResult) :
  result (search w query opts) = Ok r ->
  let stateList := stateList_of (o_state opts) in
  let limit := default DEFAULT_LIMIT (o_limit opts) in
  let timeout := default DEFAULT_TIMEOUT (o_timeout opts) in
  let sort := o_sort opts in
  let category := o_category opts in
  ((1 < length stateList)%nat ->
     (pg_capped (r_pagination r) = true <->
      (limit <= Z.of_nat (length (r_items r)))%Z))
  /\ ((length stateList <= 1)%nat ->
      exists fs ads k,
        listing w (page_url query sort (head stateList) category 1) timeout
        = Body (Some fs)
        /\ pp_ads fs = Some ads
        /\ (1 <= k <= MAX_PAGES)%nat
        /\ listing_requests (trace (search w query opts))
           = map (fun m => GetListing
                             (page_url query sort (head stateList)
                                       category m))
                 (seq 1 k)
        /\ (pg_capped (r_pagination r) = true <->
            (limit <= Z.of_nat
                        (length
                           (ps_items
                              (state_after w query sort (head stateList)
                                 category timeout (first_state ads) k))))%Z
            \/ (k = MAX_PAGES
                /\ match pp_totalOfAds fs with
                   | Some t =>
                       (Z.of_nat MAX_PAGES * or_50 (pp_pageSize fs) < t)%Z
                   | None => True
                   end))).
Proof.
  intros Hr stateList limit timeout sort category. split.
  - intros Hmulti. rewrite (search_multi_path w query opts r Hr Hmulti) in Hr.
    destruct (search_multi_items _ _ _ _ _ Hr) as (_ & _ & ->).
    apply Z.leb_le.
  - intros Hsingle.
    rewrite (search_single_path w query opts r Hr Hsingle) in Hr |- *.
    destruct (search_single_items w query opts _ r Hr)
      as (fs & ads & k & Hl & Hads & Hk & Htr & _ & Hcap & _).
    exists fs, ads, k. repeat (split; [done|]).
    rewrite Hcap. unfold capped_of.
    rewrite state_after_currentPage by (done || lia).
    rewrite orb_true_iff, andb_true_iff, Z.leb_le, Nat.leb_le,
      more_available_spec.
    split; (intros [H | [H1 H2]]; [by left | right]).
    + assert (k = MAX_PAGES) as -> by lia. done.
    + rewrite H1. done.
Qed.



(** ** Validation *)

Lemma find_invalid_state (stateList : list jsstring) (s : jsstring) :
  s ∈ stateList -> s ∉ VALID_STATES ->
  exists s', List.find (fun s => negb (has VALID_STATES s)) stateList
             = Some s'
             /\ s' ∈ stateList /\ s' ∉ VALID_STATES.
Proof.
  intros Hin Hbad.
  destruct (List.find _ stateList) as [s'|] eqn:Hfind.
  - apply find_some in Hfind as [Hs' Hv]. exists s'.
    split; [done|]. split; [by apply list_elem_of_In|].
    by apply has_false, negb_true_iff.
  - apply list_elem_of_In in Hin.
    pose proof (find_none _ _ Hfind s Hin) as H.
    apply negb_false_iff, has_true in H. done.
Qed.

Lemma cli_main_rejects (w : world) (a : cliArgs) :
  not_positive (cli_number (a_limit a) 20) = true
  \/ not_positive (cli_number (a_timeout a) 15000) = true
  \/ not_positive (cli_number (a_concurrency a) 5) = true ->
  exists msg, cli_main w a = Run [] (Ok (CliError msg)).
Proof.
  intros H. unfold cli_main.
  destruct (trim (a_query a)); [by eexists|].
  destruct (negb (has FORMATS _)); [by eexists|].
  destruct (not_positive (cli_number (a_concurrency a) 5)); [by eexists|].
  destruct (not_positive (cli_number (a_limit a) 20)); [by eexists|].
  destruct (not_positive (cli_number (a_timeout a) 15000)); [by eexists|].
  by destruct H as [H | [H | H]].
Qed.

(** C9 (amended). [search] and [searchRaw] throw, before any request, on a
    category that is not in the registry, and [search] does so on a region
    code that is not a valid state.  Neither looks at the numeric options:
    a limit, timeout or concurrency that is not a positive integer is
    refused by the command line front end, before it calls them. *)
Theorem validation_before_fetch (w : world) (query : jsstring)
    (opts : options) :
  (truthy (o_category opts) = true ->
   has CATEGORIES (or_empty (o_category opts)) = false ->
   search w query opts
   = Run [] (Throw (UnknownCategory (or_empty (o_category opts)) CATEGORIES))
   /\ searchRaw w query opts
      = Run [] (Throw (UnknownCategory (or_empty (o_category opts))
                                       CATEGORIES)))
  /\ (truthy (o_category opts) = false
      \/ has CATEGORIES (or_empty (o_category opts)) = true ->
      forall s, s ∈ stateList_of (o_state opts) -> s ∉ VALID_STATES ->
      exists s', s' ∈ stateList_of (o_state opts) /\ (s' ∉ VALID_STATES)
                 /\ search w query opts = Run [] (Throw (UnknownState s')))
  /\ (forall a : cliArgs,
        not_positive (cli_number (a_limit a) 20) = true
        \/ not_positive (cli_number (a_timeout a) 15000) = true
        \/ not_positive (cli_number (a_concurrency a) 5) = true ->
        exists msg, cli_main w a = Run [] (Ok (CliError msg))).
Proof.
  split; [|split].
  - intros Ht Hh. rewrite search_cases. unfold searchRaw.
    by rewrite Ht, Hh.
  - intros Hcat s Hin Hbad. rewrite search_cases.
    replace (truthy (o_category opts)
             && negb (has CATEGORIES (or_empty (o_category opts))))
      with false
      by (destruct Hcat as [-> | ->]; by rewrite ?andb_false_r).
    destruct (find_invalid_state _ s Hin Hbad) as (s' & -> & Hs' & Hv).
    by exists s'.
  - apply cli_main_rejects.
Qed.

(** ** Strict filtering comes before enrichment *)

Lemma corpus_parts_listing (it : item) :
  corpus_parts (listing_of it) = listing_parts it.
Proof. done. Qed.

Lemma fold_push_unseen_Forall (P : item -> Prop) (l : list item)
    (acc : gset Z * list item) :
  Forall P acc.2 -> Forall P l -> Forall P (fold_left push_unseen l acc).2.
Proof.
  revert acc. induction l as [|it l IH]; intros acc Hacc Hl; [done|].
  inversion Hl; subst. simpl. apply IH; [|done].
  unfold push_unseen. destruct (truthy_id it); [case_bool_decide|];
    simpl; try done; apply Forall_app; (split; [done | by constructor]).
Qed.

Lemma state_after_parsed (w : world) (query : jsstring)
    (sort singleState category : option jsstring) (timeout : Z)
    (ads : list (option rawAd)) (n : nat) :
  Forall (fun it => listing_of it = it)
    (ps_items (state_after w query sort singleState category timeout
                           (first_state ads) n)).
Proof.
  induction n as [|[|n] IH]; [apply parseAds_listing.. |].
  cbn [state_after]. destruct (page_ads _ _ _ _ _ _ _); [|exact IH].
  unfold push_page. cbn [ps_items].
  apply fold_push_unseen_Forall; [exact IH | apply parseAds_listing].
Qed.

Lemma filter_all_true {A : Type} (l : list A) :
  List.filter (fun _ => true) l = l.
Proof. induction l as [|x l IH]; simpl; by rewrite ?IH. Qed.

Lemma strict_filter_true (query : jsstring) (items : list item) :
  strict_filter true query items
  = List.filter (fun it => matchesTokens it (getQueryTokens query)) items.
Proof.
  unfold strict_filter. destruct (getQueryTokens query); [|done].
  symmetry. apply filter_all_true.
Qed.

Lemma shape_In (sort : option jsstring) (limit : Z) (l : list item)
    (it : item) :
  In it (shape sort limit l) -> In it l.
Proof.
  unfold shape. destruct (js_slice_0_prefix limit (sort_items sort l))
    as [k ->].
  intros H. eapply Permutation_in; [apply sort_items_perm|].
  rewrite <- (firstn_skipn k). apply in_or_app. by left.
Qed.

(** C10. In a search of at most one region with [strict] set, the filter
    runs on what the paginator accumulated, where no item has a description
    yet;
    the items returned are those that pass it, shaped and then enriched.
    So every returned item carries each query token in its normalised title
    or in one of its listing-page property values, and an accumulated item
    that lacks a token there is not returned, whatever its detail page
    says. *)
Theorem strict_filter_before_enrichment (w : world) (query : jsstring)
    (opts : options) (r : searchResult) :
  o_strict opts = Some true ->
  (length (stateList_of (o_state opts)) <= 1)%nat ->
  result (search w query opts) = Ok r ->
  exists found : list item,
    Forall (fun it => it_description it = None) found
    /\ map listing_of (r_items r)
       = map listing_of
           (shape (o_sort opts) (default DEFAULT_LIMIT (o_limit opts))
              (List.filter
                 (fun it => matchesTokens it (getQueryTokens query)) found))
    /\ (forall it, it ∈ r_items r ->
        forall t, t ∈ getQueryTokens query ->
        exists part, part ∈ listing_parts it /\ substring t part)
    /\ (forall it t, it ∈ found -> t ∈ getQueryTokens query ->
        (forall part, part ∈ listing_parts it -> ~ substring t part) ->
        forall it', it' ∈ r_items r -> listing_of it' <> listing_of it).
Proof.
  intros Hstrict Hsingle Hr.
  rewrite (search_single_path w query opts r Hr Hsingle) in Hr.
  destruct (search_single_items w query opts _ r Hr)
    as (fs & ads & k & _ & _ & _ & _ & Hitems & _ & _).
  set (st := state_after w query (o_sort opts)
               (head (stateList_of (o_state opts)))
               (o_category opts) (default DEFAULT_TIMEOUT (o_timeout opts))
               (first_state ads) k) in *.
  assert (Hparsed : Forall (fun it => listing_of it = it) (ps_items st))
    by apply state_after_parsed.
  unfold shaped in Hitems. rewrite Hstrict in Hitems. cbn [default] in Hitems.
  rewrite strict_filter_true in Hitems.
  assert (Hret : forall it, it ∈ r_items r ->
            forall t, t ∈ getQueryTokens query ->
            exists part, part ∈ listing_parts it /\ substring t part).
  { intros it Hit t Ht.
    apply list_elem_of_In, (in_map listing_of) in Hit.
    rewrite Hitems in Hit. apply in_map_iff in Hit as (it0 & Heq & Hit0).
    apply shape_In, filter_In in Hit0 as [Hin Hmatch].
    rewrite Forall_forall in Hparsed.
    pose proof (Hparsed it0 (proj2 (list_elem_of_In _ _) Hin)) as Hl0.
    destruct (proj1 (matchesTokens_parts it0 query) Hmatch t Ht)
      as (part & Hpart & Hsub).
    exists part. split; [|done].
    rewrite <- corpus_parts_listing, <- Heq, Hl0. done. }
  exists (ps_items st). split; [|split; [done|split; [done|]]].
  - eapply Forall_impl; [exact Hparsed|]. intros it <-. done.
  - intros it t Hit Ht Hnone it' Hit' Heq.
    destruct (Hret it' Hit' t Ht) as (part & Hpart & Hsub).
    apply (Hnone part); [|done].
    by rewrite <- corpus_parts_listing, <- Heq, corpus_parts_listing.
Qed.


(** ** Where deduplication holds *)

(** An item without id is never dropped by the dedup loop. *)
Lemma fold_push_unseen_no_id (l : list item) (acc : gset Z * list item) :
  List.filter no_id (fold_left push_unseen l acc).2
  = List.filter no_id acc.2 ++ List.filter no_id l.
Proof.
  revert acc. induction l as [|it l IH]; intros acc; simpl.
  - by rewrite app_nil_r.
  - rewrite IH. unfold push_unseen, no_id at 2 4.
    destruct (truthy_id it) as [i|] eqn:Hid.
    + case_bool_decide; simpl; [done|].
      rewrite List.filter_app. simpl. unfold no_id at 2. rewrite Hid.
      by rewrite app_nil_r.
    + simpl. rewrite List.filter_app. simpl. unfold no_id at 2. rewrite Hid.
      by rewrite <- app_assoc.
Qed.

Lemma dedup_ids_keeps_no_id (l : list item) :
  List.filter no_id (dedup_ids l) = List.filter no_id l.
Proof. unfold dedup_ids. by rewrite fold_push_unseen_no_id. Qed.

Lemma ids_filter_NoDup (f : item -> bool) (l : list item) :
  NoDup (ids l) -> NoDup (ids (List.filter f l)).
Proof.
  unfold ids. induction l as [|it l IH]; [done|].
  simpl. destruct (f it), (truthy_id it) as [i|] eqn:Hid; simpl;
    rewrite ?Hid; try done.
  - rewrite !NoDup_cons. intros [Hi Hnd]. split; [|by apply IH].
    intros Hin. apply Hi.
    apply list_elem_of_omap in Hin as (x & Hx & Hxi).
    apply list_elem_of_omap. exists x. split; [|done].
    apply list_elem_of_In. apply list_elem_of_In, filter_In in Hx. tauto.
  - rewrite NoDup_cons. intros [_ Hnd]. by apply IH.
Qed.

Lemma ids_firstn_NoDup (k : nat) (l : list item) :
  NoDup (ids l) -> NoDup (ids (firstn k l)).
Proof.
  unfold ids. revert k. induction l as [|it l IH]; intros k.
  - intros _. destruct k; apply NoDup_nil_2.
  - destruct k as [|k]; [intros _; apply NoDup_nil_2|].
    simpl. destruct (truthy_id it) as [i|]; [|apply IH].
    rewrite !NoDup_cons. intros [Hi Hnd]. split; [|by apply IH].
    intros Hin. apply Hi.
    apply list_elem_of_omap in Hin as (x & Hx & Hxi).
    apply list_elem_of_omap. exists x. split; [|done].
    apply list_elem_of_In. apply list_elem_of_In in Hx.
    rewrite <- (firstn_skipn k l). apply in_or_app. by left.
Qed.

Lemma ids_shape_NoDup (sort : option jsstring) (limit : Z) (l : list item) :
  NoDup (ids l) -> NoDup (ids (shape sort limit l)).
Proof.
  intros H. unfold shape.
  destruct (js_slice_0_prefix limit (sort_items sort l)) as [k ->].
  apply ids_firstn_NoDup.
  assert (Hp : Permutation (ids (sort_items sort l)) (ids l))
    by (unfold ids; apply omap_Permutation, sort_items_perm).
  by rewrite Hp.
Qed.

Lemma ids_listing (l : list item) : ids (map listing_of l) = ids l.
Proof.
  unfold ids. induction l as [|it l IH]; [done|].
  cbn [map]. change (omap truthy_id (listing_of it :: map listing_of l))
    with (match truthy_id it with
          | Some i => i :: omap truthy_id (map listing_of l)
          | None => omap truthy_id (map listing_of l)
          end).
  rewrite IH. done.
Qed.

Lemma record_ids_spec (l : list item) (seen : gset Z) (i : Z) :
  i ∈ record_ids seen l <-> i ∈ seen \/ i ∈ ids l.
Proof.
  unfold record_ids, ids. revert seen.
  induction l as [|it l IH]; intros seen; simpl.
  - split; [by left | intros [H | H]; [done | by apply elem_of_nil in H]].
  - rewrite IH. destruct (truthy_id it) as [j|]; [|done].
    rewrite elem_of_union, elem_of_singleton, elem_of_cons. tauto.
Qed.

(** The multi-region merge never returns two items with one id. *)
Lemma search_multi_nodup (self : jsstring -> options -> run searchResult)
    (query : jsstring) (opts : options) (stateList : list jsstring)
    (r : searchResult) :
  result (search_multi self query opts stateList) = Ok r ->
  NoDup (ids (r_items r)).
Proof.
  intros Hr. destruct (search_multi_items _ _ _ _ _ Hr) as (-> & _ & _).
  apply ids_shape_NoDup. rewrite merge_regions_round_robin.
  destruct (default false (o_strict opts));
    [apply ids_filter_NoDup|]; apply dedup_ids_nodup.
Qed.

(** The paginator never accumulates two items with one id, provided the
    first page does not repeat an id: its items are taken as they come. *)
Lemma state_after_nodup (w : world) (query : jsstring)
    (sort singleState category : option jsstring) (timeout : Z)
    (ads : list (option rawAd)) (n : nat) :
  NoDup (ids (parseAds ads)) ->
  let st := state_after w query sort singleState category timeout
                        (first_state ads) n in
  (forall i, i ∈ ps_seenIds st <-> i ∈ ids (ps_items st))
  /\ NoDup (ids (ps_items st)).
Proof.
  intros Hfirst.
  assert (H1 : (forall i, i ∈ ps_seenIds (first_state ads)
                          <-> i ∈ ids (ps_items (first_state ads)))
               /\ NoDup (ids (ps_items (first_state ads)))).
  { split; [|done]. intros i. unfold first_state. cbn [ps_seenIds ps_items].
    rewrite record_ids_spec. split; [|by right].
    intros [Hi | Hi]; [by apply elem_of_empty in Hi | done]. }
  induction n as [|[|n] IH]; [done | done |].
  cbn [state_after]. destruct (page_ads _ _ _ _ _ _ _); [|exact IH].
  unfold push_page. cbn [ps_seenIds ps_items].
  destruct IH as [IH1 IH2]. by apply fold_push_unseen_inv.
Qed.

Lemma search_single_nodup (w : world) (query : jsstring) (opts : options)
    (stateList : list jsstring) (r : searchResult) :
  result (search_single w query opts stateList) = Ok r ->
  exists fs ads,
    listing w (buildUrl query (o_sort opts) MARKETPLACE_DOMAIN 1
                        (head stateList) (o_category opts))
            (default DEFAULT_TIMEOUT (o_timeout opts))
    = Body (Some fs)
    /\ pp_ads fs = Some ads
    /\ (NoDup (ids (parseAds ads)) -> NoDup (ids (r_items r))).
Proof.
  intros Hr.
  destruct (search_single_items w query opts stateList r Hr)
    as (fs & ads & k & Hl & Hads & _ & _ & Hitems & _ & _).
  exists fs, ads. split; [done|]. split; [done|]. intros Hfirst.
  rewrite <- ids_listing, Hitems, ids_listing.
  unfold shaped. apply ids_shape_NoDup.
  unfold strict_filter.
  destruct (default false (o_strict opts)); [destruct (getQueryTokens query)|];
    [|apply ids_filter_NoDup|];
    by apply (state_after_nodup w query (o_sort opts) (head stateList)
                (o_category opts) (default DEFAULT_TIMEOUT (o_timeout opts))
                ads k).
Qed.

(** ** Regional searches, termination and ids *)

(** A regional search that returns took the single path. *)
Lemma regional_search_single (w : world) (query : jsstring) (opts : options)
    (s : jsstring) (r : searchResult) :
  has VALID_STATES s = true ->
  result (search w query (region_options opts s)) = Ok r ->
  result (search_single w query (region_options opts s)
                        (stateList_of (Some s))) = Ok r.
Proof.
  intros Hs Hr. pose proof (stateList_of_valid s Hs) as Hlen.
  apply search_Ok in Hr as [[Hmulti _] | [_ Hr]]; [|exact Hr].
  change (o_state (region_options opts s)) with (Some s) in Hmulti. lia.
Qed.

Lemma fulfilled_In {A : Type} (settled : list (run A)) (a : A) :
  In a (fulfilled settled) <-> exists r, In r settled /\ result r = Ok a.
Proof.
  unfold fulfilled. rewrite <- list_elem_of_In, list_elem_of_omap.
  split.
  - intros (r & Hr & Hres). exists r. split; [by apply list_elem_of_In|].
    by destruct (result r); simplify_eq.
  - intros (r & Hr & Hres). exists r. split; [by apply list_elem_of_In|].
    by rewrite Hres.
Qed.

(** The regional results of a multi-region search are single-region
    results for valid states. *)
Lemma regional_results (w : world) (query : jsstring) (opts : options)
    (r r' : searchResult) :
  result (search w query opts) = Ok r ->
  In r' (fulfilled (regional_searches (search w) query opts
                                      (stateList_of (o_state opts)))) ->
  exists s, In s (stateList_of (o_state opts))
            /\ result (search_single w query (region_options opts s)
                                     (stateList_of (Some s))) = Ok r'.
Proof.
  rewrite search_cases.
  destruct (truthy _ && negb _); [done|].
  destruct (List.find _ _) eqn:Hvalid; [done|].
  intros _ Hin. apply fulfilled_In in Hin as (run' & Hrun & Hres).
  unfold regional_searches in Hrun.
  apply in_map_iff in Hrun as (s & <- & Hs).
  exists s. split; [done|]. apply regional_search_single; [|done].
  pose proof (find_none _ _ Hvalid s Hs) as H. by apply negb_false_iff in H.
Qed.

(** The walk never runs out of fuel. *)
Lemma search_single_returns_or_throws (w : world) (query : jsstring)
    (opts : options) (stateList : list jsstring) :
  (1 <= default DEFAULT_CONCURRENCY (o_concurrency opts))%Z ->
  result (search_single w query opts stateList) <> Hang.
Proof.
  intros Hc. unfold search_single, bind at 1.
  unfold fetchListing. destruct (listing w _ _) as [|[fs|]];
    cbn [result trace]; [done | | done].
  destruct (pp_ads fs) as [ads|]; [|done].
  unfold bind at 1.
  destruct (page_loop_run w query (o_sort opts) (head stateList)
              (o_category opts) (default DEFAULT_TIMEOUT (o_timeout opts))
              (default DEFAULT_LIMIT (o_limit opts))
              (or_50 (pp_pageSize fs)) (pp_totalOfAds fs) (first_state ads)
              (first_state_currentPage ads))
    as (k & _ & _ & _ & _ & ->).
  destruct (walk_result _ _ _ _ _ _ _ k) as [st| |] eqn:Hw;
    cbn [result trace]; [|done|].
  - unfold bind.
    destruct (enrich_returns w (default DEFAULT_TIMEOUT (o_timeout opts))
                (default DEFAULT_CONCURRENCY (o_concurrency opts))
                (shape (o_sort opts) (default DEFAULT_LIMIT (o_limit opts))
                   (strict_filter (default false (o_strict opts)) query
                      (ps_items st))) Hc) as [items' ->].
    done.
  - unfold walk_result in Hw. destruct k as [|[|k]]; [done | done |].
    by destruct (listing w _ _).
Qed.

(** With a batch size of one or more, [search] returns or throws. *)
Lemma search_returns_or_throws (w : world) (query : jsstring)
    (opts : options) :
  (1 <= default DEFAULT_CONCURRENCY (o_concurrency opts))%Z ->
  result (search w query opts) <> Hang.
Proof.
  intros Hc. rewrite search_cases.
  destruct (truthy _ && negb _); [done|].
  destruct (List.find _ _) eqn:Hvalid; [done|].
  destruct (1 <? _)%nat; [|by apply search_single_returns_or_throws].
  unfold search_multi.
  destruct (never_settles _) eqn:Hn; [|done]. exfalso.
  unfold never_settles in Hn. apply existsb_exists in Hn as (run' & Hin & Hh).
  unfold regional_searches in Hin. apply in_map_iff in Hin as (s & <- & Hs).
  pose proof (find_none _ _ Hvalid s Hs) as Hv.
  apply negb_false_iff in Hv.
  pose proof (stateList_of_valid s Hv) as Hlen.
  rewrite search_cases in Hh.
  change (o_state (region_options opts s)) with (Some s) in Hh.
  destruct (truthy _ && negb _); [done|].
  destruct (List.find _ (stateList_of (Some s))); [done|].
  destruct (Nat.ltb_spec 1 (length (stateList_of (Some s)))); [lia|].
  pose proof (search_single_returns_or_throws w query
                (region_options opts s) (stateList_of (Some s)) Hc) as Hno.
  by destruct (result (search_single _ _ _ _)).
Qed.

(** With a batch size of zero or less and an item to enrich, [search] on at
    most one region never returns. *)
Lemma enrich_hangs (w : world) (timeout concurrency : Z)
    (items : list item) :
  (concurrency <= 0)%Z -> queue_of items <> [] ->
  result (enrich w timeout concurrency items) = Hang.
Proof.
  intros Hc Hq. unfold enrich. destruct items as [|it items]; [done|].
  by apply enrich_loop_hangs.
Qed.

Lemma parseAd_truthy_id (ad : option rawAd) (it : item) :
  parseAd ad = Some it -> truthy_id it = it_id it.
Proof.
  unfold parseAd. destruct ad as [ad|]; [|done].
  destruct (or_empty (or_else (ad_subject ad) (ad_title ad))); [done|].
  intros [= <-]. unfold truthy_id. simpl.
  unfold parse_id. destruct (ad_listId ad) as [z|]; [|done].
  destruct (Z.eqb_spec z 0) as [->|Hz]; [done|]. simpl.
  by destruct (Z.eqb_spec z 0).
Qed.

Lemma parseAds_truthy_id (ads : list (option rawAd)) :
  Forall (fun it => truthy_id it = it_id it) (parseAds ads).
Proof.
  unfold parseAds. induction ads as [|ad ads IH]; simpl; [done|].
  destruct (parseAd ad) as [it|] eqn:Hit; [|done].
  constructor; [by eapply parseAd_truthy_id | done].
Qed.

Lemma state_after_truthy_id (w : world) (query : jsstring)
    (sort singleState category : option jsstring) (timeout : Z)
    (ads : list (option rawAd)) (n : nat) :
  Forall (fun it => truthy_id it = it_id it)
    (ps_items (state_after w query sort singleState category timeout
                           (first_state ads) n)).
Proof.
  induction n as [|[|n] IH]; [apply parseAds_truthy_id.. |].
  cbn [state_after]. destruct (page_ads _ _ _ _ _ _ _); [|exact IH].
  unfold push_page. cbn [ps_items].
  apply fold_push_unseen_Forall; [exact IH | apply parseAds_truthy_id].
Qed.

Lemma ids_truthy (l : list item) :
  Forall (fun it => truthy_id it = it_id it) l -> ids l = omap it_id l.
Proof.
  unfold ids. induction 1 as [|it l Hit Hl IH]; [done|].
  cbn. rewrite Hit. destruct (it_id it); simpl; by rewrite IH.
Qed.

Lemma strict_filter_In (strict : bool) (query : jsstring)
    (items : list item) (it : item) :
  In it (strict_filter strict query items) -> In it items.
Proof.
  unfold strict_filter. destruct strict; [|done].
  destruct (getQueryTokens query); [done|].
  intros H. by apply filter_In in H as [H _].
Qed.

(** The ids of the items a single-region search returns are never 0. *)
Lemma search_single_truthy_id (w : world) (query : jsstring)
    (opts : options) (stateList : list jsstring) (r : searchResult) :
  result (search_single w query opts stateList) = Ok r ->
  Forall (fun it => truthy_id it = it_id it) (r_items r).
Proof.
  intros Hr.
  destruct (search_single_items w query opts stateList r Hr)
    as (fs & ads & k & _ & _ & _ & _ & Hitems & _ & _).
  apply Forall_forall. intros it Hit.
  apply list_elem_of_In, (in_map listing_of) in Hit.
  rewrite Hitems in Hit. apply in_map_iff in Hit as (it0 & Heq & Hit0).
  unfold shaped in Hit0. apply shape_In, strict_filter_In in Hit0.
  pose proof (state_after_truthy_id w query (o_sort opts) (head stateList)
                (o_category opts) (default DEFAULT_TIMEOUT (o_timeout opts))
                ads k) as Hall.
  rewrite Forall_forall in Hall.
  specialize (Hall it0 (proj2 (list_elem_of_In _ _) Hit0)).
  change (truthy_id it) with (truthy_id (listing_of it)).
  change (it_id it) with (it_id (listing_of it)).
  by rewrite <- Heq.
Qed.

Lemma fold_push_unseen_In (l : list item) (acc : gset Z * list item)
    (it : item) :
  In it (fold_left push_unseen l acc).2 -> In it acc.2 \/ In it l.
Proof.
  revert acc. induction l as [|x l IH]; intros acc; simpl; [by left|].
  intros H. apply IH in H as [H | H]; [|by right; right].
  unfold push_unseen in H.
  assert (Hpush : In it (acc.2 ++ [x]) -> In it acc.2 \/ In it (x :: l)).
  { intros Hin. apply in_app_or in Hin as [Hin | [<- | []]];
      [by left | by right; left]. }
  destruct (truthy_id x); [case_bool_decide|]; simpl in H;
    first [by left | by apply Hpush].
Qed.

Lemma merge_regions_In (regions : list (list item)) (it : item) :
  In it (merge_regions regions) -> exists arr, In arr regions /\ In it arr.
Proof.
  unfold merge_regions. rewrite merge_ranks_fold.
  intros H. apply fold_push_unseen_In in H as [[] | H].
  apply in_flat_map in H as (i & _ & H). unfold rank in H.
  apply list_elem_of_In, list_elem_of_omap in H as (arr & Harr & Hi).
  exists arr. split; [by apply list_elem_of_In|].
  apply list_elem_of_In. by eapply list_elem_of_lookup_2.
Qed.

(** X1. Where deduplication holds: a multi-region search never returns an id
    twice; a search of at most one region does not either, provided its
    first page does not repeat an id. *)
Lemma search_nodup (w : world) (query : jsstring) (opts : options)
    (r : searchResult) :
  result (search w query opts) = Ok r ->
  let stateList := stateList_of (o_state opts) in
  ((1 < length stateList)%nat -> NoDup (omap it_id (r_items r)))
  /\ ((length stateList <= 1)%nat ->
      exists fs ads,
        listing w (buildUrl query (o_sort opts) MARKETPLACE_DOMAIN 1
                            (head stateList) (o_category opts))
                (default DEFAULT_TIMEOUT (o_timeout opts))
        = Body (Some fs)
        /\ pp_ads fs = Some ads
        /\ (NoDup (omap it_id (parseAds ads)) ->
            NoDup (omap it_id (r_items r)))).
Proof.
  intros Hr stateList. split.
  - intros Hmulti.
    pose proof Hr as Hr'.
    rewrite (search_multi_path w query opts r Hr Hmulti) in Hr'.
    rewrite <- ids_truthy; [by eapply search_multi_nodup|].
    destruct (search_multi_items _ _ _ _ _ Hr') as (Hitems & _ & _).
    rewrite Hitems. apply Forall_forall. intros it Hit.
    apply list_elem_of_In, shape_In in Hit.
    assert (Hin : In it (merge_regions
                           (map r_items
                              (fulfilled
                                 (regional_searches (search w) query opts
                                    (stateList_of (o_state opts))))))).
    { destruct (default false (o_strict opts)); [|done].
      by apply filter_In in Hit as [Hit _]. }
    apply merge_regions_In in Hin as (arr & Harr & Hin).
    apply in_map_iff in Harr as (r' & <- & Hr'').
    destruct (regional_results w query opts r r' Hr Hr'') as (s & _ & Hs).
    pose proof (search_single_truthy_id _ _ _ _ _ Hs) as Hall.
    rewrite Forall_forall in Hall. by apply Hall, list_elem_of_In.
  - intros Hsingle.
    rewrite (search_single_path w query opts r Hr Hsingle) in Hr.
    destruct (search_single_nodup w query opts _ r Hr)
      as (fs & ads & Hl & Hads & Hnd).
    exists fs, ads. split; [done|]. split; [done|].
    rewrite <- (ids_truthy (parseAds ads)) by apply parseAds_truthy_id.
    rewrite <- ids_truthy by (by eapply search_single_truthy_id).
    exact Hnd.
Qed.

(** * Further properties of the pipeline *)

(** ** Termination *)

(** X2. With a batch size of one or more, a search ends: it returns a result
    or it throws.  The paginator is bounded by its page budget and the
    enrichment loop advances by the batch size. *)
Theorem search_settles (w : world) (query : jsstring) (opts : options) :
  (1 <= default DEFAULT_CONCURRENCY (o_concurrency opts))%Z ->
  (exists r, result (search w query opts) = Ok r)
  \/ (exists e, result (search w query opts) = Throw e).
Proof.
  intros Hc. pose proof (search_returns_or_throws w query opts Hc) as H.
  destruct (result (search w query opts)) as [r|e|];
    [left | right | done]; by eexists.
Qed.

Lemma queue_of_nil (items : list item) :
  queue_of items = [] -> Forall (fun it => it_permalink it = []) items.
Proof.
  intros Hq. apply Forall_lookup. intros i it Hi.
  destruct (it_permalink it) as [|c l] eqn:Hp; [done|]. exfalso.
  assert (Hin : In i (queue_of items)); [|by rewrite Hq in Hin].
  unfold queue_of. apply filter_In. split.
  - apply in_seq. apply lookup_lt_Some in Hi. lia.
  - by rewrite Hi, Hp.
Qed.

Lemma enrich_no_queue (w : world) (timeout concurrency : Z)
    (items : list item) :
  queue_of items = [] -> enrich w timeout concurrency items = ret items.
Proof.
  intros Hq. unfold enrich. destruct items as [|it items]; [done|].
  by rewrite Hq.
Qed.

Lemma search_single_no_permalink (w : world) (query : jsstring)
    (opts : options) (stateList : list jsstring) (r : searchResult) :
  (default DEFAULT_CONCURRENCY (o_concurrency opts) <= 0)%Z ->
  result (search_single w query opts stateList) = Ok r ->
  Forall (fun it => it_permalink it = []) (r_items r).
Proof.
  intros Hc Hr.
  destruct (search_single_inv w query opts stateList r Hr)
    as (fs & ads & st & _ & _ & _ & Hen & _).
  destruct (decide (queue_of (shaped query opts st) = [])) as [Hq|Hq].
  - rewrite enrich_no_queue in Hen by done. injection Hen as <-.
    by apply queue_of_nil.
  - rewrite enrich_hangs in Hen by done. discriminate.
Qed.

(** What holds of the items of every single-region result, for the options
    given or for those of a regional search, holds of the items of every
    result. *)
Lemma search_items_Forall (P : item -> Prop) (w : world) (query : jsstring)
    (opts : options) (r : searchResult) :
  (forall opts' stateList r',
     opts' = opts \/ (exists s, opts' = region_options opts s) ->
     result (search_single w query opts' stateList) = Ok r' ->
     Forall P (r_items r')) ->
  result (search w query opts) = Ok r ->
  Forall P (r_items r).
Proof.
  intros Hsingle Hr.
  destruct (search_Ok w query opts r Hr) as [[_ Hm] | [_ Hs]].
  - destruct (search_multi_items _ _ _ _ _ Hm) as (Hitems & _ & _).
    rewrite Hitems. apply Forall_forall. intros it Hit.
    apply list_elem_of_In, shape_In in Hit.
    assert (Hin : In it (merge_regions
                           (map r_items
                              (fulfilled
                                 (regional_searches (search w) query opts
                                    (stateList_of (o_state opts))))))).
    { destruct (default false (o_strict opts)); [|done].
      by apply filter_In in Hit as [Hit _]. }
    apply merge_regions_In in Hin as (arr & Harr & Hin).
    apply in_map_iff in Harr as (r' & <- & Hr').
    destruct (regional_results w query opts r r' Hr Hr') as (s & _ & Hs).
    assert (Hall : Forall P (r_items r')).
    { eapply Hsingle; [right; by exists s | exact Hs]. }
    rewrite Forall_forall in Hall. by apply Hall, list_elem_of_In.
  - eapply Hsingle; [by left | exact Hs].
Qed.

(** X3. A search asked for batches of zero or fewer detail requests returns
    only if no item it would return has a detail link; otherwise the
    enrichment loop, whose index never reaches the end of its queue, runs
    for ever, whatever the number of rounds it is given. *)
Theorem concurrency_below_one (w : world) (query : jsstring)
    (opts : options) :
  (default DEFAULT_CONCURRENCY (o_concurrency opts) <= 0)%Z ->
  (forall r, result (search w query opts) = Ok r ->
             Forall (fun it => it_permalink it = []) (r_items r))
  /\ (forall (fuel : nat) (items : list item),
        queue_of items <> [] ->
        result (enrich_loop w (default DEFAULT_TIMEOUT (o_timeout opts))
                  (default DEFAULT_CONCURRENCY (o_concurrency opts))
                  fuel (queue_of items) 0 items) = Hang).
Proof.
  intros Hc. split.
  - intros r Hr. apply (search_items_Forall _ w query opts r); [|done].
    intros opts' sl r' [-> | [s ->]] Hr';
      (eapply search_single_no_permalink; [|exact Hr']); exact Hc.
  - intros fuel items Hq. by apply enrich_loop_hangs.
Qed.

(** ** What every returned item satisfies *)

Lemma state_after_Forall (P : item -> Prop) (w : world) (query : jsstring)
    (sort singleState category : option jsstring) (timeout : Z)
    (ads : list (option rawAd)) (n : nat) :
  (forall ads', Forall P (parseAds ads')) ->
  Forall P (ps_items (state_after w query sort singleState category timeout
                                  (first_state ads) n)).
Proof.
  intros HP. induction n as [|[|n] IH]; [apply HP.. |].
  cbn [state_after]. destruct (page_ads _ _ _ _ _ _ _); [|exact IH].
  unfold push_page. cbn [ps_items].
  apply fold_push_unseen_Forall; [exact IH | apply HP].
Qed.

Lemma parseAds_Forall (P : item -> Prop) (ads : list (option rawAd)) :
  (forall ad it, parseAd ad = Some it -> P it) -> Forall P (parseAds ads).
Proof.
  intros HP. unfold parseAds. apply Forall_forall. intros it Hit.
  apply list_elem_of_omap in Hit as (ad & _ & Had). by eapply HP.
Qed.

(** What [parseAd] establishes holds of the listing part of every returned
    item. *)
Lemma search_listing_Forall (P : item -> Prop) (w : world)
    (query : jsstring) (opts : options) (r : searchResult) :
  (forall ad it, parseAd ad = Some it -> P it) ->
  result (search w query opts) = Ok r ->
  Forall (fun it => P (listing_of it)) (r_items r).
Proof.
  intros HP. apply search_items_Forall. clear r.
  intros opts' sl r _ Hr.
  destruct (search_single_items w query opts' sl r Hr)
    as (fs & ads & k & _ & _ & _ & _ & Hitems & _ & _).
  apply Forall_forall. intros it Hit.
  apply list_elem_of_In, (in_map listing_of) in Hit.
  rewrite Hitems in Hit. apply in_map_iff in Hit as (it0 & Heq & Hit0).
  unfold shaped in Hit0. apply shape_In, strict_filter_In in Hit0.
  pose proof (state_after_Forall (fun it => P it /\ listing_of it = it)
                w query (o_sort opts') (head sl) (o_category opts')
                (default DEFAULT_TIMEOUT (o_timeout opts')) ads k) as Hall.
  rewrite Forall_forall in Hall.
  destruct (Hall (fun ads' => parseAds_Forall _ ads'
                    (fun ad it H => conj (HP ad it H) (parseAd_listing ad it H)))
                 it0 (proj2 (list_elem_of_In _ _) Hit0)) as [Hp Hl].
  rewrite <- Heq, Hl. exact Hp.
Qed.

Lemma parseAd_normalised (ad : option rawAd) (it : item) :
  parseAd ad = Some it -> normalised it.
Proof.
  unfold parseAd. destruct ad as [ad|]; [|done].
  destruct (or_empty (or_else (ad_subject ad) (ad_title ad))) as [|c t];
    [done|].
  intros [= <-]. unfold normalised. cbn.
  split; [done|]. split.
  { unfold parse_id. destruct (ad_listId ad) as [z|]; [|done].
    destruct (Z.eqb_spec z 0); congruence. }
  split; [by destruct (parse_properties (ad_properties ad))|].
  split; intros q Hq; by eapply parsePrice_nonneg.
Qed.

(** X4. Every returned item carries a title, has no id of zero and no empty
    property list, and its prices are not negative. *)
Theorem returned_items_normalised (w : world) (query : jsstring)
    (opts : options) (r : searchResult) :
  result (search w query opts) = Ok r ->
  Forall normalised (r_items r).
Proof.
  intros Hr.
  exact (search_listing_Forall normalised w query opts r
           parseAd_normalised Hr).
Qed.

Lemma Math_round_percent (x : Q) :
  (0 <= x)%Q -> (x <= 1)%Q -> (0 <= Math_round (x * 100) <= 100)%Z.
Proof.
  intros H0 H1. unfold Math_round. split.
  - change 0%Z with (Qfloor 0). apply Qfloor_resp_le. lra.
  - apply Z.le_trans with (Qfloor (100 + (1 # 2)));
      [apply Qfloor_resp_le; lra | done].
Qed.

Lemma parseAd_discount_sound (ad : option rawAd) (it : item) :
  parseAd ad = Some it -> discount_sound it.
Proof.
  unfold parseAd. destruct ad as [ad|]; [|done].
  destruct (or_empty (or_else (ad_subject ad) (ad_title ad))) as [|c t];
    [done|].
  intros [= <-]. unfold discount_sound. cbn. intros d.
  destruct (parsePrice (or_else (ad_priceValue ad) (ad_price ad)))
    as [p|] eqn:Hp;
    destruct (parsePrice (ad_oldPrice ad)) as [o|] eqn:Ho;
    unfold discount; try done.
  destruct (truthy_num (Some o) && truthy_num (Some p) && Qltb p o)
    eqn:Hguard; [|done].
  apply andb_true_iff in Hguard as [Hguard Hlt].
  apply andb_true_iff in Hguard as [_ Hpt].
  apply Qltb_spec in Hlt. apply truthy_num_Some in Hpt.
  pose proof (parsePrice_nonneg _ _ Hp) as Hp0.
  assert (Hppos : (0 < p)%Q).
  { apply Qle_lt_or_eq in Hp0 as [H | H]; [done|]. by symmetry in H. }
  intros [= <-]. split; [|by exists p, o].
  pose proof (Qlt_trans _ _ _ Hppos Hlt) as Ho0.
  apply Math_round_percent.
  - apply Qle_shift_div_l; [done|]. lra.
  - apply Qle_shift_div_r; [done|]. lra.
Qed.


(** ** Where the items come from *)

Lemma parseAds_In (ads : list (option rawAd)) (it : item) :
  In it (parseAds ads) -> exists ad, ad ∈ ads /\ parseAd ad = Some it.
Proof.
  unfold parseAds. intros H.
  apply list_elem_of_In, list_elem_of_omap in H as (ad & Hin & Had).
  by exists ad.
Qed.

Lemma page_ads_Some (w : world) (query : jsstring)
    (sort singleState category : option jsstring) (timeout : Z) (n : nat)
    (ads : list (option rawAd)) :
  page_ads w query sort singleState category timeout n = Some ads ->
  exists fs,
    listing w (page_url query sort singleState category n) timeout
    = Body (Some fs)
    /\ pp_ads fs = Some ads.
Proof.
  unfold page_ads.
  destruct (listing w _ timeout) as [|[fs|]]; simpl; [done | | done].
  destruct (pp_ads fs) as [[|a l]|] eqn:E; [done | | done].
  intros [= <-]. by exists fs.
Qed.

(** An item the paginator holds was parsed from a record of the first page
    or of a later page that had records. *)
Lemma state_after_from_pages (w : world) (query : jsstring)
    (sort singleState category : option jsstring) (timeout : Z)
    (ads : list (option rawAd)) (n : nat) (it : item) :
  In it (ps_items (state_after w query sort singleState category timeout
                               (first_state ads) n)) ->
  (exists ad, ad ∈ ads /\ parseAd ad = Some it)
  \/ (exists m ads' ad,
        (2 <= m <= n)%nat
        /\ page_ads w query sort singleState category timeout m = Some ads'
        /\ ad ∈ ads' /\ parseAd ad = Some it).
Proof.
  induction n as [|[|n] IH]; [left; by apply parseAds_In.. |].
  assert (Hprev : In it (ps_items (state_after w query sort singleState
                                     category timeout (first_state ads)
                                     (S n))) ->
                  (exists ad, ad ∈ ads /\ parseAd ad = Some it)
                  \/ (exists m ads' ad,
                        (2 <= m <= S (S n))%nat
                        /\ page_ads w query sort singleState category
                                    timeout m = Some ads'
                        /\ ad ∈ ads' /\ parseAd ad = Some it)).
  { intros H. destruct (IH H) as [H1 | (m & a & ad & Hm & H1)];
      [by left | right]. exists m, a, ad. split; [lia | done]. }
  cbn [state_after].
  destruct (page_ads w query sort singleState category timeout (S (S n)))
    as [ads'|] eqn:Hp; [|exact Hprev].
  unfold push_page. cbn [ps_items]. intros H.
  apply fold_push_unseen_In in H as [H | H]; [by apply Hprev|].
  right. apply parseAds_In in H as (ad & Hin & Had).
  exists (S (S n)), ads', ad. split; [lia | done].
Qed.

Lemma from_page_mono (w : world) (timeout : Z) (tr tr' : list request)
    (it : item) :
  (forall x, x ∈ tr -> x ∈ tr') ->
  from_page w timeout tr it -> from_page w timeout tr' it.
Proof.
  intros Hsub (u & fs & ads & ad & Hu & H). exists u, fs, ads, ad.
  split; [by apply Hsub | done].
Qed.

Lemma search_single_from_pages (w : world) (query : jsstring)
    (opts : options) (stateList : list jsstring) (r : searchResult) :
  result (search_single w query opts stateList) = Ok r ->
  Forall (from_page w (default DEFAULT_TIMEOUT (o_timeout opts))
                    (trace (search_single w query opts stateList)))
         (r_items r).
Proof.
  intros Hr.
  destruct (search_single_items w query opts stateList r Hr)
    as (fs & ads & k & Hl & Hads & Hk & Htr & Hitems & _ & _).
  assert (Hreq : forall m, (1 <= m <= k)%nat ->
            GetListing (page_url query (o_sort opts) (head stateList)
                                 (o_category opts) m)
            ∈ trace (search_single w query opts stateList)).
  { intros m Hm. apply list_elem_of_In.
    assert (H : In (GetListing (page_url query (o_sort opts)
                                  (head stateList) (o_category opts) m))
                   (listing_requests
                      (trace (search_single w query opts stateList)))).
    { rewrite Htr. apply in_map_iff. exists m. split; [done|].
      apply in_seq. lia. }
    unfold listing_requests in H. by apply filter_In in H as [H _]. }
  apply Forall_forall. intros it Hit.
  apply list_elem_of_In, (in_map listing_of) in Hit.
  rewrite Hitems in Hit. apply in_map_iff in Hit as (it0 & Heq & Hit0).
  unfold shaped in Hit0. apply shape_In, strict_filter_In in Hit0.
  pose proof (state_after_parsed w query (o_sort opts) (head stateList)
                (o_category opts) (default DEFAULT_TIMEOUT (o_timeout opts))
                ads k) as Hall.
  rewrite Forall_forall in Hall.
  specialize (Hall it0 (proj2 (list_elem_of_In _ _) Hit0)).
  rewrite Hall in Heq. subst it0.
  destruct (state_after_from_pages _ _ _ _ _ _ _ _ _ Hit0)
    as [(ad & Hin & Had) | (m & ads' & ad & Hm & Hp & Hin & Had)].
  - exists (page_url query (o_sort opts) (head stateList)
                     (o_category opts) 1), fs, ads, ad.
    split; [apply Hreq; lia | done].
  - apply page_ads_Some in Hp as (fs' & Hl' & Hads').
    exists (page_url query (o_sort opts) (head stateList)
                     (o_category opts) m), fs', ads', ad.
    split; [apply Hreq; lia | done].
Qed.

Lemma search_multi_trace (self : jsstring -> options -> run searchResult)
    (query : jsstring) (opts : options) (stateList : list jsstring) :
  trace (search_multi self query opts stateList)
  = concat (map trace (regional_searches self query opts stateList)).
Proof. unfold search_multi. by destruct (never_settles _). Qed.

(** The regional searches of a multi-region search that return are runs of
    the single-region path. *)
Lemma regional_runs (w : world) (query : jsstring) (opts : options)
    (r r' : searchResult) :
  result (search w query opts) = Ok r ->
  In r' (fulfilled (regional_searches (search w) query opts
                                      (stateList_of (o_state opts)))) ->
  exists s,
    In (search_single w query (region_options opts s)
                      (stateList_of (Some s)))
       (regional_searches (search w) query opts
                          (stateList_of (o_state opts)))
    /\ result (search_single w query (region_options opts s)
                             (stateList_of (Some s))) = Ok r'.
Proof.
  rewrite search_cases.
  destruct (truthy _ && negb _); [done|].
  destruct (List.find _ _) eqn:Hvalid; [done|].
  intros _ Hin. apply fulfilled_In in Hin as (run' & Hrun & Hres).
  unfold regional_searches in Hrun.
  apply in_map_iff in Hrun as (s & <- & Hs).
  pose proof (find_none _ _ Hvalid s Hs) as Hv.
  apply negb_false_iff in Hv.
  pose proof (search_single_path w query (region_options opts s) r' Hres
                (stateList_of_valid s Hv)) as Heq.
  exists s. split.
  - unfold regional_searches. apply in_map_iff. exists s.
    split; [exact Heq | done].
  - rewrite Heq in Hres. exact Hres.
Qed.

(** X6. Every returned item is the normalisation of a record that a listing
    page requested by the search carried: no item is made up, and none
    comes from a page that was not asked for. *)
Theorem items_come_from_pages (w : world) (query : jsstring)
    (opts : options) (r : searchResult) :
  result (search w query opts) = Ok r ->
  Forall (from_page w (default DEFAULT_TIMEOUT (o_timeout opts))
                    (trace (search w query opts)))
         (r_items r).
Proof.
  intros Hr.
  destruct (Nat.ltb_spec 1 (length (stateList_of (o_state opts))))
    as [Hmulti | Hsingle].
  - pose proof Hr as Hm.
    rewrite (search_multi_path w query opts r Hr Hmulti) in Hm |- *.
    destruct (search_multi_items _ _ _ _ _ Hm) as (Hitems & _ & _).
    rewrite Hitems, search_multi_trace.
    apply Forall_forall. intros it Hit.
    apply list_elem_of_In, shape_In in Hit.
    assert (Hin : In it (merge_regions
                           (map r_items
                              (fulfilled
                                 (regional_searches (search w) query opts
                                    (stateList_of (o_state opts))))))).
    { destruct (default false (o_strict opts)); [|done].
      by apply filter_In in Hit as [Hit _]. }
    apply merge_regions_In in Hin as (arr & Harr & Hin).
    apply in_map_iff in Harr as (r' & <- & Hr').
    destruct (regional_runs w query opts r r' Hr Hr') as (s & Hrun & Hs).
    pose proof (search_single_from_pages _ _ _ _ _ Hs) as Hall.
    rewrite Forall_forall in Hall.
    specialize (Hall it (proj2 (list_elem_of_In _ _) Hin)).
    revert Hall. apply from_page_mono. intros x Hx.
    apply list_elem_of_In, in_concat.
    eexists. split; [apply in_map, Hrun | by apply list_elem_of_In].
  - rewrite (search_single_path w query opts r Hr Hsingle) in Hr |- *.
    by apply search_single_from_pages.
Qed.

(** ** The requests a search makes *)

Lemma map_fmap {A B : Type} (f : A -> B) (l : list A) : map f l = f <$> l.
Proof. induction l as [|x l IH]; [done|]. simpl. by rewrite IH. Qed.

Lemma page_url_inj (query : jsstring)
    (sort singleState category : option jsstring) (m n : nat) :
  (1 <= m)%nat -> (1 <= n)%nat ->
  page_url query sort singleState category m
  = page_url query sort singleState category n ->
  m = n.
Proof.
  intros Hm Hn H. apply (f_equal u_o) in H.
  unfold page_url, buildUrl in H. cbn [u_o] in H.
  destruct (Nat.ltb_spec 1 m), (Nat.ltb_spec 1 n); simplify_eq; lia.
Qed.

(** Whatever its outcome, a single-region search requests the listing
    pages 1 to [k] for some [k] within the page budget. *)
Lemma search_single_pages (w : world) (query : jsstring) (opts : options)
    (stateList : list jsstring) :
  exists k,
    (1 <= k <= MAX_PAGES)%nat
    /\ listing_requests (trace (search_single w query opts stateList))
       = map (fun m => GetListing
                         (page_url query (o_sort opts) (head stateList)
                                   (o_category opts) m))
             (seq 1 k).
Proof.
  destruct (listing w (buildUrl query (o_sort opts) MARKETPLACE_DOMAIN 1
                                (head stateList) (o_category opts))
                    (default DEFAULT_TIMEOUT (o_timeout opts)))
    as [|[fs|]] eqn:Hl.
  - exists 1%nat. split; [unfold MAX_PAGES; lia|].
    unfold search_single. rewrite bind_trace, fetchListing_trace.
    unfold fetchListing. rewrite Hl. done.
  - destruct (pp_ads fs) as [ads|] eqn:Hads.
    + destruct (search_single_walk w query opts stateList fs ads Hl Hads)
        as (k & Hk & Htr & _). by exists k.
    + exists 1%nat. split; [unfold MAX_PAGES; lia|].
      unfold search_single. rewrite bind_trace, fetchListing_trace.
      unfold fetchListing. rewrite Hl. cbn [result]. rewrite Hads. done.
  - exists 1%nat. split; [unfold MAX_PAGES; lia|].
    unfold search_single. rewrite bind_trace, fetchListing_trace.
    unfold fetchListing. rewrite Hl. done.
Qed.

Lemma search_single_region_requests (w : world) (query : jsstring)
    (opts : options) :
  (length (stateList_of (o_state opts)) <= 1)%nat ->
  (length (listing_requests (trace (search w query opts))) <= MAX_PAGES)%nat
  /\ NoDup (listing_requests (trace (search w query opts))).
Proof.
  intros Hsingle. rewrite search_cases.
  destruct (truthy _ && negb _);
    [split; [simpl; lia | apply NoDup_nil_2]|].
  destruct (List.find _ _);
    [split; [simpl; lia | apply NoDup_nil_2]|].
  destruct (Nat.ltb_spec 1 (length (stateList_of (o_state opts))));
    [lia|].
  destruct (search_single_pages w query opts (stateList_of (o_state opts)))
    as (k & Hk & ->).
  split; [rewrite length_map, length_seq; lia|].
  rewrite map_fmap. apply NoDup_fmap_2_strong; [|apply NoDup_seq].
  intros x y Hx Hy Hxy.
  apply elem_of_seq in Hx, Hy.
  apply (page_url_inj query (o_sort opts)
           (head (stateList_of (o_state opts))) (o_category opts));
    [lia | lia | congruence].
Qed.

Lemma listing_requests_concat (runs : list (run searchResult)) (n : nat) :
  Forall (fun r => (length (listing_requests (trace r)) <= n)%nat) runs ->
  (length (listing_requests (concat (map trace runs)))
   <= n * length runs)%nat.
Proof.
  induction 1 as [|r runs Hr _ IH]; simpl; [lia|].
  rewrite listing_requests_app, length_app. lia.
Qed.

(** X7. The page budget: a search requests at most 20 listing pages for each
    region (20 in all when no region or one is given), and a search of at
    most one region requests no listing page twice. *)
Theorem listing_requests_bounded (w : world) (query : jsstring)
    (opts : options) :
  let stateList := stateList_of (o_state opts) in
  (length (listing_requests (trace (search w query opts)))
   <= 20 * Nat.max 1 (length stateList))%nat
  /\ ((length stateList <= 1)%nat ->
      NoDup (listing_requests (trace (search w query opts)))).
Proof.
  intros stateList. split; [|apply search_single_region_requests].
  destruct (Nat.ltb_spec 1 (length stateList)) as [Hmulti | Hsingle].
  - rewrite search_cases.
    destruct (truthy _ && negb _); [simpl; lia|].
    destruct (List.find _ _) eqn:Hvalid; [simpl; lia|].
    fold stateList.
    destruct (Nat.ltb_spec 1 (length stateList)); [|lia].
    rewrite search_multi_trace.
    etransitivity; [apply (listing_requests_concat _ 20)|].
    + unfold regional_searches. apply Forall_forall. intros run Hrun.
      apply list_elem_of_In, in_map_iff in Hrun as (s & <- & Hs).
      pose proof (find_none _ _ Hvalid s Hs) as Hv.
      apply negb_false_iff in Hv.
      apply (search_single_region_requests w query (region_options opts s)).
      by apply stateList_of_valid.
    + unfold regional_searches. rewrite length_map. fold stateList. lia.
  - destruct (search_single_region_requests w query opts Hsingle)
      as [Hlen _]. unfold MAX_PAGES in Hlen. lia.
Qed.

Lemma filter_map_swap' {A B : Type} (f : B -> bool) (g : A -> B)
    (l : list A) :
  List.filter f (map g l) = map g (List.filter (fun x => f (g x)) l).
Proof.
  induction l as [|x l IH]; [done|]. simpl.
  destruct (f (g x)); simpl; by rewrite IH.
Qed.

Lemma queue_of_cons (it : item) (items : list item) :
  queue_of (it :: items)
  = (if has_permalink it then [0%nat] else []) ++ map S (queue_of items).
Proof.
  unfold queue_of. cbn [length seq]. rewrite <- seq_shift.
  cbn [List.filter]. rewrite filter_map_swap'.
  unfold has_permalink.
  change ((it :: items) !! 0%nat) with (Some it). cbv beta iota.
  by destruct (it_permalink it).
Qed.

Lemma batch_requests_shift (it : item) (items : list item)
    (batch : list nat) :
  batch_requests (it :: items) (map S batch) = batch_requests items batch.
Proof.
  unfold batch_requests. induction batch as [|idx batch IH]; [done|].
  cbn [map]. cbn [omap list_omap].
  change ((it :: items) !! S idx) with (items !! idx).
  destruct (items !! idx); by rewrite IH.
Qed.

Lemma batch_requests_app (items : list item) (b1 b2 : list nat) :
  batch_requests items (b1 ++ b2)
  = batch_requests items b1 ++ batch_requests items b2.
Proof. unfold batch_requests. apply omap_app. Qed.

(** The requests for the whole queue: one for each item with a detail
    link, in the order of the items. *)
Lemma batch_requests_queue (items : list item) :
  batch_requests items (queue_of items)
  = map (fun it => GetDetail (it_permalink it))
        (List.filter has_permalink items).
Proof.
  induction items as [|it items IH]; [done|].
  rewrite queue_of_cons, batch_requests_app, batch_requests_shift, IH.
  cbn [List.filter]. by destruct (has_permalink it).
Qed.

Lemma batch_requests_listing (items items' : list item)
    (batch : list nat) :
  map listing_of items = map listing_of items' ->
  batch_requests items batch = batch_requests items' batch.
Proof.
  intros H. unfold batch_requests.
  assert (Hlook : forall idx,
            it_permalink <$> (items !! idx)
            = it_permalink <$> (items' !! idx)).
  { intros idx.
    assert (Hl : listing_of <$> (items !! idx)
                 = listing_of <$> (items' !! idx)).
    { by rewrite <- !list_lookup_fmap, <- !map_fmap, H. }
    apply (f_equal (fmap it_permalink)) in Hl.
    by destruct (items !! idx) as [a|], (items' !! idx) as [b|]. }
  induction batch as [|idx batch IH]; [done|].
  cbn [omap list_omap]. specialize (Hlook idx).
  destruct (items !! idx) as [a|], (items' !! idx) as [b|];
    simpl in Hlook; try done.
  injection Hlook as ->. by rewrite IH.
Qed.

Lemma js_slice_then_skipn {A : Type} (i c : Z) (l : list A) :
  (0 <= i)%Z -> (1 <= c)%Z ->
  js_slice i (i + c) l ++ skipn (Z.to_nat (i + c)) l = skipn (Z.to_nat i) l.
Proof.
  intros Hi Hc. unfold js_slice.
  destruct (Z.ltb_spec i 0); [lia|].
  destruct (Z.ltb_spec (i + c) 0); [lia|].
  destruct (Z_le_gt_dec (Z.of_nat (length l)) i) as [Hge | Hlt].
  - rewrite (skipn_all2 (n := Z.to_nat i)) by lia.
    rewrite (skipn_all2 (n := Z.to_nat (i + c))) by lia.
    rewrite !Z.min_r by lia. by rewrite Z.sub_diag.
  - rewrite (Z.min_l i) by lia.
    replace (Z.to_nat (i + c))
      with (Z.to_nat (Z.min (i + c) (Z.of_nat (length l)) - i)
            + Z.to_nat i
            + Z.to_nat (i + c - Z.min (i + c) (Z.of_nat (length l))))%nat
      by lia.
    set (n := Z.to_nat (Z.min (i + c) (Z.of_nat (length l)) - i)).
    set (extra := Z.to_nat (i + c - Z.min (i + c) (Z.of_nat (length l)))).
    rewrite <- (firstn_skipn n (skipn (Z.to_nat i) l)) at 2.
    f_equal. rewrite skipn_skipn.
    destruct (Z.min_spec (i + c) (Z.of_nat (length l)))
      as [[Hlt' Hmin] | [Hle' Hmin]].
    + replace extra with 0%nat by lia. by rewrite Nat.add_0_r.
    + rewrite !skipn_all2; [done | |]; rewrite ?length_skipn; lia.
Qed.

Section EnricherRequests.

Variable w : world.
Variable timeout : Z.
Variable concurrency : Z.

Lemma enrich_loop_trace (fuel : nat) (queue : list nat) (i : Z)
    (items : list item) :
  (1 <= concurrency)%Z -> (0 <= i)%Z ->
  (Z.of_nat (length queue) <= i + Z.of_nat fuel)%Z ->
  trace (enrich_loop w timeout concurrency fuel queue i items)
  = batch_requests items (skipn (Z.to_nat i) queue).
Proof.
  intros Hc. revert i items. induction fuel as [|fuel IH];
    intros i items Hi Hfuel; cbn [enrich_loop];
    destruct (Z.ltb_spec i (Z.of_nat (length queue))).
  - lia.
  - by rewrite skipn_all2 by lia.
  - rewrite bind_trace. cbn [result trace].
    rewrite IH by lia.
    rewrite (batch_requests_listing
               (assign_results items _) items)
      by apply assign_results_listing.
    rewrite <- batch_requests_app. f_equal.
    by apply js_slice_then_skipn.
  - by rewrite skipn_all2 by lia.
Qed.

Lemma enrich_trace (items : list item) :
  (1 <= concurrency)%Z ->
  trace (enrich w timeout concurrency items)
  = map (fun it => GetDetail (it_permalink it))
        (List.filter has_permalink items).
Proof.
  intros Hc. unfold enrich. destruct items as [|it items]; [done|].
  rewrite enrich_loop_trace by lia.
  change (Z.to_nat 0) with 0%nat. rewrite skipn_O.
  apply batch_requests_queue.
Qed.

End EnricherRequests.

Lemma detail_requests_app (t1 t2 : list request) :
  detail_requests (t1 ++ t2) = detail_requests t1 ++ detail_requests t2.
Proof. apply List.filter_app. Qed.

Lemma detail_requests_cons_listing (u : url) (l : list request) :
  detail_requests (GetListing u :: l) = detail_requests l.
Proof. done. Qed.

Lemma detail_requests_listing (f : nat -> url) (l : list nat) :
  detail_requests (map (fun m => GetListing (f m)) l) = [].
Proof. induction l as [|x l IH]; [done|]. exact IH. Qed.

Lemma detail_requests_detail (f : item -> jsstring) (l : list item) :
  detail_requests (map (fun it => GetDetail (f it)) l)
  = map (fun it => GetDetail (f it)) l.
Proof.
  induction l as [|x l IH]; [done|]. cbn [map]. unfold detail_requests.
  cbn [List.filter is_listing_request negb]. f_equal. exact IH.
Qed.

Lemma permalinks_listing (l1 l2 : list item) :
  map listing_of l1 = map listing_of l2 ->
  map (fun it => GetDetail (it_permalink it)) (List.filter has_permalink l1)
  = map (fun it => GetDetail (it_permalink it))
        (List.filter has_permalink l2).
Proof.
  revert l2. induction l1 as [|a l1 IH]; intros [|b l2] H; try done.
  assert (Hab : it_permalink a = it_permalink b).
  { apply (f_equal (fun l => match l with
                             | x :: _ => it_permalink x
                             | [] => []
                             end)) in H. exact H. }
  assert (Ht : map listing_of l1 = map listing_of l2).
  { apply (f_equal (@tail item)) in H. exact H. }
  assert (Hh : has_permalink a = has_permalink b)
    by (unfold has_permalink; by rewrite Hab).
  cbn [List.filter]. rewrite Hh.
  destruct (has_permalink b); cbn [map]; by rewrite ?Hab, (IH l2 Ht).
Qed.

(** The requests of a single-region search that gets through its walk:
    the first page, the pages of the walk, the detail pages. *)
Lemma search_single_trace (w : world) (query : jsstring) (opts : options)
    (stateList : list jsstring) (fs : pageProps)
    (ads : list (option rawAd)) (st : pstate) :
  listing w (buildUrl query (o_sort opts) MARKETPLACE_DOMAIN 1
                      (head stateList) (o_category opts))
          (default DEFAULT_TIMEOUT (o_timeout opts)) = Body (Some fs) ->
  pp_ads fs = Some ads ->
  result (walk_of w query opts stateList fs ads) = Ok st ->
  trace (search_single w query opts stateList)
  = GetListing (buildUrl query (o_sort opts) MARKETPLACE_DOMAIN 1
                         (head stateList) (o_category opts))
    :: trace (walk_of w query opts stateList fs ads)
    ++ trace (enrich w (default DEFAULT_TIMEOUT (o_timeout opts))
                (default DEFAULT_CONCURRENCY (o_concurrency opts))
                (shaped query opts st)).
Proof.
  intros Hl Hads. unfold search_single, walk_of, shaped. intros Hwalk.
  rewrite bind_trace, fetchListing_trace.
  apply fetchListing_Ok in Hl. rewrite Hl, Hads.
  rewrite bind_trace, Hwalk, bind_trace.
  destruct (result (enrich _ _ _ _)); cbn [trace ret];
    by rewrite ?app_nil_r.
Qed.

(** X8. With a batch size of one or more, the detail pages a search of at most
    one region requests are those of the returned items that have a detail
    link: each once, in result order, and no other. *)
Theorem details_requested_once (w : world) (query : jsstring)
    (opts : options) (r : searchResult) :
  (1 <= default DEFAULT_CONCURRENCY (o_concurrency opts))%Z ->
  (length (stateList_of (o_state opts)) <= 1)%nat ->
  result (search w query opts) = Ok r ->
  detail_requests (trace (search w query opts))
  = map (fun it => GetDetail (it_permalink it))
        (List.filter has_permalink (r_items r)).
Proof.
  intros Hc Hsingle Hr.
  rewrite (search_single_path w query opts r Hr Hsingle) in Hr |- *.
  destruct (search_single_inv w query opts _ r Hr)
    as (fs & ads & st & Hl & Hads & Hwalk & Hen & _).
  destruct (walk_of_run w query opts (stateList_of (o_state opts)) fs ads)
    as (k & _ & Htr & _).
  pose proof (enrich_trace w (default DEFAULT_TIMEOUT (o_timeout opts))
                _ (shaped query opts st) Hc) as Hdet.
  destruct (enrich_listing w (default DEFAULT_TIMEOUT (o_timeout opts))
              (default DEFAULT_CONCURRENCY (o_concurrency opts))
              (shaped query opts st)) as [_ Hsame].
  specialize (Hsame _ Hen).
  rewrite (permalinks_listing _ _ Hsame).
  rewrite (search_single_trace w query opts _ fs ads st Hl Hads Hwalk).
  rewrite Htr, Hdet.
  rewrite detail_requests_cons_listing, detail_requests_app.
  rewrite (detail_requests_listing
             (page_url query (o_sort opts)
                       (head (stateList_of (o_state opts)))
                       (o_category opts))).
  apply detail_requests_detail.
Qed.

(** ** What enrichment does *)

Section EnricherResult.

Variable w : world.
Variable timeout : Z.
Variable concurrency : Z.

Lemma with_detail_idem (it : item) :
  with_detail w timeout (with_detail w timeout it) = with_detail w timeout it.
Proof.
  unfold with_detail.
  destruct (detailOf w (it_permalink it) timeout) as [d|] eqn:Hd.
  - cbn [assign it_permalink]. by rewrite Hd.
  - by rewrite Hd.
Qed.

Lemma lookup_alter_cases {A : Type} (f : A -> A) (l : list A) (i j : nat) :
  alter f i l !! j
  = (fun x => if bool_decide (i = j) then f x else x) <$> l !! j.
Proof.
  rewrite list_lookup_alter. destruct (decide (i = j)) as [-> | Hne].
  - rewrite bool_decide_eq_true_2 by done. by destruct (l !! j).
  - rewrite bool_decide_eq_false_2 by done. by destruct (l !! j).
Qed.

Lemma elem_of_snoc (j idx : nat) (batch : list nat) :
  bool_decide (j ∈ batch ++ [idx])
  = bool_decide (j ∈ batch) || bool_decide (idx = j).
Proof.
  destruct (bool_decide (j ∈ batch)) eqn:Hb.
  - apply bool_decide_eq_true in Hb.
    apply bool_decide_eq_true_2, elem_of_app. by left.
  - apply bool_decide_eq_false in Hb. cbn [orb].
    destruct (bool_decide (idx = j)) eqn:Hi.
    + apply bool_decide_eq_true in Hi. subst.
      apply bool_decide_eq_true_2, elem_of_app. right. by left.
    + apply bool_decide_eq_false in Hi. apply bool_decide_eq_false_2.
      intros [H | H]%elem_of_app; [done|].
      apply list_elem_of_In in H. destruct H as [H | []]. by subst.
Qed.

(** One batch: the items of the batch get their detail, the others are
    left as they are. *)
Lemma assign_results_lookup (items : list item) (batch : list nat)
    (j : nat) :
  assign_results items (fetch_batch w timeout items batch) !! j
  = (fun it => if bool_decide (j ∈ batch) then with_detail w timeout it
               else it) <$> items !! j.
Proof.
  induction batch as [|idx batch IH] using rev_ind.
  - cbn. by destruct (items !! j).
  - unfold fetch_batch, assign_results in *.
    rewrite map_app, fold_left_app. cbn [map fold_left snd fst].
    assert (Hstep :
              forall (dopt : option detail) (prev : list item),
                dopt = match items !! idx with
                       | Some it => detailOf w (it_permalink it) timeout
                       | None => None
                       end ->
                prev !! j
                = (fun it => if bool_decide (j ∈ batch)
                             then with_detail w timeout it else it)
                    <$> items !! j ->
                match dopt with
                | Some d => alter (fun it => assign it d) idx prev
                | None => prev
                end !! j
                = (fun it => if bool_decide (j ∈ batch ++ [idx])
                             then with_detail w timeout it else it)
                    <$> items !! j); [|by apply Hstep].
    intros dopt prev Hdopt Hprev. rewrite elem_of_snoc.
    destruct dopt as [d|].
    + rewrite lookup_alter_cases, Hprev.
      destruct (items !! j) as [x|] eqn:Hj; [|done]. cbn. f_equal.
      destruct (bool_decide (idx = j)) eqn:Hi.
      * apply bool_decide_eq_true in Hi. subst idx. rewrite Hj in Hdopt.
        rewrite orb_true_r. unfold with_detail. rewrite <- Hdopt.
        by destruct (bool_decide (j ∈ batch)).
      * by rewrite orb_false_r.
    + rewrite Hprev. destruct (items !! j) as [x|] eqn:Hj; [|done].
      cbn. f_equal. destruct (bool_decide (idx = j)) eqn:Hi.
      * apply bool_decide_eq_true in Hi. subst idx. rewrite Hj in Hdopt.
        rewrite orb_true_r. unfold with_detail. rewrite <- Hdopt.
        by destruct (bool_decide (j ∈ batch)).
      * by rewrite orb_false_r.
Qed.

(** The loop from position [i] on: the items whose position is in the
    rest of the queue get their detail. *)
Lemma enrich_loop_lookup (fuel : nat) (queue : list nat) (i : Z)
    (items final : list item) (j : nat) :
  (1 <= concurrency)%Z -> (0 <= i)%Z ->
  result (enrich_loop w timeout concurrency fuel queue i items) = Ok final ->
  final !! j
  = (fun it => if bool_decide (j ∈ skipn (Z.to_nat i) queue)
               then with_detail w timeout it else it) <$> items !! j.
Proof.
  intros Hc. revert i items. induction fuel as [|fuel IH];
    intros i items Hi; cbn [enrich_loop];
    destruct (Z.ltb_spec i (Z.of_nat (length queue))); try done.
  - intros [= <-]. rewrite skipn_all2 by lia.
    by destruct (items !! j).
  - unfold bind. cbn [result trace]. intros Hres.
    assert (Hnext : (0 <= i + concurrency)%Z) by lia.
    rewrite (IH _ _ Hnext Hres), assign_results_lookup.
    destruct (items !! j) as [x|]; [|done]. cbn. f_equal.
    rewrite <- (js_slice_then_skipn i concurrency queue Hi Hc).
    set (batch := js_slice i (i + concurrency) queue).
    set (rest := skipn (Z.to_nat (i + concurrency)) queue).
    destruct (bool_decide (j ∈ batch)) eqn:Hb;
      destruct (bool_decide (j ∈ rest)) eqn:Hr.
    + apply bool_decide_eq_true in Hb.
      rewrite bool_decide_eq_true_2 by (apply elem_of_app; by left).
      apply with_detail_idem.
    + apply bool_decide_eq_true in Hb.
      by rewrite bool_decide_eq_true_2 by (apply elem_of_app; by left).
    + apply bool_decide_eq_true in Hr.
      by rewrite bool_decide_eq_true_2 by (apply elem_of_app; by right).
    + apply bool_decide_eq_false in Hb, Hr.
      rewrite bool_decide_eq_false_2; [done|].
      by intros [Hin | Hin]%elem_of_app.
  - intros [= <-]. rewrite skipn_all2 by lia.
    by destruct (items !! j).
Qed.

Lemma queue_of_elem (items : list item) (j : nat) (it : item) :
  items !! j = Some it -> (j ∈ queue_of items <-> has_permalink it = true).
Proof.
  intros Hj. unfold queue_of. rewrite list_elem_of_In, filter_In, Hj.
  unfold has_permalink. split; [by intros [_ H]|]. intros H. split; [|done].
  apply in_seq. apply lookup_lt_Some in Hj. lia.
Qed.

(** Enrichment gives every item the detail of its own link. *)
Lemma enrich_result (items : list item) :
  (1 <= concurrency)%Z ->
  result (enrich w timeout concurrency items)
  = Ok (map (enriched w timeout) items).
Proof.
  intros Hc. destruct (enrich_returns w timeout concurrency items Hc)
    as [final Hfinal].
  rewrite Hfinal. f_equal. rewrite map_fmap. apply list_eq. intros j.
  rewrite list_lookup_fmap. unfold enrich in Hfinal.
  destruct items as [|it0 items]; [by injection Hfinal as <-|].
  rewrite (enrich_loop_lookup _ _ 0%Z _ _ j Hc (Z.le_refl 0) Hfinal).
  change (Z.to_nat 0) with 0%nat. rewrite skipn_O.
  destruct ((it0 :: items) !! j) as [x|] eqn:Hj; [|done].
  cbn. f_equal. unfold enriched.
  pose proof (queue_of_elem _ _ _ Hj) as Hq.
  destruct (has_permalink x).
  - by rewrite bool_decide_eq_true_2 by (by apply Hq).
  - rewrite bool_decide_eq_false_2; [done|]. intros H. by apply Hq in H.
Qed.

End EnricherResult.

Lemma enriched_listing (w : world) (timeout : Z) (it : item) :
  listing_of (enriched w timeout it) = listing_of it.
Proof.
  unfold enriched, with_detail. destruct (has_permalink it); [|done].
  by destruct (detailOf w (it_permalink it) timeout).
Qed.

Lemma search_single_enriched (w : world) (query : jsstring)
    (opts : options) (stateList : list jsstring) (r : searchResult) :
  (1 <= default DEFAULT_CONCURRENCY (o_concurrency opts))%Z ->
  result (search_single w query opts stateList) = Ok r ->
  Forall (fun it => it = enriched w (default DEFAULT_TIMEOUT (o_timeout opts))
                              (listing_of it))
         (r_items r).
Proof.
  intros Hc Hr.
  destruct (search_single_inv w query opts stateList r Hr)
    as (fs & ads & st & Hl & Hads & Hwalk & Hen & _).
  destruct (search_single_walk w query opts stateList fs ads Hl Hads)
    as (k & _ & _ & _ & _ & Hst).
  specialize (Hst st Hwalk).
  rewrite enrich_result in Hen by done. injection Hen as Hen.
  rewrite <- Hen. apply Forall_forall. intros it Hit.
  apply list_elem_of_In, in_map_iff in Hit as (it0 & <- & Hit0).
  rewrite enriched_listing.
  unfold shaped in Hit0. apply shape_In, strict_filter_In in Hit0.
  pose proof (state_after_parsed w query (o_sort opts) (head stateList)
                (o_category opts) (default DEFAULT_TIMEOUT (o_timeout opts))
                ads k) as Hall.
  rewrite Forall_forall in Hall. rewrite <- Hst in Hall.
  by rewrite (Hall it0 (proj2 (list_elem_of_In _ _) Hit0)).
Qed.

(** X9. With a batch size of one or more, every returned item is its listing
    part together with the detail of its own link: the description,
    attributes and seller of the page behind the link when the item has a
    link and the page could be read, and none of them otherwise. *)
Theorem enrichment_is_pointwise (w : world) (query : jsstring)
    (opts : options) (r : searchResult) :
  (1 <= default DEFAULT_CONCURRENCY (o_concurrency opts))%Z ->
  result (search w query opts) = Ok r ->
  Forall (fun it => it = enriched w (default DEFAULT_TIMEOUT (o_timeout opts))
                              (listing_of it))
         (r_items r).
Proof.
  intros Hc.
  apply (search_items_Forall
           (fun it => it = enriched w (default DEFAULT_TIMEOUT
                                               (o_timeout opts))
                                    (listing_of it))).
  intros opts' sl r' [-> | [s ->]] Hr'.
  - exact (search_single_enriched w query opts sl r' Hc Hr').
  - exact (search_single_enriched w query (region_options opts s) sl r'
             Hc Hr').
Qed.

Lemma bind_ext {A B : Type} (m : run A) (k1 k2 : A -> run B) :
  (forall a, k1 a = k2 a) -> bind m k1 = bind m k2.
Proof. intros Hk. unfold bind. destruct (result m); by rewrite ?Hk. Qed.

Lemma run_eq {A : Type} (m1 m2 : run A) :
  trace m1 = trace m2 -> result m1 = result m2 -> m1 = m2.
Proof. destruct m1, m2. cbn. by intros -> ->. Qed.

Lemma enrich_batched (w : world) (timeout c1 c2 : Z) (items : list item) :
  (1 <= c1)%Z -> (1 <= c2)%Z ->
  enrich w timeout c1 items = enrich w timeout c2 items.
Proof.
  intros H1 H2. apply run_eq.
  - by rewrite !enrich_trace.
  - by rewrite !enrich_result.
Qed.

Lemma search_single_batched (w : world) (query : jsstring) (opts : options)
    (stateList : list jsstring) (c1 c2 : Z) :
  (1 <= c1)%Z -> (1 <= c2)%Z ->
  search_single w query (batched c1 opts) stateList
  = search_single w query (batched c2 opts) stateList.
Proof.
  intros H1 H2. unfold search_single.
  cbn [batched o_limit o_timeout o_sort o_concurrency o_category o_strict
       default from_option id].
  apply bind_ext. intros [fs|]; [|done].
  destruct (pp_ads fs) as [ads|]; [|done].
  apply bind_ext. intros st.
  by rewrite (enrich_batched w _ c1 c2 _ H1 H2).
Qed.

Lemma search_batched_single (w : world) (query : jsstring) (opts : options)
    (c1 c2 : Z) :
  (1 <= c1)%Z -> (1 <= c2)%Z ->
  (length (stateList_of (o_state opts)) <= 1)%nat ->
  search w query (batched c1 opts) = search w query (batched c2 opts).
Proof.
  intros H1 H2 Hsingle. rewrite !search_cases.
  cbn [batched o_category o_state].
  destruct (truthy _ && negb _); [done|].
  destruct (List.find _ _); [done|].
  destruct (Nat.ltb_spec 1 (length (stateList_of (o_state opts))));
    [lia|].
  by apply search_single_batched.
Qed.


(** ** Regions that fail *)

Lemma fulfilled_none {A : Type} (settled : list (run A)) :
  Forall (fun r => forall v, result r <> Ok v) settled ->
  fulfilled settled = [].
Proof.
  induction 1 as [|r settled Hr _ IH]; [done|].
  unfold fulfilled in *. cbn [omap list_omap].
  destruct (result r) as [v| |]; [by destruct (Hr v) | done | done].
Qed.

Lemma forallb_find_none (stateList : list jsstring) :
  forallb (has VALID_STATES) stateList = true ->
  List.find (fun s => negb (has VALID_STATES s)) stateList = None.
Proof.
  induction stateList as [|s l IH]; [done|]. simpl.
  intros H. apply andb_true_iff in H as [-> H]. by apply IH.
Qed.

Lemma js_slice_nil {A : Type} (start end_ : Z) :
  js_slice start end_ (@nil A) = [].
Proof. unfold js_slice. by rewrite skipn_nil, firstn_nil. Qed.

Lemma shape_nil (sort : option jsstring) (limit : Z) :
  shape sort limit [] = [].
Proof.
  unfold shape, sort_items.
  destruct (is_sort sort PRICE_ASC), (is_sort sort PRICE_DESC);
    apply js_slice_nil.
Qed.

(** X11. A search over two regions or more, once its category and its regions
    are accepted, returns whatever the network does: a region whose search
    throws is left out, and when every request fails the result is empty,
    with a total of zero and no URL. *)
Theorem multi_region_settles (w : world) (query : jsstring)
    (opts : options) :
  truthy (o_category opts)
  && negb (has CATEGORIES (or_empty (o_category opts))) = false ->
  forallb (has VALID_STATES) (stateList_of (o_state opts)) = true ->
  (1 < length (stateList_of (o_state opts)))%nat ->
  (1 <= default DEFAULT_CONCURRENCY (o_concurrency opts))%Z ->
  exists r,
    result (search w query opts) = Ok r
    /\ ((forall u t, listing w u t = Failed) ->
        r_items r = []
        /\ pg_total (r_pagination r) = 0%Z
        /\ q_url (r_query r) = None).
Proof.
  intros Hcat Hstates Hmulti Hc.
  pose proof (search_returns_or_throws w query opts Hc) as Hno.
  pose proof (forallb_find_none _ Hstates) as Hvalid.
  rewrite search_cases in Hno |- *. rewrite Hcat, Hvalid in Hno |- *.
  destruct (Nat.ltb_spec 1 (length (stateList_of (o_state opts))));
    [|lia].
  unfold search_multi in Hno |- *.
  destruct (never_settles _); [done|].
  eexists. split; [reflexivity|]. intros Hfail. cbn [r_items r_pagination
    r_query pg_total q_url].
  rewrite fulfilled_none.
  - cbn. destruct (default false (o_strict opts)); by rewrite shape_nil.
  - unfold regional_searches. apply Forall_forall. intros run Hrun.
    apply list_elem_of_In, in_map_iff in Hrun as (s & <- & Hs).
    intros v Hv.
    pose proof (find_none _ _ Hvalid s Hs) as Hvs.
    apply negb_false_iff in Hvs.
    rewrite (search_single_path w query (region_options opts s) v Hv
               (stateList_of_valid s Hvs)) in Hv.
    unfold search_single in Hv. apply bind_Ok in Hv as (b & Hb & _).
    apply fetchListing_Ok in Hb. by rewrite Hfail in Hb.
Qed.

(** ** The command line front end *)

Lemma searchRaw_settles (w : world) (query : jsstring) (opts : options) :
  result (searchRaw w query opts) <> Hang.
Proof.
  unfold searchRaw. destruct (truthy _ && negb _); [done|].
  unfold bind, fetchListing.
  by destruct (listing w _ _) as [|[pp|]].
Qed.

Lemma not_positive_false (x : option Z) :
  not_positive x = false -> exists z, x = Some z /\ (1 <= z)%Z.
Proof.
  destruct x as [z|]; [|done]. simpl. intros H.
  exists z. split; [done|]. by apply Z.ltb_ge.
Qed.


(** X13. The note "Returned n of m requested" is written only for a search of
    at most one region, and then only if the strict filter was on or the
    search had requested all 20 pages of its budget: a search over several
    regions that returns fewer items than asked never reports it. *)
Theorem returned_note_cases (w : world) (query : jsstring)
    (opts : options) (r : searchResult) (limit got lim : Z)
    (d : noteDetail) :
  o_limit opts = Some limit ->
  result (search w query opts) = Ok r ->
  cli_note limit r = Some (NoteReturned got lim d) ->
  (length (stateList_of (o_state opts)) <= 1)%nat
  /\ (default false (o_strict opts) = true
      \/ length (listing_requests (trace (search w query opts)))
         = 20%nat).
Proof.
  intros Hlimit Hr Hnote. unfold cli_note in Hnote.
  destruct (Z.ltb_spec (Z.of_nat (length (r_items r))) limit) as [Hgot|];
    [|by destruct (_ && _)].
  destruct (pg_capped (r_pagination r)) eqn:Hcap; [|done]. clear Hnote.
  destruct (Nat.ltb_spec 1 (length (stateList_of (o_state opts))))
    as [Hmulti | Hsingle].
  - exfalso.
    rewrite (search_multi_path w query opts r Hr Hmulti) in Hr.
    destruct (search_multi_items _ _ _ _ _ Hr) as (_ & _ & Hc).
    rewrite Hcap, Hlimit in Hc. symmetry in Hc. apply Z.leb_le in Hc.
    simpl in Hc. lia.
  - split; [done|].
    rewrite (search_single_path w query opts r Hr Hsingle) in Hr |- *.
    destruct (search_single_items w query opts _ r Hr)
      as (fs & ads & k & _ & _ & Hk & Htr & Hitems & Hc & _).
    destruct (default false (o_strict opts)) eqn:Hstrict; [by left|].
    right. rewrite Htr, length_map, length_seq.
    rewrite Hcap in Hc. symmetry in Hc. unfold capped_of in Hc.
    rewrite state_after_currentPage in Hc by (done || lia).
    apply orb_true_iff in Hc as [Hc | Hc].
    + exfalso. apply Z.leb_le in Hc. rewrite Hlimit in Hc. simpl in Hc.
      apply (f_equal (@length item)) in Hitems.
      rewrite !length_map in Hitems. rewrite Hitems in Hgot.
      unfold shaped, shape in Hgot. rewrite Hstrict, Hlimit in Hgot.
      simpl in Hgot. unfold strict_filter in Hgot.
      destruct (Z_lt_le_dec limit 0) as [Hneg | Hpos]; [lia|].
      rewrite js_slice_0_nonneg in Hgot by done.
      rewrite length_firstn in Hgot.
      pose proof (Permutation_length
                    (sort_items_perm (o_sort opts)
                       (ps_items
                          (state_after w query (o_sort opts)
                             (head (stateList_of (o_state opts)))
                             (o_category opts)
                             (default DEFAULT_TIMEOUT (o_timeout opts))
                             (first_state ads) k)))) as Hlen.
      lia.
    + apply andb_true_iff in Hc as [Hc _]. apply Nat.leb_le in Hc.
      unfold MAX_PAGES in *. lia.
Qed.

(** * Properties of the front end and of the helpers *)

(** ** CSV output *)

Lemma read_bare_plain (s rest : jsstring) :
  existsb (fun c => c =? COMMA) s = false ->
  rest = [] \/ (exists r, rest = COMMA :: r) ->
  read_bare (s ++ rest) = (s, rest).
Proof.
  intros Hs Hrest. induction s as [|c s IH]; simpl.
  - by destruct Hrest as [-> | [r ->]].
  - simpl in Hs. apply orb_false_iff in Hs as [Hc Hs].
    rewrite Hc, (IH Hs). done.
Qed.

Lemma read_quoted_doubled (s rest : jsstring) :
  rest = [] \/ (exists r, rest = COMMA :: r) ->
  read_quoted (replace_char QUOTE [QUOTE; QUOTE] s ++ QUOTE :: rest)
  = (s, rest).
Proof.
  intros Hrest. induction s as [|c s IH].
  - simpl. destruct Hrest as [-> | [r ->]]; done.
  - unfold replace_char in *. cbn [flat_map].
    destruct (N.eqb_spec c QUOTE) as [-> | Hc].
    + cbn [app read_quoted]. rewrite !N.eqb_refl. by rewrite IH.
    + cbn [app read_quoted].
      replace (c =? QUOTE) with false by (symmetry; by apply N.eqb_neq).
      by rewrite IH.
Qed.

Lemma needs_quotes_false (s : jsstring) :
  needs_quotes s = false ->
  existsb (fun c => c =? COMMA) s = false
  /\ match s with
     | c :: _ => (c =? QUOTE) = false
     | [] => True
     end.
Proof.
  unfold needs_quotes. intros H. split.
  - induction s as [|c s IH]; [done|]. simpl in *.
    apply orb_false_iff in H as [Hc H].
    rewrite !orb_false_iff in Hc. destruct Hc as [[[-> _] _] _].
    by rewrite IH.
  - destruct s as [|c s]; [done|]. simpl in H.
    apply orb_false_iff in H as [Hc _].
    rewrite !orb_false_iff in Hc. by destruct Hc as [[[_ ->] _] _].
Qed.

(** A cell, followed by a comma or by the end of the record, reads back
    as the text it was written for. *)
Lemma read_field_cell (v : option jsstring) (rest : jsstring) :
  rest = [] \/ (exists r, rest = COMMA :: r) ->
  read_field (csv_cell v ++ rest) = (default [] v, rest).
Proof.
  intros Hrest. destruct v as [s|]; simpl.
  - destruct (needs_quotes s) eqn:Hq.
    + cbn [app read_field]. rewrite N.eqb_refl. rewrite <- app_assoc.
      by apply read_quoted_doubled.
    + apply needs_quotes_false in Hq as [Hcomma Hfirst].
      destruct s as [|c s].
      * simpl. by destruct Hrest as [-> | [r ->]].
      * cbn [app read_field]. rewrite Hfirst.
        by apply (read_bare_plain (c :: s)).
  - by destruct Hrest as [-> | [r ->]].
Qed.

Lemma read_fields_cells (vs : list (option jsstring)) (fuel : nat) :
  vs <> [] ->
  (length (join_with COMMA (map csv_cell vs)) <= fuel)%nat ->
  read_fields fuel (join_with COMMA (map csv_cell vs))
  = map (default []) vs.
Proof.
  revert fuel. induction vs as [|v vs IH]; intros fuel Hne Hfuel; [done|].
  destruct vs as [|v' vs].
  - cbn [map join_with]. destruct fuel as [|fuel]; cbn [read_fields].
    + rewrite <- (app_nil_r (csv_cell v)).
      rewrite read_field_cell by (by left). done.
    + rewrite <- (app_nil_r (csv_cell v)).
      rewrite read_field_cell by (by left). done.
  - change (join_with COMMA (map csv_cell (v :: v' :: vs)))
      with (csv_cell v ++ COMMA :: join_with COMMA (map csv_cell (v' :: vs)))
      in Hfuel |- *.
    rewrite length_app in Hfuel. cbn [length] in Hfuel.
    destruct fuel as [|fuel]; [lia|].
    cbn [read_fields]. rewrite read_field_cell by (right; by eexists).
    cbn [map]. f_equal. apply IH; [done | lia].
Qed.


(** ** The projection on fields *)

Section ObjectFacts.

Context {V : Type}.
Variable proto : jsstring -> option V.

Lemma keys_put (k : jsstring) (v : V) (o : @object V) :
  keys (put k v o)
  = if bool_decide (k ∈ keys o) then keys o else keys o ++ [k].
Proof.
  unfold keys. induction o as [|[k' v'] o IH]; [done|]. cbn [put].
  destruct (bool_decide (k' = k)) eqn:Hk.
  - apply bool_decide_eq_true in Hk. subst k'. cbn [map fst].
    rewrite bool_decide_eq_true_2 by (by left). done.
  - apply bool_decide_eq_false in Hk.
    cbn [map fst]. rewrite IH.
    destruct (bool_decide (k ∈ map fst o)) eqn:Hin.
    + apply bool_decide_eq_true in Hin.
      by rewrite bool_decide_eq_true_2 by (by right).
    + apply bool_decide_eq_false in Hin.
      rewrite bool_decide_eq_false_2; [done|].
      intros [Heq | H]%elem_of_cons; [by subst | done].
Qed.

Lemma own_put (f k : jsstring) (v : V) (o : @object V) :
  own f (put k v o) = if bool_decide (k = f) then Some v else own f o.
Proof.
  induction o as [|[k' v'] o IH]; [done|]. cbn [put].
  destruct (bool_decide (k' = k)) eqn:Hk.
  - apply bool_decide_eq_true in Hk. subst k'. cbn [own].
    by destruct (bool_decide (k = f)).
  - apply bool_decide_eq_false in Hk. cbn [own]. rewrite IH.
    destruct (bool_decide (k' = f)) eqn:Hf; [|done].
    apply bool_decide_eq_true in Hf. subst k'.
    by rewrite bool_decide_eq_false_2 by congruence.
Qed.

Local Abbreviation step item :=
  (fun (filtered : @object V) f =>
     match read proto f item with
     | Some v => if bool_decide (f = PROTO) then filtered
                 else put f v filtered
     | None => filtered
     end).

Lemma select_fields_from (item acc : @object V) (fields : list jsstring) :
  keys (fold_left (step item) fields acc)
  = keys acc
    ++ first_occurrences (keys acc)
         (List.filter (selected proto item) fields)
  /\ forall f,
       own f (fold_left (step item) fields acc)
       = if bool_decide (f ∈ List.filter (selected proto item) fields)
         then read proto f item
         else own f acc.
Proof.
  revert acc. induction fields as [|f0 fields IH]; intros acc.
  - split; [by rewrite app_nil_r | done].
  - cbn [fold_left List.filter].
    destruct (selected proto item f0) eqn:Hsel; unfold selected in Hsel;
      destruct (read proto f0 item) as [v|] eqn:Hread; try done;
      try exact (IH acc).
    2: { apply negb_false_iff in Hsel. rewrite Hsel. exact (IH acc). }
    apply negb_true_iff in Hsel. rewrite Hsel.
    destruct (IH (put f0 v acc)) as [IHk IHo]. split.
    + rewrite IHk, keys_put. cbn [first_occurrences].
      destruct (bool_decide (f0 ∈ keys acc)); [done|].
      by rewrite <- app_assoc.
    + intros f. rewrite IHo, own_put.
      destruct (bool_decide (f ∈ List.filter (selected proto item) fields))
        eqn:Hin.
      * apply bool_decide_eq_true in Hin.
        by rewrite bool_decide_eq_true_2 by (by right).
      * apply bool_decide_eq_false in Hin.
        destruct (bool_decide (f0 = f)) eqn:Hf.
        -- apply bool_decide_eq_true in Hf. subst f0.
           by rewrite bool_decide_eq_true_2 by (by left).
        -- apply bool_decide_eq_false in Hf.
           rewrite bool_decide_eq_false_2; [done|].
           intros [Heq | H]%elem_of_cons; [by subst | done].
Qed.

(** X15. The projection keeps the fields asked for that the item has, in the
    order in which they are first asked, each once, with the value the
    item gives; a name the item does not have is left out, and nothing
    else gets in. *)
Theorem select_fields_spec (fields : list jsstring) (item : @object V) :
  keys (select_fields proto fields item)
  = first_occurrences [] (List.filter (selected proto item) fields)
  /\ forall f,
       own f (select_fields proto fields item)
       = if bool_decide (f ∈ fields) && selected proto item f
         then read proto f item
         else None.
Proof.
  destruct (select_fields_from item [] fields) as [Hk Ho].
  split; [exact Hk|]. intros f. unfold select_fields. rewrite Ho.
  destruct (bool_decide (f ∈ List.filter (selected proto item) fields))
    eqn:Hin.
  - apply bool_decide_eq_true, list_elem_of_In, filter_In in Hin
      as [Hin ->].
    by rewrite bool_decide_eq_true_2 by (by apply list_elem_of_In).
  - apply bool_decide_eq_false in Hin.
    destruct (bool_decide (f ∈ fields)) eqn:Hf; [|done].
    destruct (selected proto item f) eqn:Hs; [|done]. exfalso.
    apply bool_decide_eq_true in Hf.
    apply Hin, list_elem_of_In, filter_In.
    split; [by apply list_elem_of_In | done].
Qed.

End ObjectFacts.

(** ** Escaping for the page *)

Lemma flat_map_flat_map' {A B C : Type} (f : A -> list B)
    (g : B -> list C) (l : list A) :
  flat_map g (flat_map f l) = flat_map (fun x => flat_map g (f x)) l.
Proof.
  induction l as [|x l IH]; [done|]. simpl.
  by rewrite flat_map_app, IH.
Qed.

Lemma esc_one (c : N) : esc (Some [c]) = esc_char c.
Proof.
  unfold esc, esc_char, replace_char.
  destruct (N.eqb_spec c 38) as [-> | H38]; [reflexivity|].
  destruct (N.eqb_spec c 60) as [-> | H60]; [reflexivity|].
  destruct (N.eqb_spec c 62) as [-> | H62]; [reflexivity|].
  destruct (N.eqb_spec c 34) as [-> | H34]; [reflexivity|].
  apply N.eqb_neq in H38, H60, H62, H34.
  simpl. rewrite H38. simpl. rewrite H60. simpl. rewrite H62. simpl.
  by rewrite H34.
Qed.

(** X16. [esc] turns each of the four characters into its entity and leaves
    every other code unit as it is, the entities written being left alone
    by the later replacements; its output holds no angle bracket and no
    quote. *)
Theorem esc_is_safe (s : option jsstring) :
  esc s = flat_map esc_char (default [] s)
  /\ Forall (fun c => c <> 60 /\ c <> 62 /\ c <> 34) (esc s).
Proof.
  assert (Heq : esc s = flat_map esc_char (default [] s)).
  { unfold esc, replace_char. rewrite !flat_map_flat_map'.
    apply flat_map_ext. intros c. rewrite <- esc_one.
    unfold esc, replace_char. change (default [] (Some [c])) with [c].
    cbn [flat_map]. rewrite app_nil_r. by rewrite !flat_map_flat_map'. }
  split; [exact Heq|]. rewrite Heq.
  apply Forall_forall. intros x Hx.
  apply list_elem_of_In, in_flat_map in Hx as (c & _ & Hx).
  unfold esc_char in Hx.
  destruct (N.eqb_spec c 38);
    [cbn in Hx; intuition (subst; lia)|].
  destruct (N.eqb_spec c 60);
    [cbn in Hx; intuition (subst; lia)|].
  destruct (N.eqb_spec c 62);
    [cbn in Hx; intuition (subst; lia)|].
  destruct (N.eqb_spec c 34);
    [cbn in Hx; intuition (subst; lia)|].
  destruct Hx as [<- | []]. lia.
Qed.

(** ** Fetching through curl *)

(** X17. The time given to curl is a whole number of seconds, one at least,
    never less than the time asked for and, for a positive time, less than
    a second more. *)
Theorem curl_timeout_bounds (timeout : Z) :
  (1 <= curl_timeout timeout)%Z
  /\ (timeout <= 1000 * curl_timeout timeout)%Z
  /\ ((1 <= timeout)%Z -> (1000 * (curl_timeout timeout - 1) < timeout)%Z).
Proof.
  unfold curl_timeout.
  pose proof (Z.div_mod (- timeout) 1000 ltac:(lia)) as Hdm.
  pose proof (Z.mod_pos_bound (- timeout) 1000 ltac:(lia)) as Hb.
  lia.
Qed.

Lemma lastIndexOf_fold (c : N) (s : jsstring) (i l : Z) :
  (fold_left (fun acc x => ((acc.1 + 1)%Z, if x =? c then acc.1 else acc.2))
             s (i, l)).1 = (i + Z.of_nat (length s))%Z
  /\ (c ∉ s ->
      (fold_left (fun acc x => ((acc.1 + 1)%Z,
                                if x =? c then acc.1 else acc.2))
                 s (i, l)).2 = l).
Proof.
  revert i l. induction s as [|x s IH]; intros i l.
  - split; [simpl; lia | done].
  - cbn [fold_left fst snd]. destruct (IH (i + 1)%Z
                                          (if x =? c then i else l))
      as [IH1 IH2].
    split; [rewrite IH1; cbn [length]; lia|].
    intros Hc. apply not_elem_of_cons in Hc as [Hx Hc].
    rewrite IH2 by done.
    by replace (x =? c) with false by (symmetry; by apply N.eqb_neq).
Qed.

Lemma lastIndexOf_last (c : N) (body code : jsstring) :
  c ∉ code -> lastIndexOf c (body ++ c :: code) = Z.of_nat (length body).
Proof.
  intros Hc. unfold lastIndexOf. rewrite fold_left_app.
  destruct (fold_left _ body (0%Z, (-1)%Z)) as [i l] eqn:E.
  pose proof (proj1 (lastIndexOf_fold c body 0 (-1))) as Hi.
  rewrite E in Hi. cbn [fst] in Hi.
  cbn [fold_left fst snd]. rewrite N.eqb_refl.
  rewrite (proj2 (lastIndexOf_fold c code (i + 1) i)) by done. lia.
Qed.

Lemma js_slice_front {A : Type} (a b : list A) :
  js_slice 0 (Z.of_nat (length a)) (a ++ b) = a.
Proof.
  rewrite js_slice_0_nonneg by lia. rewrite Nat2Z.id.
  by rewrite firstn_app, Nat.sub_diag, firstn_all, app_nil_r.
Qed.

Lemma js_slice_middle {A : Type} (a b c : list A) :
  js_slice (Z.of_nat (length a)) (Z.of_nat (length a + length b))
           (a ++ b ++ c) = b.
Proof.
  unfold js_slice. rewrite !length_app.
  destruct (Z.ltb_spec (Z.of_nat (length a)) 0); [lia|].
  destruct (Z.ltb_spec (Z.of_nat (length a + length b)) 0); [lia|].
  rewrite !Z.min_l by lia.
  replace (Z.to_nat (Z.of_nat (length a + length b) - Z.of_nat (length a)))
    with (length b) by lia.
  rewrite Nat2Z.id. rewrite skipn_app, Nat.sub_diag, skipn_all.
  cbn [app]. rewrite skipn_O.
  by rewrite firstn_app, Nat.sub_diag, firstn_all, app_nil_r.
Qed.

Lemma digit_cases (c : N) :
  is_digit c = true ->
  c = 48 \/ c = 49 \/ c = 50 \/ c = 51 \/ c = 52 \/ c = 53 \/ c = 54
  \/ c = 55 \/ c = 56 \/ c = 57.
Proof.
  unfold is_digit, between. intros H.
  apply andb_true_iff in H as [H1 H2].
  apply N.leb_le in H1, H2. lia.
Qed.

Lemma digit_not_space (c : N) : is_digit c = true -> is_space c = false.
Proof.
  intros H. apply digit_cases in H.
  repeat (destruct H as [-> | H]; [reflexivity|]). by subst.
Qed.

Lemma drop_space_digits (s : jsstring) :
  forallb is_digit s = true -> drop_space s = s.
Proof.
  destruct s as [|c s]; [done|]. simpl. intros H.
  apply andb_true_iff in H as [H _]. by rewrite digit_not_space.
Qed.

Lemma trim_digits (s : jsstring) :
  forallb is_digit s = true -> trim s = s.
Proof.
  intros H. unfold trim. rewrite (drop_space_digits s H).
  rewrite drop_space_digits; [apply rev_involutive|].
  apply forallb_forall. intros x Hx. apply in_rev in Hx.
  revert x Hx. by apply forallb_forall.
Qed.

Lemma take_digits_all (s : jsstring) :
  forallb is_digit s = true -> take_digits s = (s, []).
Proof.
  induction s as [|c s IH]; [done|]. simpl. intros H.
  apply andb_true_iff in H as [-> H]. by rewrite IH.
Qed.

Lemma parseInt_digits (s : jsstring) :
  s <> [] -> forallb is_digit s = true ->
  parseInt s = Some (digits_value s).
Proof.
  intros Hne H. unfold parseInt. rewrite (drop_space_digits s H).
  destruct s as [|c s]; [done|].
  pose proof (take_digits_all (c :: s) H) as Htd.
  assert (Hc : is_digit c = true).
  { simpl in H. by apply andb_true_iff in H as [H _]. }
  apply digit_cases in Hc.
  repeat (destruct Hc as [-> | Hc];
          [cbv beta iota zeta; by rewrite Htd|]).
  subst c. cbv beta iota zeta. by rewrite Htd.
Qed.

(** X18. When [fetch] does not give the page, the page is what curl printed
    before its last line break, line breaks of the page included, provided
    the status code printed after it is below 400; from 400 on the fetch
    fails with that status. *)
Theorem fetchPage_through_curl (t : transports) (url : jsstring)
    (timeout : Z) (e : fetchError) (body code : jsstring) :
  fetchWithFetch t url timeout = inl e ->
  curl t url (curl_timeout timeout) = Some (body ++ LF :: code) ->
  code <> [] ->
  forallb is_digit code = true ->
  fetchPage t url timeout
  = if (400 <=? digits_value code)%Z
    then inl (HttpStatus (digits_value code))
    else inr body.
Proof.
  intros Hfetch Hcurl Hne Hdigits.
  unfold fetchPage, fetchWithCurl. rewrite Hfetch, Hcurl.
  unfold curl_result.
  assert (Hlf : LF ∉ code).
  { intros Hin. apply list_elem_of_In in Hin.
    pose proof (proj1 (forallb_forall _ _) Hdigits LF Hin) as H.
    discriminate. }
  rewrite (lastIndexOf_last LF body code Hlf).
  rewrite js_slice_front.
  replace (js_slice (Z.of_nat (length body) + 1)
                    (Z.of_nat (length (body ++ LF :: code)))
                    (body ++ LF :: code))
    with code.
  - rewrite (trim_digits code Hdigits), (parseInt_digits code Hne Hdigits).
    done.
  - pose proof (js_slice_middle (body ++ [LF]) code []) as H.
    rewrite app_nil_r, <- app_assoc in H. cbn [app] in H.
    rewrite <- H at 1. f_equal; rewrite !length_app; cbn [length]; lia.
Qed.

(** ** Extracting the page data *)

Lemma starts_with_app (t rest : jsstring) : starts_with t (t ++ rest) = true.
Proof. apply starts_with_spec. by exists rest. Qed.

Lemma includes_cons_false (a : N) (p t : jsstring) :
  includes (a :: p) t = false ->
  starts_with t (a :: p) = false /\ includes p t = false.
Proof.
  intros H. cbn [includes] in H. apply orb_false_iff in H. exact H.
Qed.

(** A text whose first code unit does not occur again in it is found where
    it first stands whole. *)
Lemma index_from_first (c : N) (t' pre rest : jsstring) (j : Z) :
  c ∉ t' ->
  includes pre (c :: t') = false ->
  index_from (c :: t') (pre ++ (c :: t') ++ rest) j
  = (j + Z.of_nat (length pre))%Z.
Proof.
  intros Hc. revert j. induction pre as [|a p IH]; intros j Hpre.
  - pose proof (starts_with_app (c :: t') rest) as Hs.
    cbn [app] in Hs. cbn [app length index_from]. rewrite Hs. lia.
  - apply includes_cons_false in Hpre as [Hstart Hp].
    assert (Hno : starts_with (c :: t') ((a :: p) ++ (c :: t') ++ rest)
                  = false).
    { destruct (starts_with (c :: t') ((a :: p) ++ (c :: t') ++ rest))
        eqn:Hs; [|done]. exfalso.
      apply starts_with_spec in Hs as [post Hs].
      apply app_eq_app in Hs as [l [[Hx Hy] | [Hx Hy]]].
      - assert (starts_with (c :: t') (a :: p) = true)
          by (apply starts_with_spec; by exists l).
        congruence.
      - destruct l as [|c0 l].
        + rewrite app_nil_r in Hx.
          assert (starts_with (c :: t') (a :: p) = true)
            by (apply starts_with_spec; exists []; by rewrite app_nil_r).
          congruence.
        + cbn [app] in Hy. injection Hy as <- _.
          cbn [app] in Hx. injection Hx as _ Hx.
          apply Hc. rewrite Hx. apply elem_of_app. right. by left. }
    specialize (IH (j + 1)%Z Hp).
    cbn [app] in Hno, IH |- *. cbn [index_from]. rewrite Hno, IH.
    cbn [length]. lia.
Qed.

Lemma index_from_absent (t s : jsstring) (j : Z) :
  includes s t = false -> index_from t s j = (-1)%Z.
Proof.
  revert j. induction s as [|a s IH]; intros j H.
  - cbn [includes] in H. apply orb_false_iff in H as [H _].
    cbn [index_from]. by rewrite H.
  - apply includes_cons_false in H as [H1 H2].
    cbn [index_from]. rewrite H1. by apply IH.
Qed.

Lemma indexOf_first (c : N) (t' pre rest done_ : jsstring) :
  c ∉ t' ->
  includes pre (c :: t') = false ->
  indexOf (done_ ++ pre ++ (c :: t') ++ rest) (c :: t')
          (Z.of_nat (length done_))
  = Z.of_nat (length done_ + length pre).
Proof.
  intros Hc Hpre. unfold indexOf.
  rewrite Z.max_l by lia. rewrite Z.min_l by (rewrite length_app; lia).
  rewrite Nat2Z.id, skipn_app, Nat.sub_diag, skipn_all.
  rewrite app_nil_l, skipn_O.
  rewrite index_from_first by done. lia.
Qed.

Lemma marker_shapes :
  (exists t', NEXT_DATA_MARKER = LT :: t' /\ LT ∉ t')
  /\ (exists t', SCRIPT_END = LT :: t' /\ LT ∉ t').
Proof.
  split; eexists; (split; [reflexivity|]); intros H;
    apply list_elem_of_In in H; vm_compute in H;
    repeat (destruct H as [H | H]; [discriminate|]); exact H.
Qed.

(** X19. The page data is what stands between the first marker of the page and
    the first end of script after it, whatever comes before and after:
    [extractNextData] hands exactly that text to the JSON parser, and gives
    [null] when the text does not parse or the page holds no marker. *)
Theorem extractNextData_payload (JSON_parse : jsstring -> option json)
    (pre payload post : jsstring) :
  (includes pre NEXT_DATA_MARKER = false ->
   includes payload SCRIPT_END = false ->
   extractNextData JSON_parse
     (pre ++ NEXT_DATA_MARKER ++ payload ++ SCRIPT_END ++ post)
   = match JSON_parse payload with
     | Some data => pageProps_of data
     | None => None
     end)
  /\ (includes pre NEXT_DATA_MARKER = false ->
      extractNextData JSON_parse pre = None).
Proof.
  destruct marker_shapes as [(m' & Hm & Hm') (e' & He & He')]. split.
  - intros Hpre Hpayload. unfold extractNextData.
    pose proof (indexOf_first LT m' pre (payload ++ SCRIPT_END ++ post) []
                  Hm') as Hidx.
    rewrite <- Hm in Hidx. cbn [app length Nat.add] in Hidx.
    change (Z.of_nat 0) with 0%Z in Hidx.
    rewrite (Hidx Hpre). clear Hidx.
    destruct (Z.ltb_spec (Z.of_nat (length pre)) 0); [lia|].
    rewrite <- Nat2Z.inj_add, <- length_app.
    pose proof (indexOf_first LT e' payload post (pre ++ NEXT_DATA_MARKER)
                  He') as Hend.
    rewrite <- He, <- !app_assoc in Hend.
    rewrite (Hend Hpayload). clear Hend.
    destruct (Z.ltb_spec (Z.of_nat (length (pre ++ NEXT_DATA_MARKER)
                                    + length payload)) 0); [lia|].
    pose proof (js_slice_middle (pre ++ NEXT_DATA_MARKER) payload
                  (SCRIPT_END ++ post)) as Hslice.
    rewrite <- !app_assoc in Hslice. by rewrite Hslice.
  - intros Hpre. unfold extractNextData, indexOf.
    rewrite Z.max_l by lia. rewrite Z.min_l by lia.
    change (Z.to_nat 0) with 0%nat. rewrite skipn_O.
    by rewrite index_from_absent.
Qed.

(** ** The description of a detail page *)

Lemma until_gt_None (s : jsstring) : until_gt s = None <-> GT ∉ s.
Proof.
  induction s as [|c s IH]; [split; [intros _ H; inversion H | done]|].
  cbn [until_gt]. destruct (N.eqb_spec c GT) as [-> | Hc].
  - split; [done | intros H; destruct H; by left].
  - rewrite not_elem_of_cons. destruct (until_gt s); simpl.
    + split; [done | intros [_ H]; by apply IH in H].
    + split; [intros _; split; [congruence | by apply IH] | done].
Qed.

Lemma match_tag_not_lt (c : N) (r : jsstring) :
  c <> LT -> match_tag (c :: r) = None.
Proof.
  intros Hc. unfold match_tag. destruct r as [|c' r]; [done|].
  by replace (c =? LT) with false by (symmetry; by apply N.eqb_neq).
Qed.

Lemma match_tag_lt_None (r : jsstring) :
  match_tag (LT :: r) = None <->
  r = [] \/ (exists r', r = GT :: r') \/ GT ∉ r.
Proof.
  unfold match_tag. destruct r as [|c r]; [split; [by left | done]|].
  rewrite N.eqb_refl. cbn [andb].
  destruct (N.eqb_spec c GT) as [-> | Hc]; cbn [negb].
  - split; [intros _; right; left; by eexists | done].
  - destruct (until_gt r) eqn:Hu; simpl.
    + split; [done|]. intros [H | [[r' H] | H]]; [done | congruence |].
      apply not_elem_of_cons in H as [_ H].
      apply until_gt_None in H. congruence.
    + split; [|done]. intros _. right. right.
      apply not_elem_of_cons. split; [congruence|].
      by apply until_gt_None.
Qed.

Lemma match_tag_app (a b : jsstring) :
  match_tag (a ++ b) = None -> match_tag a = None.
Proof.
  destruct a as [|lt [|c r]]; [done | done |].
  cbn [app]. unfold match_tag.
  destruct ((lt =? LT) && negb (c =? GT)); [|done].
  destruct (until_gt (r ++ b)) eqn:H1; [done|]. intros _.
  apply until_gt_None in H1.
  assert (H2 : GT ∉ r) by (intros H; apply H1, elem_of_app; by left).
  apply until_gt_None in H2. by rewrite H2.
Qed.

Lemma replace_matches_elem (matches : jsstring -> option nat) (k : nat)
    (s : jsstring) (x : N) :
  x ∈ replace_matches matches [] k s -> x ∈ s.
Proof.
  revert k. induction s as [|c s IH]; intros k; [done|].
  cbn [replace_matches]. destruct k as [|k].
  - destruct (matches (c :: s)) as [[|n]|].
    + intros [-> | H]%elem_of_cons; [by left | right; by eapply IH].
    + cbn [app]. intros H. right. by eapply IH.
    + intros [-> | H]%elem_of_cons; [by left | right; by eapply IH].
  - intros H. right. by eapply IH.
Qed.

Lemma tagless_nil : tagless [].
Proof.
  intros pre post H. symmetry in H. apply app_eq_nil in H as [_ ->]. done.
Qed.

Lemma tagless_cons (c : N) (l : jsstring) :
  match_tag (c :: l) = None -> tagless l -> tagless (c :: l).
Proof.
  intros Hc Hl pre post H. destruct pre as [|a pre].
  - cbn [app] in H. by subst post.
  - cbn [app] in H. injection H as _ H. by eapply Hl.
Qed.

(** Once the tags are removed, no tag is left: an opening bracket that
    stays has a closing bracket right after it, or none after it. *)
Lemma strip_tags_tagless (k : nat) (s : jsstring) :
  tagless (replace_matches match_tag [] k s).
Proof.
  revert k. induction s as [|c s IH]; intros k; [apply tagless_nil|].
  cbn [replace_matches]. destruct k as [|k]; [|apply IH].
  destruct (match_tag (c :: s)) as [[|n]|] eqn:Hm; [| apply IH |].
  - unfold match_tag in Hm. destruct s as [|c' s]; [done|].
    destruct ((c =? LT) && negb (c' =? GT)); [|done].
    by destruct (until_gt s).
  - apply tagless_cons; [|apply IH].
    destruct (N.eqb_spec c LT) as [-> | Hc];
      [|by apply match_tag_not_lt].
    apply match_tag_lt_None.
    apply match_tag_lt_None in Hm as [-> | [[r' ->] | Hgt]].
    + by left.
    + right. left. cbn [replace_matches].
      rewrite match_tag_not_lt by done. by eexists.
    + right. right. intros Hin. apply Hgt.
      by eapply replace_matches_elem.
Qed.

Lemma drop_space_suffix (s : jsstring) :
  exists pre, s = pre ++ drop_space s.
Proof.
  induction s as [|c s [pre IH]]; [by exists []|]. cbn [drop_space].
  destruct (is_space c); [|by exists []].
  exists (c :: pre). cbn [app]. by f_equal.
Qed.

Lemma drop_space_head (s : jsstring) :
  match drop_space s with
  | c :: _ => is_space c = false
  | [] => True
  end.
Proof.
  induction s as [|c s IH]; [done|]. cbn [drop_space].
  by destruct (is_space c) eqn:Hc.
Qed.

Lemma drop_space_fixed (s : jsstring) :
  match s with
  | c :: _ => is_space c = false
  | [] => True
  end ->
  drop_space s = s.
Proof. destruct s as [|c s]; [done|]. simpl. by intros ->. Qed.

Lemma trim_prefix_suffix (s : jsstring) :
  exists pre post, s = pre ++ trim s ++ post.
Proof.
  unfold trim. destruct (drop_space_suffix s) as [pre Hpre].
  destruct (drop_space_suffix (rev (drop_space s))) as [sp Hsp].
  exists pre, (rev sp). rewrite Hpre at 1. f_equal.
  rewrite <- rev_app_distr, <- Hsp. by rewrite rev_involutive.
Qed.

Lemma trim_ends (s : jsstring) :
  drop_space (trim s) = trim s /\ drop_space (rev (trim s)) = rev (trim s).
Proof.
  unfold trim. rewrite rev_involutive. split.
  - apply drop_space_fixed.
    destruct (drop_space_suffix (rev (drop_space s))) as [sp Hsp].
    pose proof (drop_space_head s) as Hhead.
    destruct (rev (drop_space (rev (drop_space s)))) as [|c t] eqn:Ht;
      [done|].
    apply (f_equal (@rev N)) in Hsp.
    rewrite rev_involutive, rev_app_distr, Ht in Hsp.
    cbn [app] in Hsp. by rewrite Hsp in Hhead.
  - apply drop_space_fixed. apply drop_space_head.
Qed.

Lemma tagless_trim (s : jsstring) : tagless s -> tagless (trim s).
Proof.
  intros Hs pre post H.
  destruct (trim_prefix_suffix s) as (a & b & Hab).
  apply (match_tag_app post b). apply (Hs (a ++ pre)).
  rewrite Hab, H. by rewrite <- !app_assoc.
Qed.

(** X20. The description kept from a detail page holds no tag, whatever the
    page put in it, and neither starts nor ends with white space. *)
Theorem description_has_no_tag (description : option jsstring)
    (text : jsstring) :
  clean_description description = Some text ->
  tagless text
  /\ drop_space text = text
  /\ drop_space (rev text) = rev text.
Proof.
  unfold clean_description. destruct (truthy description); [|done].
  intros [= <-]. split; [|apply trim_ends].
  apply tagless_trim, strip_tags_tagless.
Qed.

(** ** The logger *)

Section LoggerFacts.

Variable clock : nat -> jsstring.
Variable path_join : jsstring -> jsstring -> jsstring.
Variable project_root : jsstring.
Variable version platform arch cwd : jsstring.
Variable argv : list jsstring.

Local Abbreviation call :=
  (logger_call clock path_join project_root version platform arch cwd argv).

Lemma log_fields (tag message : jsstring) (data : option jsstring)
    (st : logger) :
  logStream (log clock tag message data st) = logStream st
  /\ enabled (log clock tag message data st) = enabled st
  /\ logFilePath (log clock tag message data st) = logFilePath st.
Proof.
  unfold log. destruct (enabled st) eqn:He, (logStream st) eqn:Hs;
    cbn; by rewrite ?He, ?Hs.
Qed.

Lemma log_disabled (tag message : jsstring) (data : option jsstring)
    (st : logger) :
  enabled st = false -> log clock tag message data st = st.
Proof. unfold log. by intros ->. Qed.

(** The state of the logger after any calls. *)
Lemma logger_reachable (calls : list loggerCall) :
  let st := fold_left call calls logger_start in
  (enabled st = true <-> is_Some (logStream st))
  /\ (forall p, logStream st = Some p -> logFilePath st = Some p).
Proof.
  induction calls as [|c calls IH] using rev_ind.
  - split; [split; [done | by intros [p H]] | done].
  - rewrite fold_left_app. cbn [fold_left]. cbv zeta in IH.
    destruct IH as [IH1 IH2].
    set (st := fold_left call calls logger_start) in *.
    destruct c as [outputDir | tag message data |]; cbn [logger_call].
    + unfold initLogger.
      repeat match goal with
             | |- context [log clock ?t ?m ?d ?x] =>
                 destruct (log_fields t m d x) as (-> & -> & ->)
             end.
      cbn. split; [split; [by eexists | done] | done].
    + by destruct (log_fields tag message data st) as (-> & -> & ->).
    + unfold closeLogger. destruct (logStream st) eqn:Hs;
        [|rewrite Hs; by split].
      cbn. split; [split; [done | by intros [p H]] | done].
Qed.

(** X21. Whatever calls came before: the logger says it is logging exactly when
    its stream is open, and the path it reports is then the one of that
    stream; closing it turns logging off and keeps the path, a call of
    [log] after that writes nothing, and closing again changes nothing. *)
Theorem logger_states (calls : list loggerCall) :
  let st := fold_left call calls logger_start in
  let closed := closeLogger clock st in
  (isLogging st = true <-> is_Some (logStream st))
  /\ (forall p, logStream st = Some p -> getLogFilePath st = Some p)
  /\ isLogging closed = false
  /\ getLogFilePath closed = getLogFilePath st
  /\ (forall tag message data, log clock tag message data closed = closed)
  /\ closeLogger clock closed = closed.
Proof.
  intros st closed. destruct (logger_reachable calls) as [H1 H2].
  fold st in H1, H2. split; [exact H1|]. split; [exact H2|].
  assert (Hoff : enabled closed = false /\ logStream closed = None
                 /\ logFilePath closed = logFilePath st).
  { unfold closed, closeLogger. destruct (logStream st) eqn:Hs.
    - cbn [enabled logStream logFilePath].
      by destruct (log_fields (js "LOGGER") (js "Closing log file.")
                     None st) as (_ & _ & ->).
    - split; [|done]. destruct (enabled st) eqn:He; [|done].
      destruct (proj1 H1 eq_refl) as [p Hp]. congruence. }
  destruct Hoff as (Hen & Hstream & Hpath).
  split; [exact Hen|]. split; [exact Hpath|].
  split; [intros; by apply log_disabled|].
  unfold closeLogger at 1. by rewrite Hstream.
Qed.

End LoggerFacts.

Lemma digit_plain (c : N) :
  is_digit c = true ->
  (c =? 58) || (c =? 46) = false /\ (c =? 84) = false.
Proof.
  intros H. apply digit_cases in H.
  repeat (destruct H as [-> | H]; [by split|]). by subst.
Qed.

(** X22. The stamp in the name of the log file, for a time written the ISO way
    (four digits for the year, two for each other part): the date, an
    underscore, and the time of day with dashes, down to the second. *)
Theorem log_stamp_iso (y mo d h mi se rest : jsstring) :
  forallb is_digit (y ++ mo ++ d ++ h ++ mi ++ se) = true ->
  length y = 4%nat -> length mo = 2%nat -> length d = 2%nat ->
  length h = 2%nat -> length mi = 2%nat -> length se = 2%nat ->
  log_stamp (y ++ js "-" ++ mo ++ js "-" ++ d ++ js "T" ++ h ++ js ":"
             ++ mi ++ js ":" ++ se ++ js "." ++ rest)
  = y ++ js "-" ++ mo ++ js "-" ++ d ++ js "_" ++ h ++ js "-" ++ mi
    ++ js "-" ++ se.
Proof.
  intros Hdigits Hy Hmo Hd Hh Hmi Hse.
  destruct y as [|y1 [|y2 [|y3 [|y4 [|]]]]]; try discriminate.
  destruct mo as [|m1 [|m2 [|]]]; try discriminate.
  destruct d as [|d1 [|d2 [|]]]; try discriminate.
  destruct h as [|h1 [|h2 [|]]]; try discriminate.
  destruct mi as [|n1 [|n2 [|]]]; try discriminate.
  destruct se as [|s1 [|s2 [|]]]; try discriminate.
  cbn [app forallb] in Hdigits.
  repeat (apply andb_true_iff in Hdigits as [?%digit_plain Hdigits]).
  repeat match goal with
         | H : _ /\ _ |- _ => destruct H
         end.
  unfold log_stamp. cbn [app js list_ascii_of_string map N_of_ascii].
  cbn. repeat match goal with
              | H : (_ || _) = false |- _ => rewrite H; clear H
              end.
  cbn. repeat match goal with
              | H : (_ =? 84) = false |- _ => rewrite H; clear H
              end.
  reflexivity.
Qed.

(** ** Prices *)

Lemma Qred_integer (z : Z) : Qred (z # 1) = (z # 1)%Q.
Proof.
  unfold Qred. pose proof (Z.ggcd_gcd z 1) as Hg.
  pose proof (Z.ggcd_correct_divisors z 1) as Hd.
  destruct (Z.ggcd z 1) as [g [a b]]. cbn [fst snd] in *.
  rewrite Z.gcd_1_r in Hg. subst g. destruct Hd as [Ha Hb].
  rewrite Z.mul_1_l in Ha, Hb. by subst.
Qed.

Lemma digit_not_dot (c : N) :
  is_digit c = true -> (c =? DOT) = false /\ (c =? COMMA) = false.
Proof.
  intros H. apply digit_cases in H.
  repeat (destruct H as [-> | H]; [by split|]). by subst.
Qed.

Lemma clean_price_without_comma (s : jsstring) :
  COMMA ∉ s -> clean_price s = List.filter is_digit s.
Proof.
  unfold clean_price. induction s as [|c s IH]; [done|].
  intros H. apply not_elem_of_cons in H as [Hc H]. specialize (IH H).
  cbn [List.filter]. unfold is_price_char at 1.
  destruct (is_digit c) eqn:Hd.
  - destruct (digit_not_dot c Hd) as [Hdot Hcomma].
    cbn [orb List.filter]. rewrite Hdot. cbn [negb replace_first_comma].
    rewrite Hcomma. by rewrite IH.
  - cbn [orb]. destruct (N.eqb_spec c DOT) as [-> | Hdot].
    + cbn [orb List.filter]. exact IH.
    + replace (c =? COMMA) with false by (symmetry; by apply N.eqb_neq).
      exact IH.
Qed.

Lemma filter_digits_all (s : jsstring) :
  forallb is_digit (List.filter is_digit s) = true.
Proof.
  apply forallb_forall. intros x Hx. by apply filter_In in Hx as [_ Hx].
Qed.


End Pipeline.

(** * Worked examples

    The built-ins are instantiated with their ASCII versions; every string
    below is ASCII. *)

(** ** Price parsing, discounts and sorting *)

Example parsePrice_thousands :
  parsePrice (Some (js "R$ 3.899")) = Some 3899%Q.
Proof. reflexivity. Qed.

Example parsePrice_decimal_comma :
  parsePrice (Some (js "R$ 1.200,50")) = Some (2401 # 2)%Q.
Proof. reflexivity. Qed.

Example parsePrice_not_a_number :
  parsePrice (Some (js "sob consulta")) = None.
Proof. reflexivity. Qed.



Example sort_price_asc :
  map it_price
    (sort_items (Some PRICE_ASC)
       [priced_item "a" None; priced_item "b" (Some 100%Q);
        priced_item "c" (Some 50%Q)])
  = [Some 50%Q; Some 100%Q; None].
Proof. reflexivity. Qed.

Example sort_price_desc :
  map it_price
    (sort_items (Some PRICE_DESC)
       [priced_item "a" None; priced_item "b" (Some 100%Q);
        priced_item "c" (Some 50%Q)])
  = [Some 100%Q; Some 50%Q; None].
Proof. reflexivity. Qed.

Example sort_date_keeps_order :
  map it_price
    (shape (Some DATE) 2
       [priced_item "a" None; priced_item "b" (Some 100%Q);
        priced_item "c" (Some 50%Q)])
  = [None; Some 100%Q].
Proof. reflexivity. Qed.

Example shape_caps_after_sort :
  map it_price
    (shape (Some PRICE_ASC) 2
       [priced_item "a" None; priced_item "b" (Some 100%Q);
        priced_item "c" (Some 50%Q)])
  = [Some 50%Q; Some 100%Q].
Proof. reflexivity. Qed.


(** ** Strict matching *)

Example tokens_of_query :
  getQueryTokens ascii_toLowerCase ascii_nfd (js "Samsung S20")
  = [js "samsung"; js "s20"].
Proof. reflexivity. Qed.

Example tokens_drop_stop_words :
  getQueryTokens ascii_toLowerCase ascii_nfd (js "capa de a para o S-20 x")
  = [js "capa"; js "20"].
Proof. reflexivity. Qed.

Example samsung_matches :
  matchesQuery ascii_toLowerCase ascii_nfd
    (priced_item "Celular Samsung Galaxy S20" None) (js "samsung s20")
  = true.
Proof. reflexivity. Qed.

Example iphone_does_not_match :
  matchesQuery ascii_toLowerCase ascii_nfd
    (priced_item "iPhone 13" None) (js "samsung s20")
  = false.
Proof. reflexivity. Qed.

Example stop_words_match_everything :
  matchesQuery ascii_toLowerCase ascii_nfd
    (priced_item "iPhone 13" None) (js "de para o")
  = true.
Proof. reflexivity. Qed.

(** ** Searches *)

(** A search with a limit of two over the page of three ads. *)
Lemma items_within_limit_witness :
  match result (search ascii_toLowerCase ascii_nfd world_three (js "sofa")
                       (with_limit 2)) with
  | Ok r => (Z.of_nat (length (r_items r)) <= 2)%Z
            /\ pg_limit (r_pagination r) = 2%Z
  | _ => False
  end.
Proof.
  destruct (result (search ascii_toLowerCase ascii_nfd world_three
                           (js "sofa") (with_limit 2)))
    as [r| |] eqn:Hr; [|vm_compute in Hr; discriminate..].
  apply (items_within_limit ascii_toLowerCase ascii_nfd world_three
           (js "sofa") (with_limit 2) r Hr).
  vm_compute. discriminate.
Defined.

(** C1, counterexample. With a limit of -1 the search returns: the loop
    does not run, [slice(0, -1)] drops the last of the three items, and two
    items come back, more than the limit. *)
Lemma negative_limit_overflows :
  (fun r => (length (r_items r), pg_limit (r_pagination r)))
    <$> returned (search ascii_toLowerCase ascii_nfd world_three (js "sofa")
                         (with_limit (-1)))
  = Some (2%nat, (-1)%Z).
Proof. vm_compute. reflexivity. Qed.

(** C2, the failing input. The first page lists ad 7 twice and both copies
    are returned: the items of the first page are taken without the check
    that later pages and the multi-region merge go through. *)
Lemma first_page_twins_returned :
  (fun r => map it_id (r_items r))
    <$> returned (search ascii_toLowerCase ascii_nfd world_twins (js "sofa")
                         no_options)
  = Some [Some 7%Z; Some 7%Z].
Proof. vm_compute. reflexivity. Qed.

(** The same first page below a multi-region search is deduplicated by the
    merge. *)
Example twins_merged_once :
  (fun r => map it_id (r_items r))
    <$> returned (search ascii_toLowerCase ascii_nfd world_twins (js "sofa")
                         (in_states "sp,rj" 20))
  = Some [Some 7%Z].
Proof. vm_compute. reflexivity. Qed.

(** A two-region search over the regional lists. *)
Lemma capped_flag_witness :
  match result (search ascii_toLowerCase ascii_nfd world_regions (js "sofa")
                       (in_states "sp,rj" 20)) with
  | Ok r => pg_capped (r_pagination r) = true
            <-> (20 <= Z.of_nat (length (r_items r)))%Z
  | _ => False
  end.
Proof.
  destruct (result (search ascii_toLowerCase ascii_nfd world_regions
                           (js "sofa") (in_states "sp,rj" 20)))
    as [r| |] eqn:Hr; [|vm_compute in Hr; discriminate..].
  apply (capped_flag ascii_toLowerCase ascii_nfd world_regions
           (js "sofa") (in_states "sp,rj" 20) r Hr).
  vm_compute. lia.
Defined.

(** C3, counterexample. Regions sp and rj each hold a thousand ads, one a
    page, and the limit is 100.  Each regional search stops at the page
    budget, 20 pages, with more to read, and reports [capped]; the merged
    result holds 40 items and reports [capped = false]. *)
Lemma budget_exhausted_not_capped :
  (fun r => (length (r_items r), pg_total (r_pagination r),
             pg_capped (r_pagination r)))
    <$> returned (search ascii_toLowerCase ascii_nfd world_budget (js "sofa")
                         (in_states "sp,rj" 100))
  = Some (40%nat, 2000%Z, false)
  /\ length (listing_requests
               (trace (search ascii_toLowerCase ascii_nfd world_budget
                              (js "sofa") (in_states "sp,rj" 100))))
     = 40%nat
  /\ (fun r => (length (r_items r), pg_total (r_pagination r),
                pg_capped (r_pagination r)))
       <$> returned (search ascii_toLowerCase ascii_nfd world_budget
                            (js "sofa") (in_states "sp" 100))
     = Some (20%nat, 1000%Z, true)
  /\ length (listing_requests
               (trace (search ascii_toLowerCase ascii_nfd world_budget
                              (js "sofa") (in_states "sp" 100))))
     = 20%nat.
Proof. vm_compute. repeat split; reflexivity. Qed.

(** Limit 100, page size 50, total 60: two pages, sixty items, not
    capped. *)
Example sixty_of_hundred :
  (fun r => (length (r_items r), pg_capped (r_pagination r)))
    <$> returned (search ascii_toLowerCase ascii_nfd world_sixty (js "sofa")
                         (with_limit 100))
  = Some (60%nat, false)
  /\ length (listing_requests
               (trace (search ascii_toLowerCase ascii_nfd world_sixty
                              (js "sofa") (with_limit 100))))
     = 2%nat.
Proof. vm_compute. split; reflexivity. Qed.

Lemma pagination_stops_witness :
  (length (listing_requests
             (trace (search_single ascii_toLowerCase ascii_nfd world_sixty
                                   (js "sofa") (with_limit 100) [])))
   <= 2)%nat.
Proof.
  edestruct (pagination_stops ascii_toLowerCase ascii_nfd world_sixty
               (js "sofa") (with_limit 100) [])
    as (k & Hk & _ & Htr & _ & _ & H60); [reflexivity | reflexivity |].
  rewrite Htr, length_map, length_seq.
  apply H60; reflexivity.
Defined.

(** C4, counterexample. A first page without any record does not stop the
    walk: page 2 is requested.  Nor does a page that only repeats ads
    already seen: after page 2 of the second world, which adds nothing,
    page 3 is requested. *)
Lemma empty_page_does_not_stop :
  length (listing_requests
            (trace (search ascii_toLowerCase ascii_nfd world_empty_first
                           (js "sofa") (with_limit 100))))
  = 2%nat
  /\ listing world_empty_first
       (page_url ascii_toLowerCase (js "sofa") None None None 1) 15000
     = sample_page [] 60 50
  /\ length (listing_requests
               (trace (search ascii_toLowerCase ascii_nfd world_repeats
                              (js "sofa") (with_limit 100))))
     = 3%nat
  /\ map it_id
       (ps_items (state_after ascii_toLowerCase world_repeats (js "sofa")
                    None None None 15000
                    (first_state [sample_ad 1 "sofa" "R$ 10"]) 2))
     = map it_id (ps_items (first_state [sample_ad 1 "sofa" "R$ 10"])).
Proof. vm_compute. repeat split; reflexivity. Qed.

(** Regions [a1, a2, a3] and [b1, b2] through the whole search. *)
Example two_regions_interleave :
  (fun r => map it_title (r_items r))
    <$> returned (search ascii_toLowerCase ascii_nfd world_regions
                         (js "sofa") (in_states "sp,rj" 20))
  = Some [js "a1"; js "b1"; js "a2"; js "b2"; js "a3"].
Proof. vm_compute. reflexivity. Qed.

(** ** Validation *)

Example unknown_category_throws :
  search ascii_toLowerCase ascii_nfd world_three (js "sofa")
    {| o_limit := None; o_timeout := None; o_sort := None;
       o_concurrency := None; o_state := None;
       o_category := Some (js "sofas"); o_strict := None |}
  = Run [] (Throw (UnknownCategory (js "sofas") CATEGORIES)).
Proof. vm_compute. reflexivity. Qed.

Example unknown_state_throws :
  search ascii_toLowerCase ascii_nfd world_three (js "sofa")
    (in_states "SP, xx" 20)
  = Run [] (Throw (UnknownState (js "xx"))).
Proof. vm_compute. reflexivity. Qed.

Example cli_rejects_zero_limit :
  cli_main ascii_toLowerCase ascii_nfd world_three
    {| a_query := js "sofa"; a_limit := Some (js "0"); a_timeout := None;
       a_concurrency := None; a_format := None; a_raw := false;
       a_sort := None; a_state := None; a_category := None;
       a_strict := false |}
  = Run [] (Ok (CliError (js "Invalid --limit"))).
Proof. vm_compute. reflexivity. Qed.

(** C9, counterexample. With a limit of 0, a timeout of 0 and a
    concurrency of -1, [search] raises no validation error: it requests the
    first page and returns (an empty list), and [searchRaw] with a timeout
    of 0 requests the page and returns it. *)
Lemma non_positive_options_are_searched :
  (fun run => (length (trace run), r_items <$> returned run))
    (search ascii_toLowerCase ascii_nfd world_three (js "sofa")
       {| o_limit := Some 0%Z; o_timeout := Some 0%Z; o_sort := None;
          o_concurrency := Some (-1)%Z; o_state := None;
          o_category := None; o_strict := None |})
  = (1%nat, Some [])
  /\ (fun run => (length (trace run), pp_totalOfAds <$> returned run))
       (searchRaw ascii_toLowerCase world_three (js "sofa")
          {| o_limit := Some 0%Z; o_timeout := Some 0%Z; o_sort := None;
             o_concurrency := Some (-1)%Z; o_state := None;
             o_category := None; o_strict := None |})
     = (1%nat, Some (Some 3%Z)).
Proof. vm_compute. split; reflexivity. Qed.

(** ** Strict filtering and enrichment *)

(** The iPhone ad is dropped although its detail page carries both tokens;
    without [strict] it is returned, with that description. *)
Example strict_ignores_detail_text :
  (fun r => map it_title (r_items r))
    <$> returned (search ascii_toLowerCase ascii_nfd world_phones
                         (js "samsung s20") (strictly 20))
  = Some [js "Celular Samsung Galaxy S20"]
  /\ (fun r => map it_description (r_items r))
       <$> returned (search ascii_toLowerCase ascii_nfd world_phones
                            (js "samsung s20") (with_limit 20))
     = Some [Some (js "troco por samsung s20");
             Some (js "troco por samsung s20")].
Proof. vm_compute. split; reflexivity. Qed.

Lemma strict_filter_before_enrichment_witness :
  match result (search ascii_toLowerCase ascii_nfd world_phones
                       (js "samsung s20") (strictly 20)) with
  | Ok r =>
      exists found : list item,
        Forall (fun it => it_description it = None) found
        /\ map listing_of (r_items r)
           = map listing_of
               (shape None 20
                  (List.filter
                     (fun it => matchesTokens ascii_toLowerCase ascii_nfd it
                                  [js "samsung"; js "s20"]) found))
  | _ => False
  end.
Proof.
  destruct (result (search ascii_toLowerCase ascii_nfd world_phones
                           (js "samsung s20") (strictly 20)))
    as [r| |] eqn:Hr; [|vm_compute in Hr; discriminate..].
  destruct (strict_filter_before_enrichment ascii_toLowerCase ascii_nfd
              world_phones (js "samsung s20") (strictly 20) r eq_refl
              (le_S _ _ (le_n 0)) Hr)
    as (found & Hnone & Hitems & _).
  exists found. split; [exact Hnone | exact Hitems].
Defined.

(** ** Termination, provenance and requests *)

Lemma search_settles_witness :
  (exists r, result (search ascii_toLowerCase ascii_nfd world_three
                            (js "sofa") no_options) = Ok r)
  \/ (exists e, result (search ascii_toLowerCase ascii_nfd world_three
                               (js "sofa") no_options) = Throw e).
Proof. apply search_settles. vm_compute. discriminate. Defined.

(** With a batch size of zero, the search over ads without a detail link
    returns. *)
Lemma concurrency_below_one_witness :
  match result (search ascii_toLowerCase ascii_nfd world_three (js "sofa")
                       (with_batch 0)) with
  | Ok r => Forall (fun it => it_permalink it = []) (r_items r)
  | _ => False
  end.
Proof.
  destruct (result (search ascii_toLowerCase ascii_nfd world_three
                           (js "sofa") (with_batch 0)))
    as [r| |] eqn:Hr; [|vm_compute in Hr; discriminate..].
  apply (concurrency_below_one ascii_toLowerCase ascii_nfd world_three
           (js "sofa") (with_batch 0)); [|exact Hr].
  vm_compute. discriminate.
Defined.

(** The same batch size over ads that have a detail link: the search does
    not return. *)
Example zero_batch_hangs :
  result (search ascii_toLowerCase ascii_nfd world_phones (js "iphone")
                 (with_batch 0)) = Hang
  /\ result (search ascii_toLowerCase ascii_nfd world_phones (js "iphone")
                    (with_batch (-2))) = Hang.
Proof. vm_compute. split; reflexivity. Qed.

Lemma returned_items_normalised_witness :
  match result (search ascii_toLowerCase ascii_nfd world_three (js "sofa")
                       no_options) with
  | Ok r => Forall normalised (r_items r)
  | _ => False
  end.
Proof.
  destruct (result (search ascii_toLowerCase ascii_nfd world_three
                           (js "sofa") no_options))
    as [r| |] eqn:Hr; [|vm_compute in Hr; discriminate..].
  exact (returned_items_normalised ascii_toLowerCase ascii_nfd world_three
           (js "sofa") no_options r Hr).
Defined.


Lemma items_come_from_pages_witness :
  match result (search ascii_toLowerCase ascii_nfd world_regions (js "sofa")
                       (in_states "sp,rj" 20)) with
  | Ok r =>
      Forall (from_page world_regions 15000
                (trace (search ascii_toLowerCase ascii_nfd world_regions
                               (js "sofa") (in_states "sp,rj" 20))))
             (r_items r)
  | _ => False
  end.
Proof.
  destruct (result (search ascii_toLowerCase ascii_nfd world_regions
                           (js "sofa") (in_states "sp,rj" 20)))
    as [r| |] eqn:Hr; [|vm_compute in Hr; discriminate..].
  exact (items_come_from_pages ascii_toLowerCase ascii_nfd world_regions
           (js "sofa") (in_states "sp,rj" 20) r Hr).
Defined.

(** Forty pages for two regions of a thousand ads, a page holding one. *)
Example budget_of_two_regions :
  length (listing_requests
            (trace (search ascii_toLowerCase ascii_nfd world_budget
                           (js "sofa") (in_states "sp,rj" 100))))
  = 40%nat.
Proof. vm_compute. reflexivity. Qed.

Lemma details_requested_once_witness :
  detail_requests
    (trace (search ascii_toLowerCase ascii_nfd world_phones (js "iphone")
                   no_options))
  = [GetDetail (js "https://olx/1"); GetDetail (js "https://olx/2")].
Proof.
  destruct (result (search ascii_toLowerCase ascii_nfd world_phones
                           (js "iphone") no_options))
    as [r| |] eqn:Hr; [|vm_compute in Hr; discriminate..].
  rewrite (details_requested_once ascii_toLowerCase ascii_nfd world_phones
             (js "iphone") no_options r);
    [|vm_compute; discriminate | vm_compute; lia | exact Hr].
  vm_compute in Hr. injection Hr as <-. reflexivity.
Defined.

(** The two phones get the description of their detail pages. *)
Lemma enrichment_is_pointwise_witness :
  match result (search ascii_toLowerCase ascii_nfd world_phones
                       (js "iphone") no_options) with
  | Ok r => Forall (fun it => it = enriched world_phones DEFAULT_TIMEOUT
                                            (listing_of it))
                   (r_items r)
            /\ map it_description (r_items r)
               = [Some (js "troco por samsung s20");
                  Some (js "troco por samsung s20")]
  | _ => False
  end.
Proof.
  destruct (result (search ascii_toLowerCase ascii_nfd world_phones
                           (js "iphone") no_options))
    as [r| |] eqn:Hr; [|vm_compute in Hr; discriminate..].
  split.
  - apply (enrichment_is_pointwise ascii_toLowerCase ascii_nfd world_phones
             (js "iphone") no_options r); [vm_compute; discriminate|].
    exact Hr.
  - vm_compute in Hr. injection Hr as <-. reflexivity.
Defined.


(** One region: no page is asked for twice. *)
Lemma listing_requests_bounded_witness :
  (length (listing_requests
             (trace (search ascii_toLowerCase ascii_nfd world_budget
                            (js "sofa") no_options))) <= 20)%nat
  /\ NoDup (listing_requests
              (trace (search ascii_toLowerCase ascii_nfd world_budget
                             (js "sofa") no_options))).
Proof.
  destruct (listing_requests_bounded ascii_toLowerCase ascii_nfd
              world_budget (js "sofa") no_options) as [Hlen Hnodup].
  split; [exact Hlen|]. apply Hnodup. vm_compute. lia.
Defined.

(** Two regions and a network that is down. *)
Lemma multi_region_settles_witness :
  exists r,
    result (search ascii_toLowerCase ascii_nfd
              {| listing := fun _ _ => Failed; detailOf := no_details |}
              (js "sofa") (in_states "sp,rj" 20)) = Ok r
    /\ r_items r = [] /\ pg_total (r_pagination r) = 0%Z
    /\ q_url (r_query r) = None.
Proof.
  destruct (multi_region_settles ascii_toLowerCase ascii_nfd
              {| listing := fun _ _ => Failed; detailOf := no_details |}
              (js "sofa") (in_states "sp,rj" 20))
    as (r & Hr & Hempty);
    [reflexivity | reflexivity | vm_compute; lia | vm_compute; discriminate
    |].
  exists r. split; [exact Hr|]. by apply Hempty.
Defined.

(** A strict search with a limit of two over the two phones: the walk
    holds two items, the filter keeps one, and the note is written. *)
Lemma returned_note_cases_witness :
  (length (stateList_of ascii_toLowerCase (o_state (strictly 2))) <= 1)%nat
  /\ (default false (o_strict (strictly 2)) = true
      \/ length (listing_requests
                   (trace (search ascii_toLowerCase ascii_nfd world_phones
                                  (js "samsung s20") (strictly 2))))
         = 20%nat).
Proof.
  destruct (result (search ascii_toLowerCase ascii_nfd world_phones
                           (js "samsung s20") (strictly 2)))
    as [r| |] eqn:Hr; [|vm_compute in Hr; discriminate..].
  apply (returned_note_cases ascii_toLowerCase ascii_nfd world_phones
           (js "samsung s20") (strictly 2) r 2 1 2 (TotalAvailable 2));
    [reflexivity | exact Hr |].
  vm_compute in Hr. injection Hr as <-. reflexivity.
Defined.

Example no_note_for_short_regions :
  cli_note 20 <$> returned (search ascii_toLowerCase ascii_nfd world_regions
                                   (js "sofa") (in_states "sp,rj" 20))
  = Some None.
Proof. vm_compute. reflexivity. Qed.

Lemma search_nodup_witness :
  match result (search ascii_toLowerCase ascii_nfd world_twins (js "sofa")
                       (in_states "sp,rj" 20)) with
  | Ok r => NoDup (omap it_id (r_items r))
  | _ => False
  end.
Proof.
  destruct (result (search ascii_toLowerCase ascii_nfd world_twins
                           (js "sofa") (in_states "sp,rj" 20)))
    as [r| |] eqn:Hr; [|vm_compute in Hr; discriminate..].
  apply (search_nodup ascii_toLowerCase ascii_nfd world_twins
           (js "sofa") (in_states "sp,rj" 20) r Hr).
  vm_compute. lia.
Defined.

(** ** The front end and the helpers *)

Example outputCsv_lines :
  outputCsv no_proto csv_items
  = [js "title,price";
     [QUOTE] ++ js "Sofa, 3 lugares" ++ [QUOTE] ++ js ",10";
     js "Mesa,"].
Proof. vm_compute. reflexivity. Qed.

Example csv_cell_quotes :
  csv_cell (Some (js "12" ++ [QUOTE] ++ js " tv"))
  = [QUOTE] ++ js "12" ++ [QUOTE; QUOTE] ++ js " tv" ++ [QUOTE].
Proof. vm_compute. reflexivity. Qed.


(** Fields asked twice, unknown, inherited, and [__proto__]. *)
Example select_fields_order :
  select_fields toy_proto
    [js "price"; js "nope"; js "title"; js "price"; js "toString"; PROTO]
    [(js "id", Some (js "7")); (js "title", Some (js "Sofa"));
     (js "price", None)]
  = [(js "price", None); (js "title", Some (js "Sofa"));
     (js "toString", Some (js "function toString() { [native code] }"))].
Proof. vm_compute. reflexivity. Qed.

Example esc_markup :
  esc (Some (js "<b>Tom & Jerry</b>"))
  = js "&lt;b&gt;Tom &amp; Jerry&lt;/b&gt;".
Proof. vm_compute. reflexivity. Qed.

Example curl_timeout_values :
  map curl_timeout [15000; 15001; 1; 0; -5; 999; 1000]%Z
  = [15; 16; 1; 1; 1; 1; 1]%Z.
Proof. vm_compute. reflexivity. Qed.

Lemma curl_timeout_bounds_witness :
  (1000 * (curl_timeout 15001 - 1) < 15001)%Z.
Proof. apply curl_timeout_bounds. lia. Defined.

(** A page of two lines, then the status. *)
Lemma fetchPage_through_curl_witness :
  fetchPage (curl_only (js "<html>" ++ [LF] ++ js "</html>" ++ [LF]
                        ++ js "200"))
            (js "https://www.olx.com.br/brasil?q=sofa") 15000
  = inr (js "<html>" ++ [LF] ++ js "</html>").
Proof.
  exact (fetchPage_through_curl
           (curl_only (js "<html>" ++ [LF] ++ js "</html>" ++ [LF]
                       ++ js "200"))
           (js "https://www.olx.com.br/brasil?q=sofa") 15000
           TransportFailed (js "<html>" ++ [LF] ++ js "</html>") (js "200")
           eq_refl eq_refl ltac:(discriminate) eq_refl).
Defined.

(** A status of 404, and an output without any line break: its last code
    unit is lost and it counts as a page. *)
Example curl_result_edges :
  curl_result (js "Not found" ++ [LF] ++ js "404") = inl (HttpStatus 404)
  /\ curl_result (js "oops") = inr (js "oop").
Proof. vm_compute. split; reflexivity. Qed.

Lemma extractNextData_payload_witness :
  extractNextData toy_parse sample_html
  = Some (JObj [(js "totalOfAds", JNum 3)]).
Proof.
  exact (proj1 (extractNextData_payload toy_parse
                  (js "<html><script>var a;</script>") (js "{}")
                  (js "</html>"))
               eq_refl eq_refl).
Defined.

Example extractNextData_edges :
  extractNextData toy_parse (js "<html></html>") = None
  /\ extractNextData toy_parse
       (NEXT_DATA_MARKER ++ js "{broken" ++ SCRIPT_END) = None
  /\ extractNextData toy_parse (NEXT_DATA_MARKER ++ js "{}") = None.
Proof. vm_compute. repeat split; reflexivity. Qed.

Example clean_description_text :
  clean_description
    (Some (js "  <p>Vendo <b>sofa</b><BR />novo</p> <<i>> "))
  = Some (js "Vendo sofa" ++ [LF] ++ js "novo >")
  /\ clean_description (Some []) = None
  /\ clean_description (Some (js "a <> b < c")) = Some (js "a <> b < c").
Proof. vm_compute. repeat split; reflexivity. Qed.

Lemma description_has_no_tag_witness :
  tagless (js "Vendo sofa")
  /\ drop_space (js "Vendo sofa") = js "Vendo sofa"
  /\ drop_space (rev (js "Vendo sofa")) = rev (js "Vendo sofa").
Proof.
  exact (description_has_no_tag (Some (js " <p>Vendo <b>sofa</b></p>"))
           (js "Vendo sofa") eq_refl).
Defined.

Lemma log_stamp_iso_witness :
  log_stamp (js "2026-11-02T12:34:56.789Z") = js "2026-11-02_12-34-56".
Proof.
  exact (log_stamp_iso (js "2026") (js "11") (js "02") (js "12") (js "34")
           (js "56") (js "789Z") eq_refl eq_refl eq_refl eq_refl eq_refl
           eq_refl eq_refl).
Defined.

(** A session: a line before the logger is started is lost, two lines
    are written after the four of the start, and one on closing. *)
Example logger_session :
  (fun st => (length (written st), isLogging st,
              getLogFilePath st))
    (fold_left
       (logger_call (fun _ => js "2026-11-02T12:34:56.789Z")
                    (fun dir name => dir ++ js "/" ++ name) (js "/app")
                    (js "v22") (js "linux") (js "x64") (js "/home")
                    [js "node"; js "olx-search"])
       [Log (js "CLI") (js "lost") None; InitLogger None;
        Log (js "CLI") (js "one") None; Log (js "CLI") (js "two") None;
        CloseLogger; Log (js "CLI") (js "late") None]
       logger_start)
  = (7%nat, false, Some (js "/app/olx-search_2026-11-02_12-34-56.log")).
Proof. vm_compute. reflexivity. Qed.

